(** * Error Logger: a shallow embedding of [app.py]

    The development follows the data-access layer of the Streamlit
    application: the two SQLite tables created by [init_db], the
    environment registry ([get_current_environment],
    [get_or_create_environment]), the error repository ([save_error],
    [get_all_errors], [get_errors_by_environment]) and the two pieces of
    page code that decide what is written and what is shown (the submit
    handler of the "Log Error" form and the "Search & Filter" mask).

    Modelling conventions.
    - A Python [str] is a Rocq [string]; a character stands for the code
      point of the same number, so the text handled here ranges over the
      code points below 256.  Strings decoded from JSON may denote any code
      point (through a backslash-u escape) and are kept as lists of code
      points.
    - SQL NULL and Python [None] are [None]; a nullable TEXT column is an
      [option string], the INTEGER foreign key an [option Z].
    - [CURRENT_TIMESTAMP] has a resolution of one second; a timestamp is
      the number of seconds it denotes, and the clock is an explicit
      argument of every function that inserts a row.
    - A function that can raise returns a [result].
    - What the recursion limit of the interpreter leaves to [json.loads]
      depends on where it is called: it is an explicit argument, [depth],
      of every function that decodes JSON. *)

From Stdlib Require Import ZArith NArith List String Ascii Bool Lia.
From Stdlib Require Import Permutation Sorted.
Import ListNotations.

Set Warnings "-register-all".

Local Open Scope string_scope.
Local Open Scope Z_scope.

(** ** Exceptions *)

Inductive exn : Type :=
| KeyError (key : string)
| IndexError
| IntegrityError (constraint : string)
| JSONDecodeError
| RecursionError
| ValueError
| OverflowError
| DatabaseError
| ReError.

Inductive result (A : Type) : Type :=
| Ok (a : A)
| Raise (e : exn).

Arguments Ok {A} a.
Arguments Raise {A} e.

Definition bind {A B : Type} (m : result A) (k : A -> result B) : result B :=
  match m with
  | Ok a => k a
  | Raise e => Raise e
  end.

Notation "'do' x <- m ; k" := (bind m (fun x => k))
  (at level 10, x pattern, m at level 100, k at level 200).

Fixpoint mapM {A B : Type} (f : A -> result B) (l : list A) : result (list B) :=
  match l with
  | [] => Ok []
  | a :: l' => do b <- f a; do bs <- mapM f l'; Ok (b :: bs)
  end.

(** ** The persisted schema ([init_db]) *)

(** [environments(id, python_version NOT NULL, platform, modules,
    created_at, UNIQUE(python_version, modules))]. *)
Module Environments.
Record row : Type := mk {
  id : Z;
  python_version : string;
  platform : option string;
  modules : option string;
  created_at : Z
}.
End Environments.

(** [errors(id, error_name NOT NULL, description, error_type, traceback,
    fix, complexity, status DEFAULT 'Open', tags, environment_id,
    created_at, updated_at)]. *)
Module Errors.
Record row : Type := mk {
  id : Z;
  error_name : string;
  description : option string;
  error_type : option string;
  traceback : option string;
  fix_ : option string;
  complexity : option string;
  status : option string;
  tags : option string;
  environment_id : option Z;
  created_at : Z;
  updated_at : Z
}.
End Errors.

(** The database file once both tables exist.  Each AUTOINCREMENT table
    has its counter in [sqlite_sequence]: the largest rowid ever handed
    out for the table. *)
Record database : Type := mkdb {
  environments : list Environments.row;
  environments_seq : Z;
  errors : list Errors.row;
  errors_seq : Z
}.

Definition empty_database : database :=
  {| environments := []; environments_seq := 0; errors := []; errors_seq := 0 |}.

(** [CREATE TABLE IF NOT EXISTS] twice: a fresh file ([None]) gets the two
    empty tables, an existing database is left as it is. *)
Definition init_db (file : option database) : database :=
  match file with
  | None => empty_database
  | Some db => db
  end.

(** *** SQLite primitives used by the statements *)

(** [column = ?] in a WHERE clause with a text parameter: NULL never
    compares equal. *)
Definition sql_text_eq (column : option string) (param : string) : bool :=
  match column with
  | Some s => String.eqb s param
  | None => false
  end.

(** [column = ?] with an integer parameter. *)
Definition sql_int_eq (column : option Z) (param : Z) : bool :=
  match column with
  | Some n => Z.eqb n param
  | None => false
  end.

(** The rowid an AUTOINCREMENT table gives to a new row: one more than the
    largest of the rowids in the table and the counter. *)
Definition next_rowid (seq : Z) (ids : list Z) : Z :=
  fold_right Z.max seq ids + 1.

(** ** Environment registry *)

(** The dictionary [get_current_environment] returns and
    [get_or_create_environment] receives.  Its three values are always
    [str]: the first word of [sys.version], [platform.platform()] and the
    output of [json.dumps]. *)
Record env_info : Type := mk_env_info {
  ei_python_version : string;
  ei_platform : string;
  ei_modules : string
}.

(** [WHERE python_version = ? AND modules = ?]. *)
Definition env_matches (v m : string) (r : Environments.row) : bool :=
  String.eqb (Environments.python_version r) v
  && sql_text_eq (Environments.modules r) m.

(** [SELECT id FROM environments WHERE ...] followed by [fetchone()]. *)
Definition select_environment_id (db : database) (v m : string) : option Z :=
  option_map Environments.id (find (env_matches v m) (environments db)).

(** [INSERT INTO environments (python_version, platform, modules)]: the
    UNIQUE(python_version, modules) constraint rejects a second row with
    the same two non-NULL values; [id] and [created_at] take their
    defaults.  Returns [lastrowid] with the new database. *)
Definition insert_environment (db : database) (v p m : string) (now : Z)
  : result (Z * database) :=
  if existsb (env_matches v m) (environments db) then
    Raise (IntegrityError "UNIQUE constraint failed: environments.python_version, environments.modules")
  else
    let rowid := next_rowid (environments_seq db)
                            (map Environments.id (environments db)) in
    let r := Environments.mk rowid v (Some p) (Some m) now in
    Ok (rowid,
        {| environments := environments db ++ [r];
           environments_seq := rowid;
           errors := errors db;
           errors_seq := errors_seq db |}).

Definition get_or_create_environment (db : database) (e : env_info) (now : Z)
  : result (Z * database) :=
  match select_environment_id db (ei_python_version e) (ei_modules e) with
  | Some env_id => Ok (env_id, db)
  | None =>
      insert_environment db (ei_python_version e) (ei_platform e)
                         (ei_modules e) now
  end.

(** ** Python strings *)

Definition dquote : ascii := "034"%char.
Definition backslash : ascii := "\"%char.

(** [ord(c)]. *)
Definition ord (c : ascii) : N := N_of_ascii c.

(** [str.isspace] on one character, below code point 256: the ASCII
    whitespace (TAB..CR, FS..US, space), NEL and the no-break space. *)
Definition isspace (c : ascii) : bool :=
  let n := ord c in
  ((9 <=? n) && (n <=? 13) || (28 <=? n) && (n <=? 32)
   || (n =? 133) || (n =? 160))%N.

(** [s.lstrip()], [s.rstrip()], [s.strip()]. *)
Fixpoint lstrip (s : string) : string :=
  match s with
  | String c s' => if isspace c then lstrip s' else s
  | EmptyString => EmptyString
  end.

Fixpoint rstrip (s : string) : string :=
  match s with
  | String c s' =>
      match rstrip s' with
      | EmptyString => if isspace c then EmptyString else String c EmptyString
      | t => String c t
      end
  | EmptyString => EmptyString
  end.

Definition strip (s : string) : string := rstrip (lstrip s).

(** [s.split(sep)] for a one-character separator: never an empty list. *)
Fixpoint split_on (sep : ascii) (s : string) : list string :=
  match s with
  | EmptyString => [EmptyString]
  | String c s' =>
      if Ascii.eqb c sep then EmptyString :: split_on sep s'
      else match split_on sep s' with
           | w :: ws => String c w :: ws
           | [] => [String c EmptyString]
           end
  end.

(** [s.split()]: the maximal runs of non-whitespace characters. *)
Fixpoint split_whitespace (s : string) : list string :=
  match s with
  | EmptyString => []
  | String c s' =>
      if isspace c then split_whitespace s'
      else match s' with
           | String c' _ =>
               if isspace c' then String c EmptyString :: split_whitespace s'
               else match split_whitespace s' with
                    | w :: ws => String c w :: ws
                    | [] => [String c EmptyString]
                    end
           | EmptyString => [String c EmptyString]
           end
  end.

(** [", ".join(l)] and friends. *)
Fixpoint join (sep : string) (l : list string) : string :=
  match l with
  | [] => EmptyString
  | [x] => x
  | x :: l' => x ++ sep ++ join sep l'
  end.

(** ** Python dictionaries from [str] to [str]

    Insertion-ordered, one entry per key: assigning to a key that is
    present replaces the value where it stands. *)
Definition dict : Type := list (string * string).

Fixpoint dict_set (d : dict) (k v : string) : dict :=
  match d with
  | [] => [(k, v)]
  | (k', v') :: d' =>
      if String.eqb k' k then (k', v) :: d' else (k', v') :: dict_set d' k v
  end.

Fixpoint dict_get (d : dict) (k : string) : option string :=
  match d with
  | [] => None
  | (k', v') :: d' => if String.eqb k' k then Some v' else dict_get d' k
  end.

(** ** [json.dumps]

    [ensure_ascii] is left at its default, so the output is ASCII: the
    printable characters other than the quote and the backslash stand for
    themselves, the rest is escaped. *)
Definition hex_digit (n : N) : ascii :=
  nth (N.to_nat n) (list_ascii_of_string "0123456789abcdef") "0"%char.

Definition escape_char (c : ascii) : string :=
  let n := ord c in
  if (n =? 34)%N then String backslash (String dquote EmptyString)
  else if (n =? 92)%N then "\\"
  else if (n =? 10)%N then "\n"
  else if (n =? 13)%N then "\r"
  else if (n =? 9)%N then "\t"
  else if (n =? 12)%N then "\f"
  else if (n =? 8)%N then "\b"
  else if ((32 <=? n) && (n <=? 126))%N then String c EmptyString
  else "\u00" ++ String (hex_digit (n / 16)) (String (hex_digit (n mod 16)) EmptyString).

Fixpoint escape_chars (s : string) : string :=
  match s with
  | EmptyString => EmptyString
  | String c s' => escape_char c ++ escape_chars s'
  end.

(** [encode_basestring_ascii]. *)
Definition json_encode_str (s : string) : string :=
  String dquote (escape_chars s ++ String dquote EmptyString).

(** [json.dumps(l)] for a list of [str]. *)
Definition json_dumps_list (l : list string) : string :=
  "[" ++ join ", " (map json_encode_str l) ++ "]".

(** The item tuples of a dictionary compare by key, then by value
    ([str] compares code point by code point). *)
Definition item_ltb (a b : string * string) : bool :=
  match String.compare (fst a) (fst b) with
  | Lt => true
  | Gt => false
  | Eq => String.ltb (snd a) (snd b)
  end.

(** [sorted(l)]: ascending, by a stable sort that only asks whether one
    element is less than another. *)
Fixpoint insert_sorted {A : Type} (ltb : A -> A -> bool) (a : A) (l : list A) : list A :=
  match l with
  | [] => [a]
  | b :: l' => if ltb b a then b :: insert_sorted ltb a l' else a :: l
  end.

Fixpoint sorted {A : Type} (ltb : A -> A -> bool) (l : list A) : list A :=
  match l with
  | [] => []
  | a :: l' => insert_sorted ltb a (sorted ltb l')
  end.

(** "Not after": the order the sorted list is in. *)
Definition le_of {A : Type} (ltb : A -> A -> bool) (a b : A) : Prop := ltb b a = false.

(** [sorted(d.items())]. *)
Definition sorted_items (d : list (string * string)) : list (string * string) :=
  sorted item_ltb d.

Definition json_encode_item (kv : string * string) : string :=
  json_encode_str (fst kv) ++ ": " ++ json_encode_str (snd kv).

(** [json.dumps(d, sort_keys=True)] for a dictionary from [str] to [str]. *)
Definition json_dumps_sort_keys (d : dict) : string :=
  "{" ++ join ", " (map json_encode_item (sorted_items d)) ++ "}".

(** ** [get_current_environment] *)

(** One entry of [pkg_resources.working_set]. *)
Record distribution : Type := mk_distribution {
  project_name : string;
  version : string
}.

(** What the function reads from the running process: [sys.version],
    [platform.platform()] and the working set, [None] when
    [pkg_resources] cannot be imported or enumerated. *)
Record process : Type := mk_process {
  sys_version : string;
  platform_platform : string;
  working_set : option (list distribution)
}.

(** [{d.project_name: d.version for d in installed_packages}]. *)
Definition modules_of (ws : list distribution) : dict :=
  fold_left (fun d x => dict_set d (project_name x) (version x)) ws [].

Definition get_current_environment (p : process) : result env_info :=
  let modules := match working_set p with
                 | Some ws => modules_of ws
                 | None => []
                 end in
  match split_whitespace (sys_version p) with
  | v :: _ =>
      Ok {| ei_python_version := v;
            ei_platform := platform_platform p;
            ei_modules := json_dumps_sort_keys modules |}
  | [] => Raise IndexError
  end.

(** ** [json.loads]

    The decoder follows CPython's scanner: [scanstring] for string
    literals, [match_number] for numbers, [scan_once] for a value, then the
    check for trailing data.  A decoded [str] is a list of code points; a
    float keeps the text it was read from. *)
Inductive json : Type :=
| JNull
| JBool (b : bool)
| JInt (n : Z)
| JFloat (lexeme : string)
| JString (s : list N)
| JArray (items : list json)
| JObject (members : list (list N * json)).

(** [[ord(c) for c in s]]. *)
Fixpoint codepoints (s : string) : list N :=
  match s with
  | EmptyString => []
  | String c s' => ord c :: codepoints s'
  end.

(** A list of [str], as a Python value handled by the [json] module. *)
Definition json_of_strings (l : list string) : json :=
  JArray (map (fun s => JString (codepoints s)) l).

Definition is_json_ws (c : ascii) : bool :=
  let n := ord c in ((n =? 32) || (n =? 9) || (n =? 10) || (n =? 13))%N.

Fixpoint skip_ws (s : string) : string :=
  match s with
  | String c s' => if is_json_ws c then skip_ws s' else s
  | EmptyString => EmptyString
  end.

Definition hex_value (c : ascii) : option N :=
  let n := ord c in
  if ((48 <=? n) && (n <=? 57))%N then Some (n - 48)%N
  else if ((97 <=? n) && (n <=? 102))%N then Some (n - 87)%N
  else if ((65 <=? n) && (n <=? 70))%N then Some (n - 55)%N
  else None.

Definition hex4 (a b c d : ascii) : option N :=
  match hex_value a, hex_value b, hex_value c, hex_value d with
  | Some x, Some y, Some z, Some w => Some (((x * 16 + y) * 16 + z) * 16 + w)%N
  | _, _, _, _ => None
  end.

Definition is_high_surrogate (u : N) : bool := ((55296 <=? u) && (u <=? 56319))%N.
Definition is_low_surrogate (u : N) : bool := ((56320 <=? u) && (u <=? 57343))%N.
Definition join_surrogates (hi lo : N) : N :=
  (65536 + ((hi - 55296) * 1024 + (lo - 56320)))%N.

(** The character a one-letter escape stands for. *)
Definition unescape (c : ascii) : option N :=
  let n := ord c in
  if ((n =? 34) || (n =? 92) || (n =? 47))%N then Some n
  else if (n =? 98)%N then Some 8%N
  else if (n =? 102)%N then Some 12%N
  else if (n =? 110)%N then Some 10%N
  else if (n =? 114)%N then Some 13%N
  else if (n =? 116)%N then Some 9%N
  else None.

Definition cons_char (c : N) (r : result (list N * string)) : result (list N * string) :=
  do (cs, rest) <- r; Ok (c :: cs, rest).

(** [scanstring] in strict mode, from the character after the opening
    quote: the decoded text and what follows the closing quote. *)
Fixpoint scanstring (s : string) : result (list N * string) :=
  match s with
  | EmptyString => Raise JSONDecodeError
  | String c s1 =>
      if (ord c =? 34)%N then Ok ([], s1)
      else if (ord c =? 92)%N then
        match s1 with
        | EmptyString => Raise JSONDecodeError
        | String e s2 =>
            if (ord e =? 117)%N then
              match s2 with
              | String h1 (String h2 (String h3 (String h4 (String _ _ as r)))) =>
                  match hex4 h1 h2 h3 h4 with
                  | None => Raise JSONDecodeError
                  | Some u =>
                      if is_high_surrogate u then
                        match r with
                        | String b (String v (String g1 (String g2 (String g3
                            (String g4 (String _ _ as r')))))) =>
                            if ((ord b =? 92) && (ord v =? 117))%N then
                              match hex4 g1 g2 g3 g4 with
                              | None => Raise JSONDecodeError
                              | Some u2 =>
                                  if is_low_surrogate u2
                                  then cons_char (join_surrogates u u2) (scanstring r')
                                  else cons_char u (scanstring r)
                              end
                            else cons_char u (scanstring r)
                        | _ => cons_char u (scanstring r)
                        end
                      else cons_char u (scanstring r)
                  end
              | _ => Raise JSONDecodeError
              end
            else
              match unescape e with
              | Some ch => cons_char ch (scanstring s2)
              | None => Raise JSONDecodeError
              end
        end
      else if (ord c <=? 31)%N then Raise JSONDecodeError
      else cons_char (ord c) (scanstring s1)
  end.

Definition is_digit (c : ascii) : bool := ((48 <=? ord c) && (ord c <=? 57))%N.

(** The longest run of decimal digits at the head of [s]. *)
Fixpoint span_digits (s : string) : string * string :=
  match s with
  | String c s' =>
      if is_digit c then let '(ds, r) := span_digits s' in (String c ds, r)
      else (EmptyString, s)
  | EmptyString => (EmptyString, EmptyString)
  end.

(** [int(ds)] for a run of decimal digits. *)
Definition int_of_digits (ds : string) : Z :=
  fold_left (fun acc c => acc * 10 + Z.of_N (ord c - 48)) (list_ascii_of_string ds) 0.

(** The parts of a number, each with the text left after it: an
    optional minus sign; the integer part, a lone zero or a run of digits
    that starts with one to nine; a fraction, a dot and at least one
    digit; an exponent, [e] or [E], an optional sign and at least one
    digit.  A fraction or exponent that is not complete is left unread. *)
Definition read_sign (s : string) : string * string :=
  match s with
  | String "-" r => ("-", r)
  | _ => (EmptyString, s)
  end.

Definition read_int (s : string) : option (string * string) :=
  match s with
  | String c r =>
      if is_digit c
      then Some (if (ord c =? 48)%N then ("0", r) else span_digits s)
      else None
  | EmptyString => None
  end.

Definition read_frac (s : string) : string * string :=
  match s with
  | String "." (String d _ as t) =>
      if is_digit d then let '(fs, r) := span_digits t in (String "." fs, r)
      else (EmptyString, s)
  | _ => (EmptyString, s)
  end.

Definition read_exp (s : string) : string * string :=
  match s with
  | String e (String x t' as t) =>
      if ((ord e =? 101) || (ord e =? 69))%N then
        let '(sg, t1) :=
          match t' with
          | String _ _ =>
              if ((ord x =? 45) || (ord x =? 43))%N
              then (String x EmptyString, t') else (EmptyString, t)
          | EmptyString => (EmptyString, t)
          end in
        match span_digits t1 with
        | (EmptyString, _) => (EmptyString, s)
        | (es, r) => (String e (sg ++ es), r)
        end
      else (EmptyString, s)
  | _ => (EmptyString, s)
  end.

(** [match_number]: an [int] when there is neither fraction nor exponent,
    a [float] otherwise.  [int] refuses a literal of more than 4300
    digits with [ValueError]; [float] has no such limit. *)
Definition match_number (s : string) : result (json * string) :=
  let '(sign, s1) := read_sign s in
  match read_int s1 with
  | None => Raise JSONDecodeError
  | Some (int_part, s2) =>
      let '(frac, s3) := read_frac s2 in
      let '(expo, s4) := read_exp s3 in
      match frac, expo with
      | EmptyString, EmptyString =>
          if (4300 <? String.length int_part)%nat then Raise ValueError
          else
            let n := int_of_digits int_part in
            Ok (JInt (if String.eqb sign "-" then - n else n), s4)
      | _, _ => Ok (JFloat (sign ++ int_part ++ frac ++ expo), s4)
      end
  end.

(** [s] without the prefix [p], when it starts with it. *)
Fixpoint strip_prefix (p s : string) : option string :=
  match p, s with
  | EmptyString, _ => Some s
  | String a p', String b s' => if Ascii.eqb a b then strip_prefix p' s' else None
  | String _ _, EmptyString => None
  end.

(** [PyDict_SetItem] on the members decoded so far. *)
Fixpoint object_set (d : list (list N * json)) (k : list N) (v : json)
  : list (list N * json) :=
  match d with
  | [] => [(k, v)]
  | (k', v') :: d' =>
      if list_eq_dec N.eq_dec k' k then (k', v) :: d'
      else (k', v') :: object_set d' k v
  end.

Definition constant (lit : string) (v : json) (s : string)
  (otherwise : result (json * string)) : result (json * string) :=
  match strip_prefix lit s with
  | Some r => Ok (v, r)
  | None => otherwise
  end.

(** [scan_once] with the loops of the array and object parsers.

    [depth] is the number of arrays and objects, one inside the other,
    that the interpreter still lets the scanner enter: the scanner goes
    through [Py_EnterRecursiveCall] before it reads an array or an object,
    and that raises [RecursionError] once the stack has reached
    [sys.getrecursionlimit()].  How much is left depends on how deep the
    caller is, so it is an argument.

    [fuel] only makes the recursion structural: every call spends one
    unit, and [json_loads] supplies more than any text can use
    ([scan_fuel] below: more fuel changes nothing; and
    [json_loads_within_depth]: [RecursionError] is never for want of
    fuel). *)
Fixpoint scan_once (fuel : nat) (depth : nat) (s : string) {struct fuel}
  : result (json * string) :=
  match fuel with
  | O => Raise RecursionError
  | S fuel' =>
      match s with
      | EmptyString => Raise JSONDecodeError
      | String c s' =>
          let n := ord c in
          if (n =? 34)%N then
            do (str, r) <- scanstring s'; Ok (JString str, r)
          else if (n =? 123)%N then
            match depth with
            | O => Raise RecursionError
            | S depth' =>
                match skip_ws s' with
                | String "}" r => Ok (JObject [], r)
                | s1 => do (ms, r) <- object_loop fuel' depth' s1;
                        Ok (JObject (fold_left (fun d kv => object_set d (fst kv) (snd kv)) ms []), r)
                end
            end
          else if (n =? 91)%N then
            match depth with
            | O => Raise RecursionError
            | S depth' =>
                match skip_ws s' with
                | String "]" r => Ok (JArray [], r)
                | s1 => do (vs, r) <- array_loop fuel' depth' s1; Ok (JArray vs, r)
                end
            end
          else if (n =? 110)%N then constant "null" JNull s (match_number s)
          else if (n =? 116)%N then constant "true" (JBool true) s (match_number s)
          else if (n =? 102)%N then constant "false" (JBool false) s (match_number s)
          else if (n =? 78)%N then constant "NaN" (JFloat "NaN") s (match_number s)
          else if (n =? 73)%N then constant "Infinity" (JFloat "Infinity") s (match_number s)
          else if (n =? 45)%N then constant "-Infinity" (JFloat "-Infinity") s (match_number s)
          else match_number s
      end
  end

with array_loop (fuel : nat) (depth : nat) (s : string) {struct fuel}
  : result (list json * string) :=
  match fuel with
  | O => Raise RecursionError
  | S fuel' =>
      do (v, r) <- scan_once fuel' depth s;
      match skip_ws r with
      | String "]" r' => Ok ([v], r')
      | String "," r' =>
          do (vs, r'') <- array_loop fuel' depth (skip_ws r'); Ok (v :: vs, r'')
      | _ => Raise JSONDecodeError
      end
  end

with object_loop (fuel : nat) (depth : nat) (s : string) {struct fuel}
  : result (list (list N * json) * string) :=
  match fuel with
  | O => Raise RecursionError
  | S fuel' =>
      match s with
      | String q s' =>
          if negb (ord q =? 34)%N then Raise JSONDecodeError
          else
            do (k, r) <- scanstring s';
            match skip_ws r with
            | String ":" r1 =>
                do (v, r2) <- scan_once fuel' depth (skip_ws r1);
                match skip_ws r2 with
                | String "}" r3 => Ok ([(k, v)], r3)
                | String "," r3 =>
                    do (ms, r4) <- object_loop fuel' depth (skip_ws r3);
                    Ok ((k, v) :: ms, r4)
                | _ => Raise JSONDecodeError
                end
            | _ => Raise JSONDecodeError
            end
      | EmptyString => Raise JSONDecodeError
      end
  end.

(** [json.loads(s)], called where the interpreter allows [depth] more
    nested calls: one value between optional whitespace, nothing else. *)
Definition json_loads (depth : nat) (s : string) : result json :=
  do (v, r) <- scan_once (2 * String.length s + 2) depth (skip_ws s);
  match skip_ws r with
  | EmptyString => Ok v
  | String _ _ => Raise JSONDecodeError
  end.

(** ** Error repository *)

(** A key of the [error_data] dictionary: not there, bound to [None], or
    bound to a value. *)
Inductive entry (A : Type) : Type :=
| Absent
| PyNone
| Value (a : A).

Arguments Absent {A}.
Arguments PyNone {A}.
Arguments Value {A} a.

(** [d.get(key)]. *)
Definition get {A : Type} (e : entry A) : option A :=
  match e with
  | Value a => Some a
  | Absent | PyNone => None
  end.

(** [d.get(key, default)]. *)
Definition get_default {A : Type} (e : entry A) (default : A) : option A :=
  match e with
  | Value a => Some a
  | PyNone => None
  | Absent => Some default
  end.

(** [d[key]]. *)
Definition getitem {A : Type} (key : string) (e : entry A) : result (option A) :=
  match e with
  | Value a => Ok (Some a)
  | PyNone => Ok None
  | Absent => Raise (KeyError key)
  end.

Record error_data : Type := mk_error_data {
  ed_error_name : entry string;
  ed_description : entry string;
  ed_error_type : entry string;
  ed_traceback : entry string;
  ed_fix : entry string;
  ed_complexity : entry string;
  ed_status : entry string;
  ed_tags : entry (list string);
  ed_environment_id : entry Z
}.

(** [json.dumps(error_data.get('tags', [])) if error_data.get('tags') else
    None]: only a non-empty list is serialized. *)
Definition tags_str (ed : error_data) : option string :=
  match get (ed_tags ed) with
  | Some (t :: ts) => Some (json_dumps_list (t :: ts))
  | Some [] | None => None
  end.

(** An [int] that [sqlite3] can bind to a parameter: SQLite integers
    have 64 bits, and a Python [int] outside them makes [execute] raise
    [OverflowError] before the statement runs. *)
Definition sqlite_integer (n : Z) : bool := (- 2 ^ 63 <=? n) && (n <? 2 ^ 63).

Definition bindable (x : option Z) : bool :=
  match x with
  | Some n => sqlite_integer n
  | None => true
  end.

(** [INSERT INTO errors (...) VALUES (?, ?, ?, ?, ?, ?, ?, ?, ?)]: the
    parameters are bound first, then the NOT NULL constraint on
    [error_name] is the only one checked (foreign keys are not enforced);
    [id], [created_at] and [updated_at] take their defaults.  A statement
    that raises writes nothing. *)
Definition insert_error (db : database) (name : option string)
  (description error_type traceback fix_ complexity status tags : option string)
  (environment_id : option Z) (now : Z) : result database :=
  if negb (bindable environment_id) then Raise OverflowError
  else
    match name with
    | None => Raise (IntegrityError "NOT NULL constraint failed: errors.error_name")
    | Some n =>
        let rowid := next_rowid (errors_seq db) (map Errors.id (errors db)) in
        let r := Errors.mk rowid n description error_type traceback fix_
                           complexity status tags environment_id now now in
        Ok {| environments := environments db;
              environments_seq := environments_seq db;
              errors := errors db ++ [r];
              errors_seq := rowid |}
    end.

Definition save_error (db : database) (ed : error_data) (now : Z) : result database :=
  let tags := tags_str ed in
  do name <- getitem "error_name" (ed_error_name ed);
  insert_error db name
    (get (ed_description ed))
    (get (ed_error_type ed))
    (get (ed_traceback ed))
    (get (ed_fix ed))
    (get (ed_complexity ed))
    (get_default (ed_status ed) "Open")
    tags
    (get (ed_environment_id ed))
    now.

(** *** Query results *)

(** The eleven columns of [errors] both listing queries select; [T] is
    the type of the [tags] cell, text as stored or the decoded value. *)
Record error_view (T : Type) : Type := mk_error_view {
  v_id : Z;
  v_error_name : string;
  v_description : option string;
  v_error_type : option string;
  v_traceback : option string;
  v_fix : option string;
  v_complexity : option string;
  v_status : option string;
  v_tags : T;
  v_created_at : Z;
  v_updated_at : Z
}.

Arguments mk_error_view {T}.
Arguments v_id {T}.
Arguments v_error_name {T}.
Arguments v_description {T}.
Arguments v_error_type {T}.
Arguments v_traceback {T}.
Arguments v_fix {T}.
Arguments v_complexity {T}.
Arguments v_status {T}.
Arguments v_tags {T}.
Arguments v_created_at {T}.
Arguments v_updated_at {T}.

(** A row of [get_all_errors]: the same columns followed by
    [env.python_version] and [env.platform]. *)
Record joined_view (T : Type) : Type := mk_joined_view {
  jv_error : error_view T;
  jv_python_version : option string;
  jv_platform : option string
}.

Arguments mk_joined_view {T}.
Arguments jv_error {T}.
Arguments jv_python_version {T}.
Arguments jv_platform {T}.

(** The select list over one row of [errors]. *)
Definition select_error (e : Errors.row) : error_view (option string) :=
  mk_error_view (Errors.id e) (Errors.error_name e) (Errors.description e)
    (Errors.error_type e) (Errors.traceback e) (Errors.fix_ e)
    (Errors.complexity e) (Errors.status e) (Errors.tags e)
    (Errors.created_at e) (Errors.updated_at e).

(** [FROM errors e LEFT JOIN environments env ON e.environment_id =
    env.id]: every error once per matching environment, and once with no
    environment when none matches. *)
Definition left_join (envs : list Environments.row) (e : Errors.row)
  : list (Errors.row * option Environments.row) :=
  match filter (fun env => sql_int_eq (Errors.environment_id e) (Environments.id env)) envs with
  | [] => [(e, None)]
  | ms => map (fun env => (e, Some env)) ms
  end.

(** [ORDER BY key DESC]: rows with equal keys stay in the order the scan
    produced them, as SQLite's sorter leaves them. *)
Fixpoint insert_desc {A : Type} (key : A -> Z) (x : A) (l : list A) : list A :=
  match l with
  | [] => [x]
  | y :: l' => if key x <? key y then y :: insert_desc key x l' else x :: l
  end.

Fixpoint order_by_desc {A : Type} (key : A -> Z) (l : list A) : list A :=
  match l with
  | [] => []
  | x :: l' => insert_desc key x (order_by_desc key l')
  end.

Definition select_joined (p : Errors.row * option Environments.row)
  : joined_view (option string) :=
  mk_joined_view (select_error (fst p))
    (option_map Environments.python_version (snd p))
    (match snd p with Some env => Environments.platform env | None => None end).

(** The query of [get_all_errors]. *)
Definition query_all_errors (db : database) : list (joined_view (option string)) :=
  map select_joined
    (order_by_desc (fun p => Errors.created_at (fst p))
       (flat_map (left_join (environments db)) (errors db))).

(** The query of [get_errors_by_environment]. *)
Definition query_errors_by_environment (db : database) (env_id : Z)
  : list (error_view (option string)) :=
  map select_error
    (order_by_desc Errors.created_at
       (filter (fun e => sql_int_eq (Errors.environment_id e) env_id) (errors db))).

(** [lambda x: json.loads(x) if x else []]. *)
Definition load_tags (depth : nat) (x : option string) : result json :=
  match x with
  | None | Some EmptyString => Ok (JArray [])
  | Some s => json_loads depth s
  end.

Definition with_tags {T U : Type} (v : error_view T) (t : U) : error_view U :=
  mk_error_view (v_id v) (v_error_name v) (v_description v) (v_error_type v)
    (v_traceback v) (v_fix v) (v_complexity v) (v_status v) t
    (v_created_at v) (v_updated_at v).

Definition decode_view (depth : nat) (v : error_view (option string))
  : result (error_view json) :=
  do t <- load_tags depth (v_tags v); Ok (with_tags v t).

Definition decode_joined (depth : nat) (r : joined_view (option string))
  : result (joined_view json) :=
  do v <- decode_view depth (jv_error r);
  Ok (mk_joined_view v (jv_python_version r) (jv_platform r)).

(** [df['tags'].apply(...)] goes through the rows in order and stops at
    the first that raises; on an empty frame there is nothing to do.
    [depth] is what the interpreter allows [json.loads] where the lambda
    calls it. *)
Definition get_all_errors (depth : nat) (db : database)
  : result (list (joined_view json)) :=
  mapM (decode_joined depth) (query_all_errors db).

(** [pd.read_sql_query(..., params=(env_id,))] binds [env_id] first:
    [sqlite3] raises [OverflowError] for an [int] of more than 64 bits,
    and pandas hands on every exception of [execute] as its
    [DatabaseError]. *)
Definition get_errors_by_environment (depth : nat) (db : database) (env_id : Z)
  : result (list (error_view json)) :=
  if negb (sqlite_integer env_id) then Raise DatabaseError
  else mapM (decode_view depth) (query_errors_by_environment db env_id).

(** [SELECT * FROM environments ORDER BY created_at DESC]. *)
Definition get_all_environments (db : database) : list Environments.row :=
  order_by_desc Environments.created_at (environments db).

(** *** A row of [get_all_errors] as the pandas Series the pages read *)

Inductive cell : Type :=
| CNull
| CInt (n : Z)
| CText (s : string)
| CObject (v : json).

Definition text_cell (x : option string) : cell :=
  match x with
  | Some s => CText s
  | None => CNull
  end.

(** Labels and values, in the order of the select list. *)
Definition series (r : joined_view json) : list (string * cell) :=
  let v := jv_error r in
  [ ("id", CInt (v_id v));
    ("error_name", CText (v_error_name v));
    ("description", text_cell (v_description v));
    ("error_type", text_cell (v_error_type v));
    ("traceback", text_cell (v_traceback v));
    ("fix", text_cell (v_fix v));
    ("complexity", text_cell (v_complexity v));
    ("status", text_cell (v_status v));
    ("tags", CObject (v_tags v));
    ("created_at", CInt (v_created_at v));
    ("updated_at", CInt (v_updated_at v));
    ("python_version", text_cell (jv_python_version r));
    ("platform", text_cell (jv_platform r)) ].

Definition columns (r : joined_view json) : list string := map fst (series r).

(** [row.get(label, default)]. *)
Definition series_get (s : list (string * cell)) (label : string) (default : cell) : cell :=
  match find (fun kv => String.eqb (fst kv) label) s with
  | Some kv => snd kv
  | None => default
  end.

(** What the "View Errors" page prints after "Environment ID:". *)
Definition shown_environment_id (r : joined_view json) : cell :=
  series_get (series r) "environment_id" (CText "N/A").

(** ** The "Log Error" form *)

(** The widget values at submission: text inputs and text areas give a
    [str], the select boxes one of their options. *)
Record error_form : Type := mk_error_form {
  f_error_name : string;
  f_error_type : string;
  f_complexity : string;
  f_status : string;
  f_tags_input : string;
  f_use_current_env : bool;
  f_custom_env_id : option Z;
  f_description : string;
  f_traceback : string;
  f_fix : string
}.

Definition truthy (s : string) : bool :=
  match s with
  | EmptyString => false
  | String _ _ => true
  end.

(** [x if x else None]. *)
Definition or_none (s : string) : entry string :=
  if truthy s then Value s else PyNone.

Definition entry_of_option {A : Type} (o : option A) : entry A :=
  match o with
  | Some a => Value a
  | None => PyNone
  end.

(** [[tag.strip() for tag in tags_input.split(",")] if tags_input else []]. *)
Definition form_tags (tags_input : string) : list string :=
  if truthy tags_input then map strip (split_on "," tags_input) else [].

Definition form_error_data (env_id : Z) (f : error_form) : error_data :=
  {| ed_error_name := Value (f_error_name f);
     ed_description := Value (f_description f);
     ed_error_type := or_none (f_error_type f);
     ed_traceback := or_none (f_traceback f);
     ed_fix := or_none (f_fix f);
     ed_complexity := Value (f_complexity f);
     ed_status := Value (f_status f);
     ed_tags := Value (form_tags (f_tags_input f));
     ed_environment_id :=
       if f_use_current_env f then Value env_id
       else entry_of_option (f_custom_env_id f) |}.

Inductive submission : Type :=
| RequiredFieldsMissing
| Logged (db : database).

(** The body of [if submitted:], with [env_id] the id the page resolved
    for the current environment. *)
Definition submit_error_form (db : database) (env_id : Z) (f : error_form) (now : Z)
  : result submission :=
  if negb (truthy (f_error_name f)) || negb (truthy (f_description f)) then
    Ok RequiredFieldsMissing
  else
    do db' <- save_error db (form_error_data env_id f) now;
    Ok (Logged db').

(** ** The "Search & Filter" page *)

(** *** [Series.str.contains(pat, case=False, na=False)]

    [regex] is left at its default, so [pat] is compiled by [re] with
    IGNORECASE and searched for.  The model covers the patterns made of
    ordinary characters and dots, and recognises one family of patterns
    that [re] refuses; it says nothing about the others. *)
Inductive atom : Type :=
| Literal (c : ascii)
| AnyChar.

Inductive pattern : Type :=
| Compiled (atoms : list atom)
| Malformed
| Unmodelled.

Fixpoint occurs (c : ascii) (s : string) : bool :=
  match s with
  | EmptyString => false
  | String c' s' => Ascii.eqb c' c || occurs c s'
  end.

(** The characters [re] gives a meaning to. *)
Definition is_special (c : ascii) : bool := occurs c ".^$*+?{}[]\|()".

Fixpoint atoms_of (pat : string) : option (list atom) :=
  match pat with
  | EmptyString => Some []
  | String c pat' =>
      if Ascii.eqb c "." then option_map (cons AnyChar) (atoms_of pat')
      else if is_special c then None
      else option_map (cons (Literal c)) (atoms_of pat')
  end.

(** [re.compile(pat, re.IGNORECASE)].  With no character class and no
    escape, an opening parenthesis starts a group or a comment that only a
    closing parenthesis ends: without one the pattern is an error. *)
Definition re_compile (pat : string) : pattern :=
  match atoms_of pat with
  | Some atoms => Compiled atoms
  | None =>
      if occurs "(" pat && negb (occurs ")" pat)
         && negb (occurs "[" pat) && negb (occurs "\" pat)
      then Malformed
      else Unmodelled
  end.

(** Lower case below code point 256: the letters A-Z and the letters from
    A-grave to Thorn. *)
Definition lower (c : ascii) : ascii :=
  let n := ord c in
  if ((65 <=? n) && (n <=? 90)
      || (192 <=? n) && (n <=? 222) && negb (n =? 215))%N
  then ascii_of_N (n + 32)
  else c.

Definition atom_matches (a : atom) (t : ascii) : bool :=
  match a with
  | Literal c => Ascii.eqb (lower t) (lower c)
  | AnyChar => negb (ord t =? 10)%N
  end.

(** [re.match]: the atoms against the head of the text. *)
Fixpoint match_here (atoms : list atom) (text : string) : bool :=
  match atoms, text with
  | [], _ => true
  | a :: atoms', String t text' => atom_matches a t && match_here atoms' text'
  | _ :: _, EmptyString => false
  end.

(** [re.search(...) is not None]. *)
Fixpoint re_search (atoms : list atom) (text : string) : bool :=
  match_here atoms text
  || match text with
     | String _ text' => re_search atoms text'
     | EmptyString => false
     end.

(** One cell under [na=False]. *)
Definition contains (atoms : list atom) (x : option string) : bool :=
  match x with
  | Some text => re_search atoms text
  | None => false
  end.

(** *** The mask *)

Record filters : Type := mk_filters {
  search_term : string;
  filter_status : list (option string);
  filter_complexity : list (option string)
}.

Definition option_string_eqb (x y : option string) : bool :=
  match x, y with
  | Some a, Some b => String.eqb a b
  | None, None => true
  | _, _ => false
  end.

(** [Series.isin(values)] on one cell. *)
Definition isin (x : option string) (values : list (option string)) : bool :=
  existsb (option_string_eqb x) values.

Definition is_empty {A : Type} (l : list A) : bool :=
  match l with
  | [] => true
  | _ :: _ => false
  end.

(** The three steps after [filtered_df = errors_df.copy()]: each is
    skipped when its widget is empty.  [None] when the search term is a
    pattern the model of [re] does not cover. *)
Definition apply_filters (errors_df : list (joined_view json)) (w : filters)
  : option (result (list (joined_view json))) :=
  let searched :=
    if truthy (search_term w) then
      match re_compile (search_term w) with
      | Compiled atoms =>
          Some (Ok (filter (fun r =>
                      contains atoms (Some (v_error_name (jv_error r)))
                      || contains atoms (v_description (jv_error r)))
                    errors_df))
      | Malformed => Some (Raise ReError)
      | Unmodelled => None
      end
    else Some (Ok errors_df) in
  match searched with
  | Some (Ok df1) =>
      let df2 :=
        if is_empty (filter_status w) then df1
        else filter (fun r => isin (v_status (jv_error r)) (filter_status w)) df1 in
      let df3 :=
        if is_empty (filter_complexity w) then df2
        else filter (fun r => isin (v_complexity (jv_error r)) (filter_complexity w)) df2 in
      Some (Ok df3)
  | other => other
  end.

(** ** The states the application reaches *)

Inductive operation : Type :=
| OpInitDb
| OpGetOrCreateEnvironment (e : env_info) (now : Z)
| OpSaveError (ed : error_data) (now : Z)
| OpSubmitErrorForm (env_id : Z) (f : error_form) (now : Z)
| OpGetAllErrors
| OpGetAllEnvironments
| OpGetErrorsByEnvironment (env_id : Z).

(** The database an operation leaves; an operation that raises has
    written nothing, and the three queries never write. *)
Definition run (db : database) (op : operation) : database :=
  match op with
  | OpInitDb => init_db (Some db)
  | OpGetAllErrors | OpGetAllEnvironments | OpGetErrorsByEnvironment _ => db
  | OpGetOrCreateEnvironment e now =>
      match get_or_create_environment db e now with
      | Ok (_, db') => db'
      | Raise _ => db
      end
  | OpSaveError ed now =>
      match save_error db ed now with
      | Ok db' => db'
      | Raise _ => db
      end
  | OpSubmitErrorForm env_id f now =>
      match submit_error_form db env_id f now with
      | Ok (Logged db') => db'
      | Ok RequiredFieldsMissing | Raise _ => db
      end
  end.

(** From the fresh file [init_db] sets up, through any sequence of
    operations. *)
Inductive reachable : database -> Prop :=
| reachable_init : reachable (init_db None)
| reachable_run : forall db op, reachable db -> reachable (run db op).

(** UNIQUE(python_version, modules) in its strong reading: no two rows of
    [environments] agree on both columns (SQLite itself lets rows repeat
    when one of the two is NULL). *)
Definition environment_key (r : Environments.row) : string * option string :=
  (Environments.python_version r, Environments.modules r).

Definition unique_environments (db : database) : Prop :=
  NoDup (map environment_key (environments db)).

(** PRIMARY KEY on both tables. *)
Definition primary_keys (db : database) : Prop :=
  NoDup (map Environments.id (environments db))
  /\ NoDup (map Errors.id (errors db)).

(** Every stored [tags] cell is read by the listings without an error. *)
Definition tags_decode (depth : nat) (db : database) : Prop :=
  forall e, In e (errors db) -> exists t, load_tags depth (Errors.tags e) = Ok t.

(** ** Notions the statements use *)

(** The environment id stored for the error with the given id. *)
Definition environment_of (db : database) (error_id : Z) : option Z :=
  match find (fun e => Errors.id e =? error_id) (errors db) with
  | Some e => Errors.environment_id e
  | None => None
  end.

(** The environment row an error's foreign key leads to. *)
Definition joined_environment (db : database) (environment_id : option Z)
  : option Environments.row :=
  find (fun env => sql_int_eq environment_id (Environments.id env)) (environments db).

(** The [(python_version, platform)] pairs the join attaches to an error
    whose foreign key is [environment_id]. *)
Definition joined_columns (db : database) (environment_id : option Z)
  : list (string * option string) :=
  map (fun env => (Environments.python_version env, Environments.platform env))
    (filter (fun env => sql_int_eq environment_id (Environments.id env)) (environments db)).

(** The error a row of the listing shows is stored with the environment
    id [env_id]. *)
Definition stored_in_environment (db : database) (env_id : Z) (r : joined_view json)
  : bool :=
  match environment_of db (v_id (jv_error r)) with
  | Some n => Z.eqb n env_id
  | None => false
  end.

Definition set_environment_id (e : Errors.row) (x : option Z) : Errors.row :=
  Errors.mk (Errors.id e) (Errors.error_name e) (Errors.description e)
    (Errors.error_type e) (Errors.traceback e) (Errors.fix_ e)
    (Errors.complexity e) (Errors.status e) (Errors.tags e) x
    (Errors.created_at e) (Errors.updated_at e).

Definition with_errors (db : database) (l : list Errors.row) : database :=
  {| environments := environments db;
     environments_seq := environments_seq db;
     errors := l;
     errors_seq := errors_seq db |}.

(** The tags a dictionary supplies, none when the key is absent or [None]. *)
Definition supplied_tags (ed : error_data) : list string :=
  match get (ed_tags ed) with
  | Some l => l
  | None => []
  end.

(** The row [get_all_errors] is expected to show for a record saved from
    [ed] under the name [name] at time [now]. *)
Definition saved_view (db : database) (ed : error_data) (name : string) (now : Z)
  : joined_view json :=
  let env := joined_environment db (get (ed_environment_id ed)) in
  mk_joined_view
    (mk_error_view
       (next_rowid (errors_seq db) (map Errors.id (errors db)))
       name
       (get (ed_description ed))
       (get (ed_error_type ed))
       (get (ed_traceback ed))
       (get (ed_fix ed))
       (get (ed_complexity ed))
       (match ed_status ed with
        | Absent => Some "Open"
        | PyNone => None
        | Value status => Some status
        end)
       (json_of_strings (supplied_tags ed))
       now now)
    (option_map Environments.python_version env)
    (match env with Some r => Environments.platform r | None => None end).

(** Case-insensitive substring, the reading of the search box the
    specification gives: [term.lower() in text.lower()]. *)
Fixpoint prefix_icase (term text : string) : bool :=
  match term, text with
  | EmptyString, _ => true
  | String a term', String b text' =>
      Ascii.eqb (lower b) (lower a) && prefix_icase term' text'
  | String _ _, EmptyString => false
  end.

Fixpoint substring_icase (term text : string) : bool :=
  prefix_icase term text
  || match text with
     | String _ text' => substring_icase term text'
     | EmptyString => false
     end.

Definition term_in_name_or_description (term : string) (r : joined_view json) : bool :=
  substring_icase term (v_error_name (jv_error r))
  || match v_description (jv_error r) with
     | Some d => substring_icase term d
     | None => false
     end.

(** A search term with none of the characters [re] gives a meaning to. *)
Fixpoint is_plain (term : string) : bool :=
  match term with
  | EmptyString => true
  | String c term' => negb (is_special c) && is_plain term'
  end.

(** The mask as the specification words it: the term is in the name or
    the description, and each multiselect is empty or holds the cell. *)
Definition keeps (w : filters) (r : joined_view json) : bool :=
  term_in_name_or_description (search_term w) r
  && (is_empty (filter_status w) || isin (v_status (jv_error r)) (filter_status w))
  && (is_empty (filter_complexity w)
      || isin (v_complexity (jv_error r)) (filter_complexity w)).

(** A parser result that, when a value, leaves less text than [s]. *)
Definition shorter {A : Type} (m : result (A * string)) (s : string) : Prop :=
  forall a r, m = Ok (a, r) -> (String.length r < String.length s)%nat.

(** The exceptions of [json.loads]: text that is not JSON, arrays and
    objects nested deeper than the interpreter allows, an integer of more
    than 4300 digits. *)
Definition decoder_error (e : exn) : Prop :=
  e = JSONDecodeError \/ e = RecursionError \/ e = ValueError.

(** A result that, when an exception, is one of the decoder. *)
Definition decode_error_only {A : Type} (m : result A) : Prop :=
  forall e, m = Raise e -> decoder_error e.

(** ** Sample data *)

Definition sample_env_info : env_info := mk_env_info "3.11.4" "Linux-6.1-x86_64" "{}".

Definition sample_error_data : error_data :=
  {| ed_error_name := Value "KeyError: 'x'";
     ed_description := Value "missing key in dict";
     ed_error_type := Absent;
     ed_traceback := Absent;
     ed_fix := Absent;
     ed_complexity := Value "Medium";
     ed_status := Value "Open";
     ed_tags := Value ["dict"; "lookup"];
     ed_environment_id := Value 1 |}.

(** A dictionary with an empty name and no description. *)
Definition blank_error_data : error_data :=
  {| ed_error_name := Value "";
     ed_description := Absent;
     ed_error_type := Absent;
     ed_traceback := Absent;
     ed_fix := Absent;
     ed_complexity := Absent;
     ed_status := Absent;
     ed_tags := Absent;
     ed_environment_id := Absent |}.

Definition blank_form : error_form :=
  mk_error_form "" "" "Low" "Open" "" true None "" "" "".

(** One environment and one error logged in it at time 100. *)
Definition sample_database : database :=
  run (run (init_db None) (OpGetOrCreateEnvironment sample_env_info 50))
      (OpSaveError sample_error_data 100).

(** [sample_database] with a second error whose [tags] cell is not JSON. *)
Definition database_with_malformed_tags : database :=
  with_errors sample_database
    (errors sample_database
     ++ [Errors.mk 2 "TypeError" (Some "bad operand") None None None
           (Some "Low") (Some "Open") (Some "[dict") (Some 1) 200 200]).

(** Two environments that differ in their modules only. *)
Definition two_environments : database :=
  run (run (run (init_db None)
             (OpGetOrCreateEnvironment (mk_env_info "3.11.4" "Linux" "{}") 10))
        (OpGetOrCreateEnvironment
           (mk_env_info "3.11.4" "Linux" (json_dumps_sort_keys [("pandas", "2.0.1")])) 20))
      (OpSaveError sample_error_data 100).

Definition abc_view : joined_view json :=
  mk_joined_view
    (mk_error_view 1 "abc" (Some "x") None None None (Some "Low") (Some "Open")
       (JArray []) 100 100)
    None None.

(** A depth for the examples: the default limit of 1000 less a stack of
    100 frames. *)
Definition sample_depth : nat := 900.

(** The frame [get_all_errors] returns on a database, empty if it raises. *)
Definition frame_of (db : database) : list (joined_view json) :=
  match get_all_errors sample_depth db with
  | Ok rows => rows
  | Raise _ => []
  end.

(** Newest first: no row is followed by a row created later. *)
Definition newest_first {A : Type} (key : A -> Z) (l : list A) : Prop :=
  StronglySorted (fun a b => key b <= key a) l.

(** The row [save_error] writes for [sample_error_data] at time 100 in a
    table that was empty. *)
Definition sample_error_row : Errors.row :=
  Errors.mk 1 "KeyError: 'x'" (Some "missing key in dict") None None None
    (Some "Medium") (Some "Open") (Some (json_dumps_list ["dict"; "lookup"]))
    (Some 1) 100 100.

(** A second record, saved in the second in which [sample_database] got
    its first. *)
Definition other_error_data : error_data :=
  {| ed_error_name := Value "TypeError: bad operand";
     ed_description := Value "int plus str";
     ed_error_type := Absent;
     ed_traceback := Absent;
     ed_fix := Absent;
     ed_complexity := Value "Low";
     ed_status := Value "Open";
     ed_tags := Value [];
     ed_environment_id := Value 1 |}.

(** [sample_database] after [other_error_data] is saved at time 100. *)
Definition saved_in_the_same_second : database :=
  run sample_database (OpSaveError other_error_data 100).

(** ** The "Log Error" form: choosing another environment

    With "Link to current environment" unticked the page offers one
    option per row of [get_all_environments] and reads the id back out of
    the option the user picked. *)

(** [str(n)] for an [int]: decimal, a minus sign for a negative one. *)
Definition digit_char (d : N) : ascii := ascii_of_N (48 + d).

Fixpoint digits_of (fuel : nat) (n : N) (acc : string) : string :=
  match fuel with
  | O => acc
  | S fuel' =>
      let acc' := String (digit_char (n mod 10)) acc in
      if (n <? 10)%N then acc' else digits_of fuel' (n / 10) acc'
  end.

Definition str_of_N (n : N) : string := digits_of (S (N.size_nat n)) n EmptyString.

Definition str_of_int (z : Z) : string :=
  match z with
  | Z0 => "0"
  | Zpos p => str_of_N (Npos p)
  | Zneg p => String "-" (str_of_N (Npos p))
  end.

(** [f"ID {row['id']}: Python {row['python_version']}"]. *)
Definition env_option (r : Environments.row) : string :=
  "ID " ++ str_of_int (Environments.id r) ++ ": Python " ++ Environments.python_version r.

(** [s.replace(old, new)]: the occurrences of [old] from left to right,
    none overlapping another; an empty [old] is found before every
    character and at the end. *)
Fixpoint replace_from (fuel : nat) (old new s : string) : string :=
  match fuel with
  | O => s
  | S fuel' =>
      match strip_prefix old s with
      | Some r => new ++ replace_from fuel' old new r
      | None =>
          match s with
          | String c s' => String c (replace_from fuel' old new s')
          | EmptyString => EmptyString
          end
      end
  end.

Fixpoint intersperse (new s : string) : string :=
  match s with
  | EmptyString => new
  | String c s' => new ++ String c (intersperse new s')
  end.

Definition str_replace (old new s : string) : string :=
  match old with
  | EmptyString => intersperse new s
  | String _ _ => replace_from (S (String.length s)) old new s
  end.

(** The whitespace [int] skips around a number: TAB..CR and the space,
    NEL and the no-break space (the separators FS..US are not skipped). *)
Definition int_space (c : ascii) : bool :=
  let n := ord c in
  ((9 <=? n) && (n <=? 13) || (n =? 32) || (n =? 133) || (n =? 160))%N.

Fixpoint int_lstrip (s : string) : string :=
  match s with
  | String c s' => if int_space c then int_lstrip s' else s
  | EmptyString => EmptyString
  end.

Fixpoint int_rstrip (s : string) : string :=
  match s with
  | String c s' =>
      match int_rstrip s' with
      | EmptyString => if int_space c then EmptyString else String c EmptyString
      | t => String c t
      end
  | EmptyString => EmptyString
  end.

(** The digits of a literal whose digits may be set apart by single
    underscores; [after_digit] tells whether the previous character was a
    digit. *)
Fixpoint digit_groups (s : string) (after_digit : bool) : option string :=
  match s with
  | EmptyString => if after_digit then Some EmptyString else None
  | String c s' =>
      if is_digit c then option_map (String c) (digit_groups s' true)
      else if Ascii.eqb c "_" && after_digit then digit_groups s' false
      else None
  end.

(** [int(s)] for a [str], [None] where it raises [ValueError]: optional
    whitespace, an optional sign, decimal digits; more than 4300 digits
    are refused. *)
Definition py_int (s : string) : option Z :=
  let t := int_rstrip (int_lstrip s) in
  let '(negative, body) :=
    match t with
    | String "-" r => (true, r)
    | String "+" r => (false, r)
    | _ => (false, t)
    end in
  match digit_groups body false with
  | Some ds =>
      if (4300 <? String.length ds)%nat then None
      else Some (if negative then - int_of_digits ds else int_of_digits ds)
  | None => None
  end.

(** [int(selected_env.split(":")[0].replace("ID ", ""))]. *)
Definition parse_env_option (selected_env : string) : option Z :=
  py_int (str_replace "ID " "" (hd EmptyString (split_on ":" selected_env))).

(** [custom_env_id] after the block of the checkbox: [None] while the box
    is ticked or no environment is registered, else the id read from the
    option at position [choice] of the select box. *)
Definition custom_env_id (db : database) (use_current_env : bool) (choice : nat)
  : option Z :=
  if use_current_env then None
  else
    match nth_error (map env_option (get_all_environments db)) choice with
    | Some selected_env => parse_env_option selected_env
    | None => None
    end.

(** ** The "View Errors" page: the four counters *)

Record summary : Type := mk_summary {
  total_errors : nat;
  open_errors : nat;
  resolved_errors : nat;
  critical_errors : nat
}.

(** [errors_df['status'] == value] on one row; a NULL cell equals no
    string. *)
Definition status_is (value : string) (r : joined_view json) : bool :=
  option_string_eqb (v_status (jv_error r)) (Some value).

Definition complexity_is (value : string) (r : joined_view json) : bool :=
  option_string_eqb (v_complexity (jv_error r)) (Some value).

(** [None] when the frame is empty and the page only says so. *)
Definition view_errors_summary (errors_df : list (joined_view json)) : option summary :=
  if is_empty errors_df then None
  else Some {| total_errors := List.length errors_df;
               open_errors := List.length (filter (status_is "Open") errors_df);
               resolved_errors := List.length (filter (status_is "Resolved") errors_df);
               critical_errors := List.length (filter (complexity_is "Critical") errors_df) |}.

(** ** The "Environments" page *)

(** [json.loads(row['modules'])] under [if row['modules']:]; the page
    calls it itself, at [page_depth]. *)
Definition shown_modules (page_depth : nat) (r : Environments.row)
  : result (option json) :=
  match Environments.modules r with
  | None | Some EmptyString => Ok None
  | Some s => do v <- json_loads page_depth s; Ok (Some v)
  end.

(** One expander: the row, its decoded modules and the errors
    [get_errors_by_environment] returns for its id. *)
Definition environment_panel (page_depth depth : nat) (db : database)
  (r : Environments.row)
  : result (Environments.row * option json * list (error_view json)) :=
  do m <- shown_modules page_depth r;
  do env_errors <- get_errors_by_environment depth db (Environments.id r);
  Ok (r, m, env_errors).

(** The loop over [envs_df.iterrows()]: the first panel that raises ends
    the page. *)
Definition environments_page (page_depth depth : nat) (db : database)
  : result (list (Environments.row * option json * list (error_view json))) :=
  mapM (environment_panel page_depth depth db) (get_all_environments db).

(** ** More notions for the statements *)

(** A dictionary of [str] as [json.loads] returns it. *)
Definition json_of_items (items : list (string * string)) : json :=
  JObject (map (fun kv => (codepoints (fst kv), JString (codepoints (snd kv)))) items).

(** The ids 1, 2, ..., n. *)
Definition ids_from_one (n : nat) : list Z := map Z.of_nat (seq 1 n).

(** [s] has no whitespace. *)
Fixpoint no_space (s : string) : bool :=
  match s with
  | EmptyString => true
  | String c s' => negb (isspace c) && no_space s'
  end.

(** [s] is whitespace only. *)
Fixpoint all_space (s : string) : bool :=
  match s with
  | EmptyString => true
  | String c s' => isspace c && all_space s'
  end.

(** The last character of [s], if any, is not whitespace. *)
Fixpoint ends_clean (s : string) : bool :=
  match s with
  | EmptyString => true
  | String c EmptyString => negb (isspace c)
  | String _ s' => ends_clean s'
  end.

(** The first and the last character of [s], if any, are not whitespace. *)
Definition trimmed (s : string) : bool :=
  match s with
  | EmptyString => true
  | String c _ => negb (isspace c)
  end
  && ends_clean s.

(** How often [c] is in [s]. *)
Fixpoint count_char (c : ascii) (s : string) : nat :=
  match s with
  | EmptyString => O
  | String c' s' => (if Ascii.eqb c' c then 1 else 0) + count_char c s'
  end.

(** The stored rows of [errors] that carry the status, the complexity. *)
Definition stored_with_status (db : database) (value : string) : list Errors.row :=
  filter (fun e => option_string_eqb (Errors.status e) (Some value)) (errors db).

Definition stored_with_complexity (db : database) (value : string) : list Errors.row :=
  filter (fun e => option_string_eqb (Errors.complexity e) (Some value)) (errors db).

(** The errors whose foreign key names a row of [environments]. *)
Definition linked_errors (db : database) : list Errors.row :=
  filter (fun e => existsb (fun env => sql_int_eq (Errors.environment_id e) (Environments.id env))
                     (environments db))
    (errors db).

(** Two terms that differ in the case of their letters only. *)
Definition same_up_to_case (a b : string) : Prop :=
  map lower (list_ascii_of_string a) = map lower (list_ascii_of_string b).

(** ** One run of the "Log Error" page

    Streamlit runs the script of the page from the top on every
    interaction: the current environment is looked up or registered at
    [t_env], and when the form was submitted, its body runs at [t_save]. *)
Definition log_error_page (db : database) (p : process)
  (submitted : option error_form) (t_env t_save : Z) : result database :=
  do current_env <- get_current_environment p;
  do (env_id, db1) <- get_or_create_environment db current_env t_env;
  match submitted with
  | None => Ok db1
  | Some f =>
      do s <- submit_error_form db1 env_id f t_save;
      Ok (match s with
          | Logged db2 => db2
          | RequiredFieldsMissing => db1
          end)
  end.

(** A filled-in form and a process for the examples. *)
Definition sample_form : error_form :=
  mk_error_form "ValueError: bad literal" "ValueError" "High" "Open" " db , api"
    true None "int() got text" "" "cast first".

Definition sample_process : process :=
  mk_process "3.11.4 (main, Jun  7 2023) [GCC 12.2.0]" "Linux-6.1-x86_64"
    (Some [mk_distribution "pandas" "2.0.1"; mk_distribution "streamlit" "1.28.0"]).

(** * Properties *)

Local Open Scope list_scope.

(** ** Generic facts on lists and on [result] *)

Section ListFacts.
Context {A : Type}.

Lemma find_none_existsb (f : A -> bool) (l : list A) :
  find f l = None -> existsb f l = false.
Proof.
  induction l as [|x l IH]; simpl; [reflexivity|].
  destruct (f x); [discriminate | exact IH].
Qed.

Lemma find_none_filter (f : A -> bool) (l : list A) :
  find f l = None -> filter f l = [].
Proof.
  induction l as [|x l IH]; simpl; [reflexivity|].
  destruct (f x); [discriminate | exact IH].
Qed.

Lemma find_app_fresh (f : A -> bool) (l : list A) (x : A) :
  find f l = None -> f x = true -> find f (l ++ [x]) = Some x.
Proof.
  induction l as [|y l IH]; simpl; intros Hn Hx.
  - now rewrite Hx.
  - destruct (f y); [discriminate | now apply IH].
Qed.

Lemma NoDup_snoc (l : list A) (x : A) :
  NoDup l -> ~ In x l -> NoDup (l ++ [x]).
Proof.
  intros Hl Hx. apply NoDup_app; [exact Hl | repeat constructor; intros [] | ].
  intros y Hy [<- | []]. now apply Hx.
Qed.
End ListFacts.

(** ** The environment registry *)

Section Registry.
Variables (db : database) (v m : string).

Lemma env_matches_key (r : Environments.row) :
  env_matches v m r = true <-> environment_key r = (v, Some m).
Proof.
  unfold env_matches, environment_key, sql_text_eq.
  destruct r as [i pv pf [md|] t]; simpl.
  - rewrite andb_true_iff, !String.eqb_eq. split.
    + now intros [-> ->].
    + intros [= -> ->]. now split.
  - rewrite andb_false_r. split; [discriminate | intros [=]].
Qed.

Lemma env_matches_inserted (i : Z) (p : string) (now : Z) :
  env_matches v m (Environments.mk i v (Some p) (Some m) now) = true.
Proof. apply env_matches_key. reflexivity. Qed.

(** Nothing matching is stored: the INSERT passes the UNIQUE constraint
    and appends one row carrying the platform it was given. *)
Lemma get_or_create_fresh (p : string) (now : Z) :
  find (env_matches v m) (environments db) = None ->
  let i := next_rowid (environments_seq db) (map Environments.id (environments db)) in
  let r := Environments.mk i v (Some p) (Some m) now in
  get_or_create_environment db (mk_env_info v p m) now
  = Ok (i, {| environments := environments db ++ [r];
              environments_seq := i;
              errors := errors db;
              errors_seq := errors_seq db |}).
Proof.
  intros Hn. unfold get_or_create_environment, select_environment_id; simpl.
  rewrite Hn; simpl. unfold insert_environment.
  now rewrite (find_none_existsb _ _ Hn).
Qed.

(** A matching row is stored: its id is returned and nothing is written. *)
Lemma get_or_create_found (p : string) (now : Z) (r : Environments.row) :
  find (env_matches v m) (environments db) = Some r ->
  get_or_create_environment db (mk_env_info v p m) now = Ok (Environments.id r, db).
Proof.
  intros Hf. unfold get_or_create_environment, select_environment_id; simpl.
  now rewrite Hf.
Qed.
End Registry.

(** One call, described through the row that answers the lookup
    afterwards: it is either the row that was there or the row just
    appended, and a second lookup with the same key finds it again. *)
Lemma get_or_create_spec (db : database) (v p m : string) (now : Z) :
  exists (r : Environments.row) (db1 : database),
    get_or_create_environment db (mk_env_info v p m) now = Ok (Environments.id r, db1)
    /\ find (env_matches v m) (environments db1) = Some r
    /\ (find (env_matches v m) (environments db) = Some r /\ db1 = db
        \/ find (env_matches v m) (environments db) = None
           /\ r = Environments.mk
                    (next_rowid (environments_seq db) (map Environments.id (environments db)))
                    v (Some p) (Some m) now
           /\ environments db1 = environments db ++ [r]
           /\ errors db1 = errors db
           /\ filter (env_matches v m) (environments db1) = [r]).
Proof.
  destruct (find (env_matches v m) (environments db)) as [r|] eqn:Hf.
  - exists r, db. rewrite (get_or_create_found db v m p now r Hf). auto.
  - pose proof (get_or_create_fresh db v m p now Hf) as H. cbv zeta in H.
    exists (Environments.mk
              (next_rowid (environments_seq db) (map Environments.id (environments db)))
              v (Some p) (Some m) now).
    eexists. split; [exact H|]. simpl.
    split; [apply find_app_fresh; [exact Hf | apply env_matches_inserted] |].
    right. repeat split.
    rewrite filter_app, (find_none_filter _ _ Hf). simpl.
    now rewrite env_matches_inserted.
Qed.

Lemma env_info_eta (e : env_info) :
  e = mk_env_info (ei_python_version e) (ei_platform e) (ei_modules e).
Proof. now destruct e. Qed.

(** C1. Two calls of [get_or_create_environment] whose snapshots agree on
    [python_version] and on the encoded module set both succeed and return
    the same id, and the second call leaves the database exactly as the
    first one left it: no row is inserted. *)
Theorem get_or_create_environment_idempotent :
  forall (db : database) (e1 e2 : env_info) (now1 now2 : Z),
    ei_python_version e1 = ei_python_version e2 ->
    ei_modules e1 = ei_modules e2 ->
    exists (id : Z) (db1 : database),
      get_or_create_environment db e1 now1 = Ok (id, db1)
      /\ get_or_create_environment db1 e2 now2 = Ok (id, db1).
Proof.
  intros db e1 e2 now1 now2 Hv Hm.
  rewrite (env_info_eta e1), (env_info_eta e2), <- Hv, <- Hm.
  destruct (get_or_create_spec db (ei_python_version e1) (ei_platform e1)
              (ei_modules e1) now1) as (r & db1 & H1 & Hf & _).
  exists (Environments.id r), db1. split; [exact H1|].
  now apply get_or_create_found.
Qed.

Lemma get_or_create_environment_idempotent_witness :
  exists (id : Z) (db1 : database),
    get_or_create_environment empty_database
      (mk_env_info "3.11.4" "Linux" "{}") 10 = Ok (id, db1)
    /\ get_or_create_environment db1
         (mk_env_info "3.11.4" "Linux" "{}") 20 = Ok (id, db1).
Proof.
  apply (get_or_create_environment_idempotent empty_database
           (mk_env_info "3.11.4" "Linux" "{}")
           (mk_env_info "3.11.4" "Linux" "{}") 10 20); reflexivity.
Defined.

(** C6. Two snapshots with the same [python_version] and encoded module
    set and different platforms: both calls return the id of one row [r];
    the first call either found [r] (and wrote nothing) or appended it
    with the first platform, after which it is the only row under that
    key; the second call returns the database unchanged, so [r] keeps the
    platform and every other field it had. *)
Theorem first_platform_wins :
  forall (db : database) (v m p1 p2 : string) (now1 now2 : Z),
    exists (r : Environments.row) (db1 : database),
      get_or_create_environment db (mk_env_info v p1 m) now1 = Ok (Environments.id r, db1)
      /\ get_or_create_environment db1 (mk_env_info v p2 m) now2 = Ok (Environments.id r, db1)
      /\ find (env_matches v m) (environments db1) = Some r
      /\ (find (env_matches v m) (environments db) = Some r /\ db1 = db
          \/ find (env_matches v m) (environments db) = None
             /\ Environments.platform r = Some p1
             /\ environments db1 = environments db ++ [r]
             /\ filter (env_matches v m) (environments db1) = [r]).
Proof.
  intros db v m p1 p2 now1 now2.
  destruct (get_or_create_spec db v p1 m now1) as (r & db1 & H1 & Hf & Hcase).
  exists r, db1. split; [exact H1|].
  split; [now apply get_or_create_found|].
  split; [exact Hf|].
  destruct Hcase as [Hold | (Hn & Hr & Happ & _ & Hone)]; [now left | right].
  repeat split; try assumption. now rewrite Hr.
Qed.

(** ** What the operations write *)

(** The row [save_error] writes for a record with the name [name]. *)
Lemma save_error_returns (db : database) (ed : error_data) (name : string) (now : Z) :
  get (ed_error_name ed) = Some name ->
  bindable (get (ed_environment_id ed)) = true ->
  save_error db ed now
  = Ok {| environments := environments db;
          environments_seq := environments_seq db;
          errors := errors db
                    ++ [Errors.mk (next_rowid (errors_seq db) (map Errors.id (errors db)))
                          name (get (ed_description ed)) (get (ed_error_type ed))
                          (get (ed_traceback ed)) (get (ed_fix ed))
                          (get (ed_complexity ed)) (get_default (ed_status ed) "Open")
                          (tags_str ed) (get (ed_environment_id ed)) now now];
          errors_seq := next_rowid (errors_seq db) (map Errors.id (errors db)) |}.
Proof.
  intros Hname Hbind. unfold save_error, insert_error. rewrite Hbind.
  destruct (ed_error_name ed) as [| |n]; try discriminate.
  injection Hname as ->. reflexivity.
Qed.

(** [save_error] returns only for a record with a name and an
    environment id that SQLite can hold. *)
Lemma save_error_inv (db db' : database) (ed : error_data) (now : Z) :
  save_error db ed now = Ok db' ->
  exists name : string,
    get (ed_error_name ed) = Some name
    /\ bindable (get (ed_environment_id ed)) = true.
Proof.
  unfold save_error, insert_error.
  destruct (bindable (get (ed_environment_id ed)));
    destruct (ed_error_name ed) as [| |n]; simpl; try discriminate.
  intros _. now exists n.
Qed.

Lemma save_error_environments (db db' : database) (ed : error_data) (now : Z) :
  save_error db ed now = Ok db' ->
  environments db' = environments db /\ environments_seq db' = environments_seq db.
Proof.
  intros H. destruct (save_error_inv _ _ _ _ H) as (name & Hname & Hbind).
  rewrite (save_error_returns db ed name now Hname Hbind) in H.
  injection H as <-. now split.
Qed.

(** An operation leaves [environments] alone or appends one row whose key
    no stored row had. *)
Lemma run_environments (db : database) (op : operation) :
  environments (run db op) = environments db
  \/ exists r : Environments.row,
       environments (run db op) = environments db ++ [r]
       /\ ~ In (environment_key r) (map environment_key (environments db)).
Proof.
  destruct op as [|e now|ed now|env_id f now| | |env_id]; simpl;
    try (now left).
  - rewrite (env_info_eta e).
    destruct (get_or_create_spec db (ei_python_version e) (ei_platform e)
                (ei_modules e) now) as (r & db1 & -> & _ & Hcase).
    destruct Hcase as [[_ ->] | (Hn & Hr & Happ & _)]; [now left | right].
    exists r. split; [exact Happ|].
    rewrite in_map_iff. intros (r' & Hk & Hin).
    assert (Hm : env_matches (ei_python_version e) (ei_modules e) r' = true).
    { apply env_matches_key. rewrite Hk, Hr. reflexivity. }
    apply find_none_existsb in Hn.
    assert (Hex : existsb (env_matches (ei_python_version e) (ei_modules e))
                    (environments db) = true)
      by (apply existsb_exists; eauto).
    congruence.
  - destruct (save_error db ed now) as [db'|] eqn:Hs; [|now left].
    left. now apply save_error_environments in Hs.
  - unfold submit_error_form.
    destruct (negb (truthy (f_error_name f)) || negb (truthy (f_description f)));
      simpl; [now left|].
    destruct (save_error db (form_error_data env_id f) now) as [db'|] eqn:Hs;
      simpl; [|now left].
    left. now apply save_error_environments in Hs.
Qed.

Lemma run_unique_environments (db : database) (op : operation) :
  unique_environments db -> unique_environments (run db op).
Proof.
  unfold unique_environments. intros Hu.
  destruct (run_environments db op) as [-> | (r & -> & Hfresh)]; [exact Hu|].
  rewrite map_app. simpl. now apply NoDup_snoc.
Qed.

(** C5. In every state reached from a fresh database through the
    operations of the application no two rows of [environments] have the
    same [(python_version, modules)] pair, and every operation preserves
    that property from any database that has it. *)
Theorem environments_stay_unique :
  (forall db : database, reachable db -> unique_environments db)
  /\ (forall (db : database) (op : operation),
        unique_environments db -> unique_environments (run db op)).
Proof.
  split; [|exact run_unique_environments].
  induction 1 as [|db op _ IH].
  - constructor.
  - now apply run_unique_environments.
Qed.

Lemma environments_stay_unique_witness :
  unique_environments
    (run (run (run (init_db None)
                 (OpGetOrCreateEnvironment (mk_env_info "3.11.4" "Linux" "{}") 10))
            (OpGetOrCreateEnvironment (mk_env_info "3.11.4" "macOS" "{}") 20))
       (OpGetOrCreateEnvironment (mk_env_info "3.12.0" "Linux" "{}") 30)).
Proof.
  apply (proj1 environments_stay_unique).
  repeat apply reachable_run. apply reachable_init.
Defined.

(** ** Sorting

    Over a strict total order the sorted list is determined by the
    elements alone, whatever order they came in. *)
Section Sorting.
Context {A : Type}.
Variable ltb : A -> A -> bool.
Hypothesis ltb_irrefl : forall a, ltb a a = false.
Hypothesis ltb_trans : forall a b c, ltb a b = true -> ltb b c = true -> ltb a c = true.
Hypothesis ltb_connected : forall a b, ltb a b = false -> ltb b a = false -> a = b.

Local Abbreviation le := (le_of ltb).

Lemma le_trans (a b c : A) : le a b -> le b c -> le a c.
Proof.
  unfold le_of. intros Hab Hbc.
  destruct (ltb c a) eqn:Hca; [exfalso | reflexivity].
  destruct (ltb a b) eqn:Hab'.
  - rewrite (ltb_trans c a b Hca Hab') in Hbc. discriminate.
  - rewrite (ltb_connected a b Hab' Hab) in Hca. congruence.
Qed.

Lemma lt_le (a b : A) : ltb a b = true -> le a b.
Proof.
  unfold le_of. intros Hab. destruct (ltb b a) eqn:Hba; [|reflexivity].
  rewrite <- (ltb_irrefl a). symmetry. now apply ltb_trans with b.
Qed.

Lemma insert_sorted_perm (a : A) (l : list A) :
  Permutation (a :: l) (insert_sorted ltb a l).
Proof.
  induction l as [|b l IH]; simpl; [reflexivity|].
  destruct (ltb b a); [|reflexivity].
  rewrite perm_swap. now constructor.
Qed.

Lemma sorted_perm (l : list A) : Permutation l (sorted ltb l).
Proof.
  induction l as [|a l IH]; simpl; [reflexivity|].
  rewrite <- insert_sorted_perm. now constructor.
Qed.

Lemma insert_sorted_sorted (a : A) (l : list A) :
  StronglySorted le l -> StronglySorted le (insert_sorted ltb a l).
Proof.
  induction 1 as [|b l Hl IH Hb]; simpl.
  - repeat constructor.
  - destruct (ltb b a) eqn:Hba.
    + constructor; [exact IH|].
      rewrite <- (insert_sorted_perm a l). constructor; [now apply lt_le | exact Hb].
    + constructor; [now constructor|].
      constructor; [exact Hba|].
      rewrite Forall_forall in *. intros x Hx.
      apply le_trans with b; [exact Hba | now apply Hb].
Qed.

Lemma sorted_sorted (l : list A) : StronglySorted le (sorted ltb l).
Proof.
  induction l as [|a l IH]; simpl; [constructor | now apply insert_sorted_sorted].
Qed.

Lemma sorted_unique (l1 l2 : list A) :
  StronglySorted le l1 -> StronglySorted le l2 -> Permutation l1 l2 -> l1 = l2.
Proof.
  intros H1. revert l2.
  induction H1 as [|a l1 Hl1 IH Ha]; intros l2 H2 Hp.
  - now apply Permutation_nil in Hp.
  - destruct H2 as [|b l2 Hl2 Hb].
    + symmetry in Hp. now apply Permutation_nil in Hp.
    + assert (a = b) as <-.
      { rewrite Forall_forall in Ha, Hb.
        assert (Hin_b : In b (a :: l1))
          by (apply Permutation_in with (b :: l2); [now symmetry | now left]).
        assert (Hin_a : In a (b :: l2))
          by (apply Permutation_in with (a :: l1); [exact Hp | now left]).
        destruct Hin_b as [-> | Hin_b]; [reflexivity|].
        destruct Hin_a as [-> | Hin_a]; [reflexivity|].
        apply ltb_connected; [apply (Hb a Hin_a) | apply (Ha b Hin_b)]. }
      f_equal. apply IH; [exact Hl2 | now apply Permutation_cons_inv with a].
Qed.

Lemma sorted_permutation_invariant (l1 l2 : list A) :
  Permutation l1 l2 -> sorted ltb l1 = sorted ltb l2.
Proof.
  intros Hp. apply sorted_unique; try apply sorted_sorted.
  now rewrite <- !sorted_perm.
Qed.
End Sorting.

(** ** The order of [str] and of dictionary items *)

Lemma string_compare_refl (s : string) : String.compare s s = Eq.
Proof.
  pose proof (String.compare_antisym s s) as H.
  destruct (String.compare s s); simpl in H; congruence.
Qed.

Lemma string_compare_lt_trans (a b c : string) :
  String.compare a b = Lt -> String.compare b c = Lt -> String.compare a c = Lt.
Proof.
  revert b c. induction a as [|x a IH]; intros [|y b] [|z c]; simpl;
    try congruence.
  unfold Ascii.compare.
  destruct (N.compare_spec (N_of_ascii x) (N_of_ascii y)) as [Exy|Lxy|Gxy];
    destruct (N.compare_spec (N_of_ascii y) (N_of_ascii z)) as [Eyz|Lyz|Gyz];
    try congruence; intros Hab Hbc.
  - rewrite Exy, Eyz, N.compare_refl. now apply IH with b.
  - rewrite Exy. now apply N.compare_lt_iff in Lyz as ->.
  - rewrite <- Eyz. now apply N.compare_lt_iff in Lxy as ->.
  - assert (H : (N_of_ascii x < N_of_ascii z)%N) by lia.
    now apply N.compare_lt_iff in H as ->.
Qed.

Lemma string_ltb_lt (a b : string) : String.ltb a b = true <-> String.compare a b = Lt.
Proof. unfold String.ltb. destruct (String.compare a b); split; congruence. Qed.

Lemma item_ltb_irrefl (a : string * string) : item_ltb a a = false.
Proof.
  unfold item_ltb, String.ltb. now rewrite !string_compare_refl.
Qed.

Lemma item_ltb_trans (a b c : string * string) :
  item_ltb a b = true -> item_ltb b c = true -> item_ltb a c = true.
Proof.
  destruct a as [k1 v1], b as [k2 v2], c as [k3 v3]. unfold item_ltb; simpl.
  destruct (String.compare k1 k2) eqn:H12; try discriminate;
    destruct (String.compare k2 k3) eqn:H23; try discriminate; intros Hv12 Hv23.
  - apply String.compare_eq_iff in H12, H23. subst.
    rewrite string_compare_refl. apply string_ltb_lt.
    apply string_compare_lt_trans with v2; now apply string_ltb_lt.
  - apply String.compare_eq_iff in H12. subst. now rewrite H23.
  - apply String.compare_eq_iff in H23. subst. now rewrite H12.
  - now rewrite (string_compare_lt_trans k1 k2 k3 H12 H23).
Qed.

Lemma item_ltb_connected (a b : string * string) :
  item_ltb a b = false -> item_ltb b a = false -> a = b.
Proof.
  destruct a as [k1 v1], b as [k2 v2]. unfold item_ltb, String.ltb; simpl.
  rewrite (String.compare_antisym k2 k1), (String.compare_antisym v2 v1).
  destruct (String.compare k1 k2) eqn:Hk; simpl; try discriminate.
  apply String.compare_eq_iff in Hk. subst.
  destruct (String.compare v1 v2) eqn:Hv; simpl; try discriminate.
  apply String.compare_eq_iff in Hv. now subst.
Qed.

(** ** Dictionaries *)

Lemma dict_get_set (d : dict) (k v k' : string) :
  dict_get (dict_set d k v) k' = if String.eqb k k' then Some v else dict_get d k'.
Proof.
  induction d as [|[k0 v0] d IH]; simpl.
  - reflexivity.
  - destruct (String.eqb_spec k0 k) as [->|Hne]; simpl.
    + now destruct (String.eqb k k').
    + rewrite IH. destruct (String.eqb_spec k0 k') as [->|Hne']; [|reflexivity].
      destruct (String.eqb_spec k k') as [->|_]; [now elim Hne | reflexivity].
Qed.

Lemma dict_set_keys (d : dict) (k v : string) :
  map fst (dict_set d k v) = if in_dec string_dec k (map fst d) then map fst d
                             else map fst d ++ [k].
Proof.
  induction d as [|[k0 v0] d IH]; simpl; [reflexivity|].
  destruct (String.eqb_spec k0 k) as [->|Hne]; simpl.
  - destruct (string_dec k k); [reflexivity | contradiction].
  - rewrite IH. destruct (string_dec k0 k); [contradiction|].
    now destruct (in_dec string_dec k (map fst d)).
Qed.

Lemma dict_set_NoDup (d : dict) (k v : string) :
  NoDup (map fst d) -> NoDup (map fst (dict_set d k v)).
Proof.
  intros Hd. rewrite dict_set_keys.
  destruct (in_dec string_dec k (map fst d)); [exact Hd | now apply NoDup_snoc].
Qed.

Lemma modules_of_NoDup (ws : list distribution) : NoDup (map fst (modules_of ws)).
Proof.
  unfold modules_of.
  enough (H : forall d, NoDup (map fst d) ->
                NoDup (map fst (fold_left
                  (fun d x => dict_set d (project_name x) (version x)) ws d)))
    by (apply H; constructor).
  induction ws as [|x ws IH]; simpl; intros d Hd; [exact Hd|].
  apply IH. now apply dict_set_NoDup.
Qed.

Lemma dict_get_In (d : dict) (k v : string) :
  NoDup (map fst d) -> (In (k, v) d <-> dict_get d k = Some v).
Proof.
  induction d as [|[k0 v0] d IH]; simpl; intros Hd.
  - split; [contradiction | discriminate].
  - inversion Hd as [|? ? Hnotin Hd']; subst.
    destruct (String.eqb_spec k0 k) as [->|Hne].
    + split.
      * intros [[= ->] | Hin]; [reflexivity|].
        elim Hnotin. apply in_map_iff. now exists (k, v).
      * intros [= ->]. now left.
    + rewrite <- (IH Hd'). split; [|now right].
      intros [[= -> ->] | Hin]; [now elim Hne | exact Hin].
Qed.

Lemma NoDup_keys_items (d : dict) : NoDup (map fst d) -> NoDup d.
Proof. apply NoDup_map_inv. Qed.

(** Two dictionaries that are the same mapping hold the same items. *)
Lemma same_mapping_permutation (d1 d2 : dict) :
  NoDup (map fst d1) -> NoDup (map fst d2) ->
  (forall k, dict_get d1 k = dict_get d2 k) ->
  Permutation d1 d2.
Proof.
  intros H1 H2 Hget.
  apply NoDup_Permutation; try now apply NoDup_keys_items.
  intros [k v]. now rewrite (dict_get_In d1 k v H1), (dict_get_In d2 k v H2), Hget.
Qed.

Lemma json_dumps_sort_keys_canonical (d1 d2 : dict) :
  NoDup (map fst d1) -> NoDup (map fst d2) ->
  (forall k, dict_get d1 k = dict_get d2 k) ->
  json_dumps_sort_keys d1 = json_dumps_sort_keys d2.
Proof.
  intros H1 H2 Hget. unfold json_dumps_sort_keys, sorted_items.
  rewrite (sorted_permutation_invariant item_ltb item_ltb_irrefl item_ltb_trans
             item_ltb_connected d1 d2); [reflexivity|].
  now apply same_mapping_permutation.
Qed.

Lemma find_by_name (ws : list distribution) (x : distribution) :
  NoDup (map project_name ws) -> In x ws ->
  find (fun y => String.eqb (project_name y) (project_name x)) ws = Some x.
Proof.
  induction ws as [|y ws IH]; simpl; intros Hnd Hin; [contradiction|].
  inversion Hnd as [|? ? Hy Hws]; subst.
  destruct Hin as [-> | Hin].
  - now rewrite String.eqb_refl.
  - destruct (String.eqb_spec (project_name y) (project_name x)) as [E|_];
      [|now apply IH].
    elim Hy. rewrite E. now apply in_map.
Qed.

(** Without repeated names, a package maps to the version it is listed
    with. *)
Lemma dict_get_modules_of (ws : list distribution) (k : string) :
  NoDup (map project_name ws) ->
  dict_get (modules_of ws) k
  = option_map version (find (fun x => String.eqb (project_name x) k) ws).
Proof.
  unfold modules_of.
  enough (H : forall d,
             NoDup (map project_name ws) ->
             dict_get (fold_left (fun d x => dict_set d (project_name x) (version x)) ws d) k
             = match find (fun x => String.eqb (project_name x) k) ws with
               | Some x => Some (version x)
               | None => dict_get d k
               end).
  { intros Hnd. rewrite (H [] Hnd). now destruct (find _ ws). }
  induction ws as [|x ws IH]; simpl; intros d Hnd; [reflexivity|].
  inversion Hnd as [|? ? Hx Hws]; subst.
  rewrite (IH _ Hws), dict_get_set.
  destruct (String.eqb_spec (project_name x) k) as [<-|_]; [|reflexivity].
  destruct (find _ ws) as [y|] eqn:Hf; [|reflexivity].
  apply find_some in Hf as [Hin Hy]. apply String.eqb_eq in Hy.
  elim Hx. rewrite <- Hy. now apply in_map.
Qed.

(** The order of the enumeration does not matter to the mapping. *)
Lemma modules_of_permutation (ws1 ws2 : list distribution) :
  NoDup (map project_name ws1) -> Permutation ws1 ws2 ->
  forall name, dict_get (modules_of ws1) name = dict_get (modules_of ws2) name.
Proof.
  intros Hnd1 Hperm name.
  assert (Hnd2 : NoDup (map project_name ws2))
    by (eapply Permutation_NoDup; [apply Permutation_map; exact Hperm | exact Hnd1]).
  rewrite !dict_get_modules_of by assumption. f_equal.
  destruct (find (fun x => String.eqb (project_name x) name) ws1) as [x|] eqn:H1.
  - apply find_some in H1 as [Hin Hx]. apply String.eqb_eq in Hx. subst name.
    symmetry. apply find_by_name; [exact Hnd2 | now apply Permutation_in with ws1].
  - destruct (find (fun x => String.eqb (project_name x) name) ws2) as [y|] eqn:H2;
      [|reflexivity].
    apply find_some in H2 as [Hin Hy].
    apply Permutation_in with (l' := ws1) in Hin; [|now symmetry].
    now rewrite (find_none _ _ H1 y Hin) in Hy.
Qed.

(** C9. Two enumerations of the installed packages that give the same
    mapping from package name to version (in particular, an enumeration
    without repeated names and any reordering of it) are encoded to the
    same string; hence two snapshots taken with the same interpreter
    version are the same key for [get_or_create_environment]: the second
    call returns the id of the first and writes nothing. *)
Theorem module_set_encoding_is_canonical :
  forall ws1 ws2 : list distribution,
    (forall name, dict_get (modules_of ws1) name = dict_get (modules_of ws2) name)
    \/ (NoDup (map project_name ws1) /\ Permutation ws1 ws2) ->
    json_dumps_sort_keys (modules_of ws1) = json_dumps_sort_keys (modules_of ws2)
    /\ forall (sv pf1 pf2 : string) (e1 e2 : env_info) (db : database) (now1 now2 : Z),
         get_current_environment (mk_process sv pf1 (Some ws1)) = Ok e1 ->
         get_current_environment (mk_process sv pf2 (Some ws2)) = Ok e2 ->
         ei_modules e1 = ei_modules e2
         /\ exists (id : Z) (db1 : database),
              get_or_create_environment db e1 now1 = Ok (id, db1)
              /\ get_or_create_environment db1 e2 now2 = Ok (id, db1).
Proof.
  intros ws1 ws2 Hsame.
  assert (Hmap : forall name,
             dict_get (modules_of ws1) name = dict_get (modules_of ws2) name).
  { destruct Hsame as [H | [Hnd Hperm]]; [exact H | now apply modules_of_permutation]. }
  assert (Henc : json_dumps_sort_keys (modules_of ws1)
                 = json_dumps_sort_keys (modules_of ws2))
    by (apply json_dumps_sort_keys_canonical; auto using modules_of_NoDup).
  split; [exact Henc|].
  intros sv pf1 pf2 e1 e2 db now1 now2.
  unfold get_current_environment; simpl.
  destruct (split_whitespace sv) as [|v rest]; [discriminate|].
  intros [= <-] [= <-]. simpl. split; [exact Henc|].
  destruct (get_or_create_spec db v pf1 (json_dumps_sort_keys (modules_of ws1)) now1)
    as (r & db1 & H1 & Hf & _).
  exists (Environments.id r), db1. split; [exact H1|].
  rewrite <- Henc. now apply get_or_create_found.
Qed.

Lemma module_set_encoding_is_canonical_witness :
  json_dumps_sort_keys
    (modules_of [mk_distribution "pandas" "2.0.1"; mk_distribution "numpy" "1.24.3"])
  = json_dumps_sort_keys
      (modules_of [mk_distribution "numpy" "1.24.3"; mk_distribution "pandas" "2.0.1"]).
Proof.
  apply (module_set_encoding_is_canonical
           [mk_distribution "pandas" "2.0.1"; mk_distribution "numpy" "1.24.3"]
           [mk_distribution "numpy" "1.24.3"; mk_distribution "pandas" "2.0.1"]).
  right. split.
  - repeat constructor; simpl; intuition discriminate.
  - apply perm_swap.
Defined.

(** ** The decoder

    Every parser returns strictly less text than it was given, so the
    fuel [json_loads] starts with is never used up: with more fuel it
    gives the same result.  What it raises is an exception of the
    decoder. *)

Lemma array_loop_eq (fuel depth : nat) (s : string) :
  array_loop (S fuel) depth s
  = do (v, r) <- scan_once fuel depth s;
    match skip_ws r with
    | String "]" r' => Ok ([v], r')
    | String "," r' =>
        do (vs, r'') <- array_loop fuel depth (skip_ws r'); Ok (v :: vs, r'')
    | _ => Raise JSONDecodeError
    end.
Proof. reflexivity. Qed.

Lemma skip_ws_length (s : string) : (String.length (skip_ws s) <= String.length s)%nat.
Proof.
  induction s as [|c s IH]; simpl; [lia|].
  destruct (is_json_ws c); simpl; lia.
Qed.

Lemma cons_char_ok (u : N) (m : result (list N * string)) (cs : list N) (r : string) :
  cons_char u m = Ok (cs, r) -> exists cs', m = Ok (cs', r).
Proof.
  unfold cons_char. destruct m as [[cs' r']|]; simpl; [|discriminate].
  intros [= <- <-]. eauto.
Qed.

Ltac split_match H :=
  repeat match type of H with
         | context [match ?x with _ => _ end] => destruct x eqn:?; try discriminate H
         end.

Lemma scanstring_shorter (n : nat) :
  forall (s : string) (cs : list N) (r : string),
    (String.length s <= n)%nat ->
    scanstring s = Ok (cs, r) -> (String.length r < String.length s)%nat.
Proof.
  induction n as [|n IH]; intros s cs r Hn H.
  - destruct s; simpl in *; [discriminate | lia].
  - destruct s as [|c s1]; [discriminate|].
    cbn [scanstring] in H. cbn [String.length] in Hn.
    split_match H;
      try (injection H as <- <-; simpl; lia);
      apply cons_char_ok in H as [cs' H]; apply IH in H; subst; simpl in *; lia.
Qed.

Lemma span_digits_length (s ds r : string) :
  span_digits s = (ds, r) -> String.length s = (String.length ds + String.length r)%nat.
Proof.
  revert ds r. induction s as [|c s IH]; simpl; intros ds r H.
  - now injection H as <- <-.
  - destruct (is_digit c).
    + destruct (span_digits s) as [ds' r'] eqn:E. injection H as <- <-.
      simpl. now rewrite (IH ds' r' eq_refl).
    + now injection H as <- <-.
Qed.

Lemma read_sign_length (s sg r : string) :
  read_sign s = (sg, r) -> (String.length r <= String.length s)%nat.
Proof.
  unfold read_sign. intros H. split_match H; injection H as <- <-; simpl; lia.
Qed.

Lemma read_int_shorter (s ip r : string) :
  read_int s = Some (ip, r) -> (String.length r < String.length s)%nat.
Proof.
  unfold read_int. destruct s as [|c s']; [discriminate|].
  destruct (is_digit c) eqn:Hd; [|discriminate].
  destruct (ord c =? 48)%N.
  - intros [= <- <-]. simpl. lia.
  - cbn [span_digits]. rewrite Hd.
    destruct (span_digits s') as [ds r'] eqn:E. intros [= <- <-].
    apply span_digits_length in E. simpl. lia.
Qed.

Ltac pair_eq H := injection H as <- <-; simpl in *; lia.

Lemma read_frac_length (s fr r : string) :
  read_frac s = (fr, r) -> (String.length r <= String.length s)%nat.
Proof.
  unfold read_frac. intros H.
  destruct s as [|c [|d t]].
  - pair_eq H.
  - split_match H; pair_eq H.
  - destruct (span_digits (String d t)) as [fs r'] eqn:E.
    apply span_digits_length in E.
    split_match H; pair_eq H.
Qed.

Lemma read_exp_length (s ex r : string) :
  read_exp s = (ex, r) -> (String.length r <= String.length s)%nat.
Proof.
  unfold read_exp. intros H.
  destruct s as [|e [|x t']]; try pair_eq H.
  destruct ((ord e =? 101) || (ord e =? 69))%N; [|pair_eq H].
  destruct (match t' with
            | "" => ("", String x t')
            | String _ _ =>
                if ((ord x =? 45) || (ord x =? 43))%N
                then (String x "", t') else ("", String x t')
            end) as [sg t1] eqn:Esg.
  assert (Ht1 : (String.length t1 <= S (String.length t'))%nat).
  { destruct t'; [|destruct ((ord x =? 45) || (ord x =? 43))%N];
      injection Esg as <- <-; simpl; lia. }
  destruct (span_digits t1) as [es r'] eqn:E. apply span_digits_length in E.
  destruct es; pair_eq H.
Qed.

Lemma match_number_shorter (s : string) (v : json) (r : string) :
  match_number s = Ok (v, r) -> (String.length r < String.length s)%nat.
Proof.
  unfold match_number.
  destruct (read_sign s) as [sg s1] eqn:E1. apply read_sign_length in E1.
  destruct (read_int s1) as [[ip s2]|] eqn:E2; [|discriminate].
  apply read_int_shorter in E2.
  destruct (read_frac s2) as [fr s3] eqn:E3. apply read_frac_length in E3.
  destruct (read_exp s3) as [ex s4] eqn:E4. apply read_exp_length in E4.
  destruct fr, ex; try (intros [= <- <-]; lia).
  destruct (4300 <? String.length ip)%nat; [discriminate | intros [= <- <-]; lia].
Qed.

Lemma strip_prefix_length (p s r : string) :
  strip_prefix p s = Some r -> String.length s = (String.length p + String.length r)%nat.
Proof.
  revert s. induction p as [|a p IH]; intros [|b s]; simpl; try discriminate.
  - now intros [= <-].
  - now intros [= <-].
  - destruct (Ascii.eqb a b); [|discriminate]. intros H. now rewrite (IH s H).
Qed.

Lemma constant_shorter (lit : string) (v : json) (s : string)
  (otherwise : result (json * string)) (x : json) (r : string) :
  (0 < String.length lit)%nat ->
  (forall x r, otherwise = Ok (x, r) -> (String.length r < String.length s)%nat) ->
  constant lit v s otherwise = Ok (x, r) -> (String.length r < String.length s)%nat.
Proof.
  unfold constant. intros Hlit Hother.
  destruct (strip_prefix lit s) as [r'|] eqn:E; [|apply Hother].
  intros [= <- <-]. apply strip_prefix_length in E. lia.
Qed.

Lemma bind_ok {A B : Type} (m : result A) (k : A -> result B) (b : B) :
  bind m k = Ok b -> exists a, m = Ok a /\ k a = Ok b.
Proof. destruct m as [a|]; simpl; [eauto | discriminate]. Qed.

Lemma scan_once_eq (fuel depth : nat) (c : ascii) (s' : string) :
  scan_once (S fuel) depth (String c s')
  = let s := String c s' in
    let n := ord c in
    if (n =? 34)%N then
      do (str, r) <- scanstring s'; Ok (JString str, r)
    else if (n =? 123)%N then
      match depth with
      | O => Raise RecursionError
      | S depth' =>
          match skip_ws s' with
          | String "}" r => Ok (JObject [], r)
          | s1 => do (ms, r) <- object_loop fuel depth' s1;
                  Ok (JObject (fold_left (fun d kv => object_set d (fst kv) (snd kv)) ms []), r)
          end
      end
    else if (n =? 91)%N then
      match depth with
      | O => Raise RecursionError
      | S depth' =>
          match skip_ws s' with
          | String "]" r => Ok (JArray [], r)
          | s1 => do (vs, r) <- array_loop fuel depth' s1; Ok (JArray vs, r)
          end
      end
    else if (n =? 110)%N then constant "null" JNull s (match_number s)
    else if (n =? 116)%N then constant "true" (JBool true) s (match_number s)
    else if (n =? 102)%N then constant "false" (JBool false) s (match_number s)
    else if (n =? 78)%N then constant "NaN" (JFloat "NaN") s (match_number s)
    else if (n =? 73)%N then constant "Infinity" (JFloat "Infinity") s (match_number s)
    else if (n =? 45)%N then constant "-Infinity" (JFloat "-Infinity") s (match_number s)
    else match_number s.
Proof. reflexivity. Qed.

Lemma object_loop_eq (fuel depth : nat) (q : ascii) (s' : string) :
  object_loop (S fuel) depth (String q s')
  = if negb (ord q =? 34)%N then Raise JSONDecodeError
    else
      do (k, r) <- scanstring s';
      match skip_ws r with
      | String ":" r1 =>
          do (v, r2) <- scan_once fuel depth (skip_ws r1);
          match skip_ws r2 with
          | String "}" r3 => Ok ([(k, v)], r3)
          | String "," r3 =>
              do (ms, r4) <- object_loop fuel depth (skip_ws r3);
              Ok ((k, v) :: ms, r4)
          | _ => Raise JSONDecodeError
          end
      | _ => Raise JSONDecodeError
      end.
Proof. reflexivity. Qed.

Lemma scan_shorter (fuel : nat) :
  (forall depth s, shorter (scan_once fuel depth s) s)
  /\ (forall depth s, shorter (array_loop fuel depth s) s)
  /\ (forall depth s, shorter (object_loop fuel depth s) s).
Proof.
  unfold shorter.
  induction fuel as [|fuel (IHv & IHa & IHo)];
    [repeat split; intros; discriminate|].
  split; [|split].
  - intros depth [|c s'] v r; [discriminate|]. rewrite scan_once_eq. cbv zeta.
    intros H.
    pose proof (skip_ws_length s') as Hs'.
    assert (Hnum : forall x r, match_number (String c s') = Ok (x, r) ->
                     (String.length r < String.length (String c s'))%nat)
      by (intros; now apply match_number_shorter with x).
    destruct (ord c =? 34)%N.
    { apply bind_ok in H as ([str r'] & Hs & [= <- <-]).
      apply scanstring_shorter with (n := String.length s') in Hs; simpl; lia. }
    destruct (ord c =? 123)%N.
    { destruct depth as [|depth']; [discriminate|].
      destruct (skip_ws s') as [|x t] eqn:E.
      - apply bind_ok in H as ([ms r'] & Hl & [= <- <-]).
        apply IHo in Hl. simpl in *. lia.
      - split_match H; try (injection H as <- <-; simpl in *; lia);
          apply bind_ok in H as ([ms r'] & Hl & [= <- <-]);
          apply IHo in Hl; simpl in *; lia. }
    destruct (ord c =? 91)%N.
    { destruct depth as [|depth']; [discriminate|].
      destruct (skip_ws s') as [|x t] eqn:E.
      - apply bind_ok in H as ([ms r'] & Hl & [= <- <-]).
        apply IHa in Hl. simpl in *. lia.
      - split_match H; try (injection H as <- <-; simpl in *; lia);
          apply bind_ok in H as ([ms r'] & Hl & [= <- <-]);
          apply IHa in Hl; simpl in *; lia. }
    repeat match type of H with
           | (if ?b then _ else _) = _ => destruct b
           end;
      try (revert H; apply constant_shorter; [simpl; lia | exact Hnum]).
    now apply Hnum with v.
  - intros depth s vs r. destruct s as [|c s'].
    + rewrite array_loop_eq. intros H.
      apply bind_ok in H as ([v r'] & Hv & _). apply IHv in Hv. simpl in Hv. lia.
    + rewrite array_loop_eq. intros H.
      apply bind_ok in H as ([v r'] & Hv & H). apply IHv in Hv.
      pose proof (skip_ws_length r') as Hr'.
      destruct (skip_ws r') as [|x t] eqn:E; [discriminate|].
      pose proof (skip_ws_length t) as Ht.
      split_match H; try (injection H as <- <-; simpl in *; lia);
        apply bind_ok in H as ([vs' r''] & Hl & [= <- <-]);
        apply IHa in Hl; simpl in *; lia.
  - intros depth [|q s'] ms r; [discriminate|]. rewrite object_loop_eq. intros H.
    destruct (negb (ord q =? 34)%N); [discriminate|].
    apply bind_ok in H as ([k r0] & Hk & H).
    apply scanstring_shorter with (n := String.length s') in Hk; [|lia].
    pose proof (skip_ws_length r0) as Hr0.
    destruct (skip_ws r0) as [|x r1] eqn:E0; [discriminate|].
    pose proof (skip_ws_length r1) as Hr1.
    split_match H.
    apply bind_ok in H as ([v r2] & Hv & H). apply IHv in Hv.
    pose proof (skip_ws_length r2) as Hr2.
    destruct (skip_ws r2) as [|y r3] eqn:E2; [discriminate|].
    pose proof (skip_ws_length r3) as Hr3.
    split_match H; try (injection H as <- <-; simpl in *; lia);
      apply bind_ok in H as ([ms' r4] & Hl & [= <- <-]);
      apply IHo in Hl; simpl in *; lia.
Qed.

(** *** More fuel changes nothing *)

Lemma bind_pointwise {A B : Type} (m : result A) (k1 k2 : A -> result B) :
  (forall a, m = Ok a -> k1 a = k2 a) -> bind m k1 = bind m k2.
Proof. destruct m as [a|]; simpl; auto. Qed.

Lemma scan_fuel (fuel : nat) :
  (forall depth s, (2 * String.length s + 1 <= fuel)%nat ->
     scan_once (S fuel) depth s = scan_once fuel depth s)
  /\ (forall depth s, (2 * String.length s + 2 <= fuel)%nat ->
        array_loop (S fuel) depth s = array_loop fuel depth s)
  /\ (forall depth s, (2 * String.length s + 2 <= fuel)%nat ->
        object_loop (S fuel) depth s = object_loop fuel depth s).
Proof.
  induction fuel as [|fuel (IHv & IHa & IHo)];
    [repeat split; intros; lia|].
  destruct (scan_shorter fuel) as (Sv & Sa & So). unfold shorter in *.
  split; [|split].
  - intros depth [|c s'] Hf; [reflexivity|]. rewrite !scan_once_eq. cbv zeta.
    cbn [String.length] in Hf. pose proof (skip_ws_length s') as Hs'.
    destruct depth as [|depth']; [reflexivity|].
    destruct (skip_ws s') as [|x t] eqn:E.
    + rewrite (IHo depth' EmptyString), (IHa depth' EmptyString) by (simpl; lia).
      reflexivity.
    + assert (Ho := IHo depth' (String x t) ltac:(simpl in *; lia)).
      assert (Ha := IHa depth' (String x t) ltac:(simpl in *; lia)).
      destruct x as [[] [] [] [] [] [] [] []]; rewrite ?Ho, ?Ha; reflexivity.
  - intros depth s Hf. rewrite (array_loop_eq (S fuel)), (array_loop_eq fuel).
    rewrite IHv by lia. apply bind_pointwise. intros [v r] Hv. apply Sv in Hv.
    pose proof (skip_ws_length r) as Hr.
    destruct (skip_ws r) as [|x t] eqn:E; [reflexivity|].
    pose proof (skip_ws_length t) as Ht.
    assert (Ha := IHa depth (skip_ws t) ltac:(simpl in *; lia)).
    destruct x as [[] [] [] [] [] [] [] []]; rewrite ?Ha; reflexivity.
  - intros depth [|q s'] Hf; [reflexivity|].
    rewrite (object_loop_eq (S fuel)), (object_loop_eq fuel).
    cbn [String.length] in Hf.
    destruct (negb (ord q =? 34)%N); [reflexivity|].
    apply bind_pointwise. intros [k r0] Hk.
    apply scanstring_shorter with (n := String.length s') in Hk; [|lia].
    pose proof (skip_ws_length r0) as Hr0.
    destruct (skip_ws r0) as [|x r1] eqn:E0; [reflexivity|].
    pose proof (skip_ws_length r1) as Hr1.
    assert (Hv := IHv depth (skip_ws r1) ltac:(simpl in *; lia)).
    destruct x as [[] [] [] [] [] [] [] []]; try reflexivity.
    rewrite Hv. apply bind_pointwise. intros [v r2] Hv2. apply Sv in Hv2.
    pose proof (skip_ws_length r2) as Hr2.
    destruct (skip_ws r2) as [|y r3] eqn:E2; [reflexivity|].
    pose proof (skip_ws_length r3) as Hr3.
    assert (Ho := IHo depth (skip_ws r3) ltac:(simpl in *; lia)).
    destruct y as [[] [] [] [] [] [] [] []]; rewrite ?Ho; reflexivity.
Qed.

Lemma cons_char_raise (u : N) (m : result (list N * string)) (e : exn) :
  cons_char u m = Raise e -> m = Raise e.
Proof. unfold cons_char. destruct m as [[cs r]|]; simpl; congruence. Qed.

Lemma bind_raise {A B : Type} (m : result A) (k : A -> result B) (e : exn) :
  bind m k = Raise e -> m = Raise e \/ exists a, m = Ok a /\ k a = Raise e.
Proof. destruct m as [a|]; simpl; intros H; [right; eauto | left; congruence]. Qed.

Lemma scanstring_raises (n : nat) :
  forall s e, (String.length s <= n)%nat -> scanstring s = Raise e -> e = JSONDecodeError.
Proof.
  induction n as [|n IH]; intros s e Hn H.
  - destruct s; simpl in *; [congruence | lia].
  - destruct s as [|c s1]; [simpl in H; congruence|].
    cbn [scanstring] in H. cbn [String.length] in Hn.
    split_match H; try congruence;
      apply cons_char_raise in H; apply IH in H; subst; simpl in *; try lia; reflexivity.
Qed.

Lemma scanstring_decode_error_only (s : string) : decode_error_only (scanstring s).
Proof.
  intros e H. left. now apply scanstring_raises with (n := String.length s) (s := s).
Qed.

Lemma match_number_decode_error_only (s : string) : decode_error_only (match_number s).
Proof.
  unfold decode_error_only, decoder_error, match_number. intros e H.
  split_match H; injection H as <-; auto.
Qed.

Lemma constant_decode_error_only (lit : string) (v : json) (s : string)
  (otherwise : result (json * string)) :
  decode_error_only otherwise -> decode_error_only (constant lit v s otherwise).
Proof.
  unfold decode_error_only, constant. intros Ho e.
  destruct (strip_prefix lit s); [discriminate | apply Ho].
Qed.

(** The scanner raises nothing but the exceptions of the decoder. *)
Lemma scan_decode_error_only (fuel : nat) :
  (forall depth s, decode_error_only (scan_once fuel depth s))
  /\ (forall depth s, decode_error_only (array_loop fuel depth s))
  /\ (forall depth s, decode_error_only (object_loop fuel depth s)).
Proof.
  unfold decode_error_only.
  induction fuel as [|fuel (IHv & IHa & IHo)].
  { repeat split; intros depth s e H; injection H as <-; right; now left. }
  assert (Hjson : decoder_error JSONDecodeError) by now left.
  assert (Hrec : decoder_error RecursionError) by (right; now left).
  split; [|split].
  - intros depth [|c s'] e; [simpl; intros [= <-]; exact Hjson|].
    rewrite scan_once_eq. cbv zeta. intros H.
    pose proof (match_number_decode_error_only (String c s')) as Hnum.
    destruct (ord c =? 34)%N.
    { apply bind_raise in H as [H | ([str r'] & _ & H)]; [|discriminate].
      now apply scanstring_decode_error_only in H. }
    destruct (ord c =? 123)%N.
    { destruct depth as [|depth']; [injection H as <-; exact Hrec|].
      destruct (skip_ws s') as [|x t] eqn:E.
      - apply bind_raise in H as [H | ([ms r'] & _ & H)]; [|discriminate].
        now apply IHo in H.
      - split_match H;
          apply bind_raise in H as [H | ([ms r'] & _ & H)]; try discriminate;
          now apply IHo in H. }
    destruct (ord c =? 91)%N.
    { destruct depth as [|depth']; [injection H as <-; exact Hrec|].
      destruct (skip_ws s') as [|x t] eqn:E.
      - apply bind_raise in H as [H | ([ms r'] & _ & H)]; [|discriminate].
        now apply IHa in H.
      - split_match H;
          apply bind_raise in H as [H | ([ms r'] & _ & H)]; try discriminate;
          now apply IHa in H. }
    repeat match type of H with
           | (if ?b then _ else _) = _ => destruct b
           end;
      try (revert H; apply constant_decode_error_only; exact Hnum).
    now apply Hnum.
  - intros depth s e. rewrite array_loop_eq. intros H.
    apply bind_raise in H as [H | ([v r'] & Hv & H)]; [now apply IHv in H|].
    destruct (skip_ws r') as [|x t] eqn:E; [injection H as <-; exact Hjson|].
    split_match H; try (injection H as <-; exact Hjson);
      apply bind_raise in H as [H | ([vs' r''] & _ & H)]; try discriminate;
      now apply IHa in H.
  - intros depth [|q s'] e; [simpl; intros [= <-]; exact Hjson|].
    rewrite object_loop_eq. intros H.
    destruct (negb (ord q =? 34)%N); [injection H as <-; exact Hjson|].
    apply bind_raise in H as [H | ([k r0] & Hk & H)].
    { now apply scanstring_decode_error_only in H. }
    destruct (skip_ws r0) as [|x r1] eqn:E0; [injection H as <-; exact Hjson|].
    split_match H; try (injection H as <-; exact Hjson).
    apply bind_raise in H as [H | ([v r2] & Hv & H)]; [now apply IHv in H|].
    destruct (skip_ws r2) as [|y r3] eqn:E2; [injection H as <-; exact Hjson|].
    split_match H; try (injection H as <-; exact Hjson);
      apply bind_raise in H as [H | ([ms' r4] & _ & H)]; try discriminate;
      now apply IHo in H.
Qed.

(** [json.loads] returns a value or raises an exception of the decoder. *)
Lemma json_loads_decode_error_only (depth : nat) (s : string) :
  decode_error_only (json_loads depth s).
Proof.
  intros e H. unfold json_loads in H.
  apply bind_raise in H as [H | ([v r] & _ & H)].
  - now apply (proj1 (scan_decode_error_only _)) in H.
  - destruct (skip_ws r); [discriminate | injection H as <-; now left].
Qed.

(** [RecursionError] comes from the nesting of the text alone: with the
    fuel of [json_loads], and where as many arrays and objects may be
    entered as the text has characters, the scanner does not raise it. *)
Lemma scan_within_depth (fuel : nat) :
  (forall depth s,
      (2 * String.length s + 1 <= fuel)%nat -> (String.length s <= depth)%nat ->
      scan_once fuel depth s <> Raise RecursionError)
  /\ (forall depth s,
        (2 * String.length s + 2 <= fuel)%nat -> (String.length s <= depth)%nat ->
        array_loop fuel depth s <> Raise RecursionError)
  /\ (forall depth s,
        (2 * String.length s + 2 <= fuel)%nat -> (String.length s <= depth)%nat ->
        object_loop fuel depth s <> Raise RecursionError).
Proof.
  induction fuel as [|fuel (IHv & IHa & IHo)];
    [repeat split; intros; lia|].
  destruct (scan_shorter fuel) as (Sv & Sa & So). unfold shorter in *.
  assert (Hstr : forall s, scanstring s <> Raise RecursionError).
  { intros s H. now apply scanstring_raises with (n := String.length s) in H. }
  assert (Hnum : forall s, match_number s <> Raise RecursionError).
  { intros s H. unfold match_number in H. split_match H; discriminate. }
  split; [|split].
  - intros depth [|c s'] Hf Hd; [simpl; congruence|]. rewrite scan_once_eq. cbv zeta.
    cbn [String.length] in Hf, Hd. intros H.
    pose proof (skip_ws_length s') as Hs'.
    destruct (ord c =? 34)%N.
    { apply bind_raise in H as [H | ([str r'] & _ & H)]; [|discriminate].
      now apply Hstr in H. }
    destruct (ord c =? 123)%N.
    { destruct depth as [|depth']; [lia|].
      destruct (skip_ws s') as [|x t] eqn:E.
      - apply bind_raise in H as [H | ([ms r'] & _ & H)]; [|discriminate].
        apply IHo in H; [exact H | simpl; lia | simpl; lia].
      - split_match H;
          apply bind_raise in H as [H | ([ms r'] & _ & H)]; try discriminate;
          (apply IHo in H; [exact H | simpl in *; lia | simpl in *; lia]). }
    destruct (ord c =? 91)%N.
    { destruct depth as [|depth']; [lia|].
      destruct (skip_ws s') as [|x t] eqn:E.
      - apply bind_raise in H as [H | ([ms r'] & _ & H)]; [|discriminate].
        apply IHa in H; [exact H | simpl; lia | simpl; lia].
      - split_match H;
          apply bind_raise in H as [H | ([ms r'] & _ & H)]; try discriminate;
          (apply IHa in H; [exact H | simpl in *; lia | simpl in *; lia]). }
    unfold constant in H.
    repeat match type of H with
           | (if ?b then _ else _) = _ => destruct b
           | match ?x with Some _ => _ | None => _ end = _ => destruct x
           end; try discriminate; now apply Hnum in H.
  - intros depth s Hf Hd. destruct fuel as [|fuel']; [lia|].
    rewrite array_loop_eq. intros H.
    apply bind_raise in H as [H | ([v r'] & Hv & H)].
    + apply IHv in H; [exact H | lia | lia].
    + apply Sv in Hv.
      pose proof (skip_ws_length r') as Hr'.
      destruct (skip_ws r') as [|x t] eqn:E; [congruence|].
      pose proof (skip_ws_length t) as Ht.
      split_match H; try congruence;
        apply bind_raise in H as [H | ([vs' r''] & _ & H)]; try discriminate;
        (apply IHa in H; [exact H | simpl in *; lia | simpl in *; lia]).
  - intros depth [|q s'] Hf Hd; [simpl; congruence|]. rewrite object_loop_eq. intros H.
    cbn [String.length] in Hf, Hd.
    destruct (negb (ord q =? 34)%N); [congruence|].
    apply bind_raise in H as [H | ([k r0] & Hk & H)].
    { now apply Hstr in H. }
    apply scanstring_shorter with (n := String.length s') in Hk; [|lia].
    pose proof (skip_ws_length r0) as Hr0.
    destruct (skip_ws r0) as [|x r1] eqn:E0; [congruence|].
    pose proof (skip_ws_length r1) as Hr1.
    split_match H; try congruence.
    apply bind_raise in H as [H | ([v r2] & Hv & H)].
    { apply IHv in H; [exact H | simpl in *; lia | simpl in *; lia]. }
    apply Sv in Hv.
    pose proof (skip_ws_length r2) as Hr2.
    destruct (skip_ws r2) as [|y r3] eqn:E2; [congruence|].
    pose proof (skip_ws_length r3) as Hr3.
    split_match H; try congruence;
      apply bind_raise in H as [H | ([ms' r4] & _ & H)]; try discriminate;
      (apply IHo in H; [exact H | simpl in *; lia | simpl in *; lia]).
Qed.

(** So the fuel of [json_loads] is never used up, and a text raises
    [RecursionError] only when the interpreter allows fewer levels than
    the text has characters. *)
Lemma json_loads_within_depth (depth : nat) (s : string) :
  (String.length s <= depth)%nat -> json_loads depth s <> Raise RecursionError.
Proof.
  intros Hd H. unfold json_loads in H.
  pose proof (skip_ws_length s) as Hs.
  apply bind_raise in H as [H | ([v r] & _ & H)].
  - apply (proj1 (scan_within_depth _)) in H; [exact H | lia | lia].
  - destruct (skip_ws r); discriminate.
Qed.

(** The fuel [json_loads] starts with is enough: any more gives the same
    result. *)
Lemma json_loads_fuel (depth : nat) (s : string) (more : nat) :
  scan_once (more + (2 * String.length s + 2)) depth (skip_ws s)
  = scan_once (2 * String.length s + 2) depth (skip_ws s).
Proof.
  pose proof (skip_ws_length s) as Hs.
  induction more as [|more IH]; [reflexivity|].
  cbn [Nat.add]. rewrite (proj1 (scan_fuel _)) by lia. exact IH.
Qed.

(** ** Tags through [json.dumps] and [json.loads] *)

Lemma append_assoc (a b c : string) : ((a ++ b) ++ c = a ++ (b ++ c))%string.
Proof. induction a as [|x a IH]; simpl; [reflexivity | now rewrite IH]. Qed.

Lemma append_length (a b : string) :
  String.length (a ++ b) = (String.length a + String.length b)%nat.
Proof. induction a as [|x a IH]; simpl; [reflexivity | now rewrite IH]. Qed.

Lemma append_cons_nonempty (a : string) (y : ascii) (b : string) :
  exists x r, (a ++ String y b)%string = String x r.
Proof. destruct a as [|x a]; simpl; eauto. Qed.

(** One escaped character is read back as the character. *)
Lemma scanstring_escape_char (c x : ascii) (rest : string) :
  scanstring (escape_char c ++ String x rest)
  = cons_char (ord c) (scanstring (String x rest)).
Proof. destruct c as [[] [] [] [] [] [] [] []]; reflexivity. Qed.

Lemma scanstring_escape_chars (t more : string) :
  scanstring (escape_chars t ++ String dquote more) = Ok (codepoints t, more).
Proof.
  induction t as [|c t IH]; [reflexivity|].
  cbn [escape_chars codepoints]. rewrite append_assoc.
  destruct (append_cons_nonempty (escape_chars t) dquote more) as (x & r & E).
  rewrite E in *. now rewrite scanstring_escape_char, IH.
Qed.

Lemma json_encode_str_append (t more : string) :
  (json_encode_str t ++ more)%string
  = String dquote (escape_chars t ++ String dquote more).
Proof. unfold json_encode_str. simpl. now rewrite append_assoc. Qed.

(** An encoded string is decoded to the string, with any fuel. *)
Lemma scan_once_encoded_str (fuel depth : nat) (t more : string) :
  scan_once (S fuel) depth (json_encode_str t ++ more)
  = Ok (JString (codepoints t), more).
Proof.
  rewrite json_encode_str_append. cbn [scan_once].
  change (ord dquote =? 34)%N with true. cbv iota.
  now rewrite scanstring_escape_chars.
Qed.

Lemma json_encode_str_length (t : string) : (2 <= String.length (json_encode_str t))%nat.
Proof.
  unfold json_encode_str. simpl. rewrite append_length. simpl. lia.
Qed.

Lemma join_encoded_length (t : string) (l : list string) :
  (2 * S (List.length l) <= String.length (join ", " (map json_encode_str (t :: l))))%nat.
Proof.
  revert t. induction l as [|u l IH]; intros t.
  - cbn [map join List.length]. pose proof (json_encode_str_length t). lia.
  - change (join ", " (map json_encode_str (t :: u :: l)))
      with (json_encode_str t ++ ", " ++ join ", " (map json_encode_str (u :: l)))%string.
    rewrite !append_length. specialize (IH u).
    pose proof (json_encode_str_length t).
    change (String.length ", ") with 2%nat. cbn [List.length] in *. lia.
Qed.

(** The loop of the array parser over the encoded elements. *)
Lemma array_loop_encoded (l : list string) :
  forall (t : string) (fuel depth : nat) (tail : string),
    (List.length l + 2 <= fuel)%nat ->
    array_loop fuel depth (join ", " (map json_encode_str (t :: l)) ++ String "]" tail)
    = Ok (map (fun s => JString (codepoints s)) (t :: l), tail).
Proof.
  induction l as [|u l IH]; intros t fuel depth tail Hfuel.
  - destruct fuel as [|[|fuel]]; simpl in Hfuel; try lia.
    cbn [map join]. rewrite array_loop_eq, scan_once_encoded_str. reflexivity.
  - destruct fuel as [|[|fuel]]; simpl in Hfuel; try lia.
    change (join ", " (map json_encode_str (t :: u :: l)))
      with (json_encode_str t ++ ", " ++ join ", " (map json_encode_str (u :: l)))%string.
    rewrite !append_assoc, array_loop_eq, scan_once_encoded_str.
    cbn [bind]. change (", " ++ ?x)%string with (String "," (String " " x)).
    cbn [skip_ws]. change (is_json_ws ",") with false. cbv iota.
    change (skip_ws (String " " ?x)) with (skip_ws x).
    set (rest := (join ", " (map json_encode_str (u :: l)) ++ String "]" tail)%string).
    assert (Hrest : skip_ws rest = rest).
    { subst rest. clear. destruct l; cbn [map join];
        [| rewrite !append_assoc]; rewrite json_encode_str_append; reflexivity. }
    rewrite Hrest. subst rest. rewrite IH by lia. reflexivity.
Qed.

Lemma scan_once_array (fuel depth : nat) (rest : string) :
  scan_once (S fuel) (S depth) (String "[" rest)
  = match skip_ws rest with
    | String "]" r => Ok (JArray [], r)
    | s1 => do (vs, r) <- array_loop fuel depth s1; Ok (JArray vs, r)
    end.
Proof. reflexivity. Qed.

(** A non-empty list of strings survives [json.loads(json.dumps(l))]
    wherever the interpreter lets the decoder enter one array. *)
Lemma json_loads_dumps_list (depth : nat) (t : string) (l : list string) :
  json_loads (S depth) (json_dumps_list (t :: l)) = Ok (json_of_strings (t :: l)).
Proof.
  unfold json_loads, json_dumps_list.
  set (body := join ", " (map json_encode_str (t :: l))).
  change ("[" ++ body ++ "]")%string with (String "[" (body ++ String "]" "")).
  assert (Hlen : (2 * S (List.length l) <= String.length body)%nat)
    by apply join_encoded_length.
  assert (Hbody : exists r, (body ++ String "]" "")%string = String dquote r).
  { subst body. clear. destruct l; cbn [map join];
      [| rewrite !append_assoc]; rewrite json_encode_str_append; eauto. }
  destruct Hbody as [r Hr].
  change (skip_ws (String "[" ?x)) with (String "[" x).
  remember (2 * String.length (String "[" (body ++ String "]" "")) + 2)%nat as fuel eqn:Hfuel.
  cbn [String.length] in Hfuel. rewrite append_length in Hfuel.
  destruct fuel as [|fuel]; [lia|].
  rewrite scan_once_array, Hr.
  change (skip_ws (String dquote r)) with (String dquote r).
  change (match String dquote r with
          | String "]" r0 => Ok (JArray [], r0)
          | s1 => do (vs, r0) <- array_loop fuel depth s1; Ok (JArray vs, r0)
          end)
    with (do (vs, r0) <- array_loop fuel depth (String dquote r); Ok (JArray vs, r0)).
  rewrite <- Hr. subst body.
  rewrite array_loop_encoded by lia. reflexivity.
Qed.

Lemma load_tags_tags_str (depth : nat) (ed : error_data) :
  load_tags (S depth) (tags_str ed) = Ok (json_of_strings (supplied_tags ed)).
Proof.
  unfold tags_str, supplied_tags.
  destruct (get (ed_tags ed)) as [[|t l]|]; try reflexivity.
  rewrite <- (json_loads_dumps_list depth). reflexivity.
Qed.

(** Where the interpreter lets the decoder enter no array, the text of a
    list is not read. *)
Lemma json_loads_list_no_depth (l : list string) :
  json_loads 0 (json_dumps_list l) = Raise RecursionError.
Proof. reflexivity. Qed.

(** ** Validation of the required fields *)

(** C3, as stated, fails: [save_error] given an empty name and no
    description raises nothing and appends a row. *)
Lemma save_error_stores_blank_record :
  save_error empty_database blank_error_data 0
  = Ok {| environments := [];
          environments_seq := 0;
          errors := [Errors.mk 1 "" None None None None None (Some "Open") None None 0 0];
          errors_seq := 1 |}.
Proof. reflexivity. Qed.

Lemma truthy_false (s : string) : truthy s = false <-> s = "".
Proof. destruct s; simpl; split; congruence. Qed.

Lemma sqlite_integer_iff (n : Z) : sqlite_integer n = true <-> - 2 ^ 63 <= n < 2 ^ 63.
Proof. unfold sqlite_integer. rewrite andb_true_iff, Z.leb_le, Z.ltb_lt. tauto. Qed.

Lemma bindable_iff (x : option Z) :
  bindable x = true <-> (forall n, x = Some n -> - 2 ^ 63 <= n < 2 ^ 63).
Proof.
  destruct x as [n|]; simpl.
  - rewrite sqlite_integer_iff. split; [now intros H m [= <-] | auto].
  - split; [discriminate | reflexivity].
Qed.

(** C3, amended. The check of the required fields is the form's: a
    submission with an empty name or an empty description is answered
    with the "required fields" message and [save_error] is not called, so
    the database is unchanged.  [save_error] itself fails, writing
    nothing, when the name is absent ([KeyError]) or [None] (NOT NULL
    constraint), and when the environment id is an integer SQLite cannot
    hold ([OverflowError]); in every other case, whatever the name and
    the description, it appends one row. *)
Theorem required_fields_are_checked_by_the_form :
  (forall (db : database) (env_id : Z) (f : error_form) (now : Z),
      f_error_name f = "" \/ f_description f = "" ->
      submit_error_form db env_id f now = Ok RequiredFieldsMissing
      /\ run db (OpSubmitErrorForm env_id f now) = db)
  /\ (forall (db : database) (ed : error_data) (now : Z),
        get (ed_error_name ed) = None ->
        (exists e, save_error db ed now = Raise e)
        /\ run db (OpSaveError ed now) = db)
  /\ (forall (db : database) (ed : error_data) (now : Z) (name : string) (n : Z),
        get (ed_error_name ed) = Some name ->
        get (ed_environment_id ed) = Some n ->
        ~ (- 2 ^ 63 <= n < 2 ^ 63) ->
        save_error db ed now = Raise OverflowError
        /\ run db (OpSaveError ed now) = db)
  /\ (forall (db : database) (ed : error_data) (now : Z) (name : string),
        get (ed_error_name ed) = Some name ->
        (forall n, get (ed_environment_id ed) = Some n -> - 2 ^ 63 <= n < 2 ^ 63) ->
        exists (db' : database) (r : Errors.row),
          save_error db ed now = Ok db'
          /\ errors db' = errors db ++ [r]
          /\ Errors.error_name r = name
          /\ Errors.description r = get (ed_description ed)).
Proof.
  split; [|split; [|split]].
  - intros db env_id f now Hblank.
    assert (Hguard : negb (truthy (f_error_name f)) || negb (truthy (f_description f)) = true).
    { apply orb_true_iff.
      destruct Hblank as [H|H]; [left | right];
        apply negb_true_iff; now apply truthy_false. }
    simpl. unfold submit_error_form. rewrite Hguard. now split.
  - intros db ed now Hname. simpl. unfold save_error, insert_error.
    destruct (ed_error_name ed) as [| |a]; simpl in *; try discriminate;
      destruct (bindable (get (ed_environment_id ed))); simpl; split; eauto.
  - intros db ed now name n Hname Henv Hout.
    assert (Hbind : bindable (get (ed_environment_id ed)) = false).
    { rewrite Henv. simpl. apply not_true_is_false. now rewrite sqlite_integer_iff. }
    assert (Hraise : save_error db ed now = Raise OverflowError).
    { unfold save_error, insert_error. rewrite Hbind.
      destruct (ed_error_name ed) as [| |a]; simpl in *; try discriminate. reflexivity. }
    split; [exact Hraise|]. simpl. now rewrite Hraise.
  - intros db ed now name Hname Hrange. apply bindable_iff in Hrange.
    rewrite (save_error_returns db ed name now Hname Hrange).
    eexists. eexists. repeat split.
Qed.

Lemma required_fields_are_checked_by_the_form_witness :
  submit_error_form sample_database 1 blank_form 300 = Ok RequiredFieldsMissing
  /\ run sample_database (OpSubmitErrorForm 1 blank_form 300) = sample_database.
Proof.
  apply (proj1 required_fields_are_checked_by_the_form sample_database 1 blank_form 300).
  left. reflexivity.
Defined.

(** ** Listings and the [tags] cell *)

Section MapM.
Context {A B : Type}.
Variable f : A -> result B.

Lemma mapM_ok_iff (l : list A) :
  (exists bs, mapM f l = Ok bs) <-> (forall a, In a l -> exists b, f a = Ok b).
Proof.
  induction l as [|a l IH]; simpl.
  - split; [intros _ ? [] | eauto].
  - split.
    + intros [bs Hbs] x [<- | Hx].
      * destruct (f a); [eauto | discriminate].
      * destruct (f a); [|discriminate]. simpl in Hbs.
        destruct (mapM f l) eqn:Hl; [|discriminate].
        apply (proj1 IH); eauto.
    + intros Hall.
      destruct (Hall a (or_introl eq_refl)) as [b ->]. simpl.
      destruct (proj2 IH (fun x Hx => Hall x (or_intror Hx))) as [bs ->].
      simpl. eauto.
Qed.

Lemma mapM_cons_ok (a : A) (l : list A) (b : B) (bs : list B) :
  f a = Ok b -> mapM f l = Ok bs -> mapM f (a :: l) = Ok (b :: bs).
Proof. intros Ha Hl. simpl. now rewrite Ha, Hl. Qed.

End MapM.

Lemma mapM_decode_error_only {A B : Type} (f : A -> result B) (l : list A) :
  (forall a, decode_error_only (f a)) -> decode_error_only (mapM f l).
Proof.
  unfold decode_error_only. intros Hf.
  induction l as [|a l IH]; simpl; intros e; [discriminate|].
  destruct (f a) as [b|e'] eqn:Fa; simpl.
  - destruct (mapM f l) as [bs|e'']; simpl; [discriminate|].
    intros [= <-]. now apply IH.
  - intros [= <-]. now apply (Hf a).
Qed.

Lemma mapM_map {A B C : Type} (g : A -> B) (f : B -> result C) (l : list A) :
  mapM f (map g l) = mapM (fun a => f (g a)) l.
Proof. induction l as [|a l IH]; simpl; [reflexivity | now rewrite IH]. Qed.

Section OrderBy.
Context {A : Type}.
Variable key : A -> Z.

Lemma insert_desc_perm (x : A) (l : list A) :
  Permutation (x :: l) (insert_desc key x l).
Proof.
  induction l as [|y l IH]; simpl; [reflexivity|].
  destruct (key x <? key y); [|reflexivity].
  rewrite perm_swap. now constructor.
Qed.

Lemma order_by_desc_perm (l : list A) : Permutation l (order_by_desc key l).
Proof.
  induction l as [|x l IH]; simpl; [reflexivity|].
  rewrite <- insert_desc_perm. now constructor.
Qed.

Lemma order_by_desc_In (x : A) (l : list A) : In x (order_by_desc key l) <-> In x l.
Proof.
  split; apply Permutation_in; [symmetry|]; apply order_by_desc_perm.
Qed.

(** A row appended with a key above all others comes out first. *)
Lemma order_by_desc_newest (l : list A) (x : A) :
  (forall y, In y l -> key y < key x) ->
  order_by_desc key (l ++ [x]) = x :: order_by_desc key l.
Proof.
  induction l as [|y l IH]; simpl; intros Hlt; [reflexivity|].
  rewrite IH by auto. simpl.
  destruct (Z.ltb_spec (key y) (key x)) as [_|Hge]; [reflexivity|].
  specialize (Hlt y (or_introl eq_refl)). lia.
Qed.
End OrderBy.

Lemma order_by_desc_map {A B : Type} (f : A -> B) (key : B -> Z) (l : list A) :
  order_by_desc key (map f l) = map f (order_by_desc (fun a => key (f a)) l).
Proof.
  induction l as [|x l IH]; simpl; [reflexivity|].
  rewrite IH. generalize (order_by_desc (fun a => key (f a)) l) as s.
  induction s as [|y s IHs]; simpl; [reflexivity|].
  destruct (key (f x) <? key (f y)); simpl; [now rewrite IHs | reflexivity].
Qed.

Lemma left_join_fst (envs : list Environments.row) (e : Errors.row)
  (p : Errors.row * option Environments.row) :
  In p (left_join envs e) -> fst p = e.
Proof.
  unfold left_join.
  destruct (filter _ envs) as [|env ms].
  - now intros [<- | []].
  - intros Hp. apply in_map_iff in Hp as (x & <- & _). reflexivity.
Qed.

Lemma left_join_nonempty (envs : list Environments.row) (e : Errors.row) :
  exists p, In p (left_join envs e).
Proof.
  unfold left_join.
  destruct (filter _ envs) as [|env ms]; simpl; eauto.
Qed.

(** The errors behind the rows of the first query are the rows of
    [errors], each at least once. *)
Lemma query_all_errors_covers (db : database) (v : error_view (option string)) :
  (exists r, In r (query_all_errors db) /\ jv_error r = v)
  <-> (exists e, In e (errors db) /\ select_error e = v).
Proof.
  unfold query_all_errors. split.
  - intros (r & Hr & <-).
    apply in_map_iff in Hr as (p & <- & Hp).
    apply order_by_desc_In, in_flat_map in Hp as (e & He & Hp).
    apply left_join_fst in Hp. exists e. split; [exact He|].
    simpl. now rewrite Hp.
  - intros (e & He & <-).
    destruct (left_join_nonempty (environments db) e) as [p Hp].
    exists (select_joined p). split.
    + apply in_map, order_by_desc_In, in_flat_map. eauto.
    + simpl. now rewrite (left_join_fst _ _ _ Hp).
Qed.

Lemma load_tags_decode_error_only (depth : nat) (x : option string) : decode_error_only (load_tags depth x).
Proof.
  unfold decode_error_only. intros e.
  destruct x as [[|c s]|]; simpl; try discriminate.
  apply json_loads_decode_error_only.
Qed.

Lemma decode_view_decode_error_only (depth : nat) (v : error_view (option string)) :
  decode_error_only (decode_view depth v).
Proof.
  unfold decode_error_only, decode_view. intros e H.
  apply bind_raise in H as [H | (t & _ & H)]; [|discriminate].
  now apply load_tags_decode_error_only in H.
Qed.

Lemma decode_joined_decode_error_only (depth : nat) (r : joined_view (option string)) :
  decode_error_only (decode_joined depth r).
Proof.
  unfold decode_error_only, decode_joined. intros e H.
  apply bind_raise in H as [H | (t & _ & H)]; [|discriminate].
  now apply decode_view_decode_error_only in H.
Qed.

Lemma decode_view_ok_iff (depth : nat) (v : error_view (option string)) :
  (exists w, decode_view depth v = Ok w) <-> (exists t, load_tags depth (v_tags v) = Ok t).
Proof.
  unfold decode_view. destruct (load_tags depth (v_tags v)); simpl; split;
    intros [x H]; try discriminate; eauto.
Qed.

Lemma decode_joined_ok_iff (depth : nat) (r : joined_view (option string)) :
  (exists w, decode_joined depth r = Ok w) <-> (exists t, load_tags depth (v_tags (jv_error r)) = Ok t).
Proof.
  rewrite <- decode_view_ok_iff. unfold decode_joined.
  destruct (decode_view depth (jv_error r)); simpl; split;
    intros [x H]; try discriminate; eauto.
Qed.

Lemma get_all_errors_ok_iff (depth : nat) (db : database) :
  (exists rows, get_all_errors depth db = Ok rows) <-> tags_decode depth db.
Proof.
  unfold get_all_errors, tags_decode. rewrite mapM_ok_iff. split.
  - intros H e He.
    destruct (proj2 (query_all_errors_covers db (select_error e))) as (r & Hr & Hv);
      [eauto|].
    apply H, decode_joined_ok_iff in Hr. now rewrite Hv in Hr.
  - intros H r Hr. apply decode_joined_ok_iff.
    destruct (proj1 (query_all_errors_covers db (jv_error r))) as (e & He & Hv);
      [eauto|].
    rewrite <- Hv. now apply H.
Qed.

(** For an id SQLite can hold, the listing of an environment is the
    decoded query. *)
Lemma get_errors_by_environment_bound (depth : nat) (db : database) (env_id : Z) :
  - 2 ^ 63 <= env_id < 2 ^ 63 ->
  get_errors_by_environment depth db env_id
  = mapM (decode_view depth) (query_errors_by_environment db env_id).
Proof.
  intros H. apply sqlite_integer_iff in H. unfold get_errors_by_environment.
  now rewrite H.
Qed.

Lemma get_errors_by_environment_unbound (depth : nat) (db : database) (env_id : Z) :
  ~ (- 2 ^ 63 <= env_id < 2 ^ 63) ->
  get_errors_by_environment depth db env_id = Raise DatabaseError.
Proof.
  intros H. unfold get_errors_by_environment.
  destruct (sqlite_integer env_id) eqn:E; [|reflexivity].
  apply sqlite_integer_iff in E. contradiction.
Qed.

Lemma get_errors_by_environment_ok_iff (depth : nat) (db : database) (env_id : Z) :
  - 2 ^ 63 <= env_id < 2 ^ 63 ->
  (exists rows, get_errors_by_environment depth db env_id = Ok rows)
  <-> (forall e, In e (errors db) ->
         Errors.environment_id e = Some env_id ->
         exists t, load_tags depth (Errors.tags e) = Ok t).
Proof.
  intros Hrange. rewrite (get_errors_by_environment_bound depth db env_id Hrange).
  unfold query_errors_by_environment.
  rewrite mapM_ok_iff. split.
  - intros H e He Henv.
    apply (decode_view_ok_iff depth (select_error e)), H.
    apply in_map, order_by_desc_In, filter_In. split; [exact He|].
    rewrite Henv. simpl. apply Z.eqb_refl.
  - intros H v Hv. apply decode_view_ok_iff.
    apply in_map_iff in Hv as (e & <- & He).
    apply order_by_desc_In, filter_In in He as [He Henv].
    apply H; [exact He|].
    unfold sql_int_eq in Henv.
    destruct (Errors.environment_id e) as [n|]; [|discriminate].
    now apply Z.eqb_eq in Henv as ->.
Qed.

(** *** The states the application writes *)

Lemma next_rowid_fresh (seq : Z) (ids : list Z) (x : Z) :
  In x ids -> x < next_rowid seq ids.
Proof.
  unfold next_rowid. induction ids as [|y ids IH]; simpl; [contradiction|].
  intros [-> | Hx]; [lia|]. specialize (IH Hx). lia.
Qed.

Lemma save_error_spec (db db' : database) (ed : error_data) (now : Z) :
  save_error db ed now = Ok db' ->
  exists r : Errors.row,
    errors db' = errors db ++ [r]
    /\ Errors.id r = next_rowid (errors_seq db) (map Errors.id (errors db))
    /\ Errors.tags r = tags_str ed.
Proof.
  intros H. destruct (save_error_inv _ _ _ _ H) as (name & Hname & Hbind).
  rewrite (save_error_returns db ed name now Hname Hbind) in H.
  injection H as <-. eexists. repeat split.
Qed.

(** An operation leaves [errors] alone or appends one row, with a new id
    and with the tags [save_error] serialized. *)
Lemma run_errors (db : database) (op : operation) :
  errors (run db op) = errors db
  \/ exists (r : Errors.row) (ed : error_data),
       errors (run db op) = errors db ++ [r]
       /\ Errors.id r = next_rowid (errors_seq db) (map Errors.id (errors db))
       /\ Errors.tags r = tags_str ed.
Proof.
  destruct op as [|e now|ed now|env_id f now| | |env_id]; simpl;
    try (now left).
  - rewrite (env_info_eta e).
    destruct (get_or_create_spec db (ei_python_version e) (ei_platform e)
                (ei_modules e) now) as (r & db1 & -> & _ & Hcase).
    left. now destruct Hcase as [[_ ->] | (_ & _ & _ & -> & _)].
  - destruct (save_error db ed now) as [db'|] eqn:Hs; [|now left].
    right. apply save_error_spec in Hs as (r & H). now exists r, ed.
  - unfold submit_error_form.
    destruct (negb (truthy (f_error_name f)) || negb (truthy (f_description f)));
      simpl; [now left|].
    destruct (save_error db (form_error_data env_id f) now) as [db'|] eqn:Hs;
      simpl; [|now left].
    right. apply save_error_spec in Hs as (r & H).
    now exists r, (form_error_data env_id f).
Qed.

Lemma run_environment_ids (db : database) (op : operation) :
  environments (run db op) = environments db
  \/ exists r : Environments.row,
       environments (run db op) = environments db ++ [r]
       /\ Environments.id r
          = next_rowid (environments_seq db) (map Environments.id (environments db)).
Proof.
  destruct op as [|e now|ed now|env_id f now| | |env_id]; simpl;
    try (now left).
  - rewrite (env_info_eta e).
    destruct (get_or_create_spec db (ei_python_version e) (ei_platform e)
                (ei_modules e) now) as (r & db1 & -> & _ & Hcase).
    destruct Hcase as [[_ ->] | (_ & Hr & Happ & _)]; [now left | right].
    exists r. split; [exact Happ | now rewrite Hr].
  - destruct (save_error db ed now) as [db'|] eqn:Hs; [|now left].
    left. now apply save_error_environments in Hs.
  - unfold submit_error_form.
    destruct (negb (truthy (f_error_name f)) || negb (truthy (f_description f)));
      simpl; [now left|].
    destruct (save_error db (form_error_data env_id f) now) as [db'|] eqn:Hs;
      simpl; [|now left].
    left. now apply save_error_environments in Hs.
Qed.

Lemma NoDup_snoc_fresh_id (ids : list Z) (seq : Z) :
  NoDup ids -> NoDup (ids ++ [next_rowid seq ids]).
Proof.
  intros H. apply NoDup_snoc; [exact H|].
  intros Hin. apply (next_rowid_fresh seq) in Hin. lia.
Qed.

(** The primary keys hold in every state the application reaches. *)
Lemma reachable_primary_keys (db : database) : reachable db -> primary_keys db.
Proof.
  induction 1 as [|db op _ [IHenv IHerr]].
  - split; constructor.
  - split.
    + destruct (run_environment_ids db op) as [-> | (r & -> & Hid)]; [exact IHenv|].
      rewrite map_app. simpl. rewrite Hid. now apply NoDup_snoc_fresh_id.
    + destruct (run_errors db op) as [-> | (r & ed & -> & Hid & _)]; [exact IHerr|].
      rewrite map_app. simpl. rewrite Hid. now apply NoDup_snoc_fresh_id.
Qed.

(** So do the [tags] cells: the application only stores what
    [json.dumps] gave it, or NULL. *)
Lemma reachable_tags_decode (depth : nat) (db : database) :
  reachable db -> tags_decode (S depth) db.
Proof.
  unfold tags_decode. induction 1 as [|db op _ IH]; [intros e []|].
  destruct (run_errors db op) as [-> | (r & ed & -> & _ & Htags)]; [exact IH|].
  intros e He. apply in_app_or in He as [He | [<- | []]]; [now apply IH|].
  rewrite Htags, load_tags_tags_str. eauto.
Qed.

(** C4, as stated, fails: one row whose [tags] cell is not JSON makes both
    listings raise, although the other row of the table is valid. *)
Lemma malformed_tags_abort_the_listing :
  get_all_errors sample_depth database_with_malformed_tags = Raise JSONDecodeError
  /\ get_errors_by_environment sample_depth database_with_malformed_tags 1
     = Raise JSONDecodeError
  /\ (exists rows, get_all_errors sample_depth sample_database = Ok rows).
Proof. vm_compute. repeat split. eexists. reflexivity. Qed.

(** C4, amended. A NULL or empty [tags] cell reads as the empty list.
    [get_all_errors] returns a frame exactly when [json.loads] returns
    for the [tags] cell of every row of [errors], and
    [get_errors_by_environment], asked for an id SQLite can hold, exactly
    when it does for every row of that environment.  Otherwise the
    exception of the decoder leaves the function: [JSONDecodeError] for
    text that is not JSON, [RecursionError] for arrays and objects nested
    deeper than the interpreter allows where the listing runs, [ValueError]
    for an integer of more than 4300 digits.  An id outside SQLite's
    integers makes [get_errors_by_environment] raise before it reads
    anything.  In the states the application itself reaches every cell is
    a list of strings: where the interpreter lets the decoder enter one
    array, both listings return. *)
Theorem listings_return_iff_tags_decode :
  forall (depth : nat) (db : database),
    load_tags depth None = Ok (JArray [])
    /\ load_tags depth (Some "") = Ok (JArray [])
    /\ ((exists rows, get_all_errors depth db = Ok rows)
        <-> (forall e, In e (errors db) -> exists t, load_tags depth (Errors.tags e) = Ok t))
    /\ (forall env_id : Z,
          - 2 ^ 63 <= env_id < 2 ^ 63 ->
          (exists rows, get_errors_by_environment depth db env_id = Ok rows)
          <-> (forall e, In e (errors db) ->
                 Errors.environment_id e = Some env_id ->
                 exists t, load_tags depth (Errors.tags e) = Ok t))
    /\ (forall env_id : Z,
          ~ (- 2 ^ 63 <= env_id < 2 ^ 63) ->
          get_errors_by_environment depth db env_id = Raise DatabaseError)
    /\ (forall e, get_all_errors depth db = Raise e ->
          e = JSONDecodeError \/ e = RecursionError \/ e = ValueError)
    /\ (forall env_id e,
          - 2 ^ 63 <= env_id < 2 ^ 63 ->
          get_errors_by_environment depth db env_id = Raise e ->
          e = JSONDecodeError \/ e = RecursionError \/ e = ValueError)
    /\ (reachable db ->
        (exists rows, get_all_errors (S depth) db = Ok rows)
        /\ forall env_id,
             - 2 ^ 63 <= env_id < 2 ^ 63 ->
             exists rows, get_errors_by_environment (S depth) db env_id = Ok rows).
Proof.
  intros depth db. split; [reflexivity|]. split; [reflexivity|].
  split; [apply get_all_errors_ok_iff|].
  split; [apply get_errors_by_environment_ok_iff|].
  split; [apply get_errors_by_environment_unbound|].
  split; [|split].
  - apply mapM_decode_error_only, decode_joined_decode_error_only.
  - intros env_id e Hrange. rewrite (get_errors_by_environment_bound _ _ _ Hrange).
    apply mapM_decode_error_only, decode_view_decode_error_only.
  - intros Hreach. apply (reachable_tags_decode depth) in Hreach. split.
    + now apply get_all_errors_ok_iff.
    + intros env_id Hrange. apply get_errors_by_environment_ok_iff; auto.
Qed.

Lemma listings_return_iff_tags_decode_witness :
  (exists rows, get_all_errors (S sample_depth) sample_database = Ok rows)
  /\ forall env_id,
       - 2 ^ 63 <= env_id < 2 ^ 63 ->
       exists rows, get_errors_by_environment (S sample_depth) sample_database env_id = Ok rows.
Proof.
  apply (listings_return_iff_tags_decode sample_depth sample_database).
  unfold sample_database. repeat apply reachable_run. apply reachable_init.
Defined.

(** The three exceptions of the decoder, each on one cell: text that is
    not JSON, three arrays inside one another where two are allowed, and
    an integer of 4301 digits. *)
Lemma load_tags_exceptions :
  load_tags sample_depth (Some "[dict") = Raise JSONDecodeError
  /\ load_tags 2 (Some "[[[]]]") = Raise RecursionError
  /\ load_tags 3 (Some "[[[]]]") = Ok (JArray [JArray [JArray []]])
  /\ load_tags sample_depth
       (Some ("[" ++ string_of_list_ascii (repeat "9"%char 4301) ++ "]")%string)
     = Raise ValueError
  /\ (exists n,
        load_tags sample_depth
          (Some ("[" ++ string_of_list_ascii (repeat "9"%char 4300) ++ "]")%string)
        = Ok (JArray [JInt n])).
Proof. vm_compute. repeat split. eexists. reflexivity. Qed.

(** ** The two queries compared *)

Section OrderByFilter.
Context {A : Type}.
Variables (key : A -> Z) (p : A -> bool).

Lemma insert_desc_newest_first (x : A) (l : list A) :
  newest_first key l -> newest_first key (insert_desc key x l).
Proof.
  unfold newest_first. induction 1 as [|y l Hl IH Hy]; simpl.
  - repeat constructor.
  - destruct (Z.ltb_spec (key x) (key y)) as [Hlt|Hge].
    + constructor; [exact IH|].
      rewrite <- (insert_desc_perm key x l). constructor; [lia | exact Hy].
    + constructor; [now constructor|].
      constructor; [exact Hge|].
      rewrite Forall_forall in *. intros z Hz. specialize (Hy z Hz). lia.
Qed.

Lemma order_by_desc_newest_first (l : list A) : newest_first key (order_by_desc key l).
Proof.
  induction l as [|x l IH]; simpl; [constructor | now apply insert_desc_newest_first].
Qed.

Lemma insert_desc_head (x : A) (l : list A) :
  Forall (fun y => key y <= key x) l -> insert_desc key x l = x :: l.
Proof.
  destruct l as [|y l]; simpl; [reflexivity|].
  intros H. inversion H as [|? ? Hy _]; subst.
  destruct (Z.ltb_spec (key x) (key y)); [lia | reflexivity].
Qed.

Lemma filter_insert_desc (x : A) (l : list A) :
  newest_first key l ->
  filter p (insert_desc key x l)
  = if p x then insert_desc key x (filter p l) else filter p l.
Proof.
  unfold newest_first. induction 1 as [|y l Hl IH Hy]; simpl.
  - now destruct (p x).
  - destruct (Z.ltb_spec (key x) (key y)) as [Hlt|Hge]; simpl.
    + rewrite IH. destruct (p y), (p x); simpl; try reflexivity.
      destruct (Z.ltb_spec (key x) (key y)); [reflexivity | lia].
    + destruct (p x); [|reflexivity].
      symmetry. apply insert_desc_head.
      assert (Hall : Forall (fun z => key z <= key x) (y :: l)).
      { constructor; [exact Hge|].
        rewrite Forall_forall in *. intros z Hz. specialize (Hy z Hz). lia. }
      change (Forall (fun z => key z <= key x) (filter p (y :: l))).
      rewrite Forall_forall in *. intros z Hz.
      apply filter_In in Hz as [Hz _]. now apply Hall.
Qed.

(** Selecting rows and ordering them commute: the order kept among equal
    keys is the order of the table in both cases. *)
Lemma filter_order_by_desc (l : list A) :
  filter p (order_by_desc key l) = order_by_desc key (filter p l).
Proof.
  induction l as [|x l IH]; simpl; [reflexivity|].
  rewrite filter_insert_desc by apply order_by_desc_newest_first.
  rewrite IH. now destruct (p x).
Qed.
End OrderByFilter.

Section Keys.
Context {A : Type}.
Variable f : A -> Z.

Lemma find_by_key (l : list A) (a : A) :
  NoDup (map f l) -> In a l -> find (fun x => f x =? f a) l = Some a.
Proof.
  induction l as [|y l IH]; simpl; intros Hnd Hin; [contradiction|].
  inversion Hnd as [|? ? Hy Hl]; subst.
  destruct Hin as [-> | Hin].
  - now rewrite Z.eqb_refl.
  - destruct (Z.eqb_spec (f y) (f a)) as [E|_]; [|now apply IH].
    elim Hy. rewrite E. now apply in_map.
Qed.

Lemma filter_by_key (l : list A) (x : option Z) :
  NoDup (map f l) ->
  filter (fun a => sql_int_eq x (f a)) l
  = match find (fun a => sql_int_eq x (f a)) l with
    | Some a => [a]
    | None => []
    end.
Proof.
  induction l as [|y l IH]; simpl; intros Hnd; [reflexivity|].
  inversion Hnd as [|? ? Hy Hl]; subst.
  destruct (sql_int_eq x (f y)) eqn:Hxy; [|now apply IH].
  f_equal. apply find_none_filter.
  destruct (find (fun a => sql_int_eq x (f a)) l) as [a|] eqn:Hf; [|reflexivity].
  apply find_some in Hf as [Hin Hxa]. elim Hy.
  destruct x as [n|]; [|discriminate]. simpl in *.
  apply Z.eqb_eq in Hxy, Hxa. rewrite <- Hxy, Hxa. now apply in_map.
Qed.
End Keys.

(** With a primary key on [environments] the join attaches to every
    error the one environment its foreign key names, or none. *)
Lemma left_join_primary_key (db : database) (e : Errors.row) :
  NoDup (map Environments.id (environments db)) ->
  left_join (environments db) e
  = [(e, joined_environment db (Errors.environment_id e))].
Proof.
  intros Hnd. unfold left_join, joined_environment.
  rewrite (filter_by_key Environments.id _ _ Hnd).
  now destruct (find _ (environments db)).
Qed.

Lemma flat_map_singleton {A B : Type} (f : A -> list B) (g : A -> B) (l : list A) :
  (forall a, In a l -> f a = [g a]) -> flat_map f l = map g l.
Proof.
  induction l as [|a l IH]; simpl; intros H; [reflexivity|].
  rewrite (H a (or_introl eq_refl)), IH; auto.
Qed.

(** The first query over a table with primary keys: one row per error, in
    the order of [created_at]. *)
Lemma query_all_errors_primary_key (db : database) :
  NoDup (map Environments.id (environments db)) ->
  query_all_errors db
  = map (fun e => select_joined (e, joined_environment db (Errors.environment_id e)))
      (order_by_desc Errors.created_at (errors db)).
Proof.
  intros Hnd. unfold query_all_errors.
  rewrite (flat_map_singleton _
             (fun e => (e, joined_environment db (Errors.environment_id e))))
    by (intros; now apply left_join_primary_key).
  rewrite order_by_desc_map, map_map. reflexivity.
Qed.

Lemma mapM_filter {A B C : Type} (F : A -> result B) (G : A -> result C)
  (h : B -> C) (p : A -> bool) (q : B -> bool) (l : list A) (rows : list B) :
  (forall a b, In a l -> F a = Ok b -> G a = Ok (h b) /\ q b = p a) ->
  mapM F l = Ok rows ->
  mapM G (filter p l) = Ok (map h (filter q rows)).
Proof.
  revert rows. induction l as [|a l IH]; simpl; intros rows H.
  - now intros [= <-].
  - destruct (F a) as [b|] eqn:Fa; simpl; [|discriminate].
    destruct (mapM F l) as [bs|] eqn:Fl; simpl; [|discriminate].
    intros [= <-].
    destruct (H a b (or_introl eq_refl) Fa) as [Ga Hq].
    simpl. rewrite Hq.
    specialize (IH bs (fun x y Hx => H x y (or_intror Hx)) eq_refl).
    destruct (p a); simpl; [now rewrite Ga, IH | exact IH].
Qed.

Lemma errors_by_environment_filter (depth : nat) (db : database) (env_id : Z)
  (rows : list (joined_view json)) :
  - 2 ^ 63 <= env_id < 2 ^ 63 ->
  primary_keys db ->
  get_all_errors depth db = Ok rows ->
  get_errors_by_environment depth db env_id
  = Ok (map jv_error (filter (stored_in_environment db env_id) rows)).
Proof.
  intros Hrange [Henvs Herrs] Hall.
  unfold get_all_errors in Hall.
  rewrite (query_all_errors_primary_key db Henvs), mapM_map in Hall.
  rewrite (get_errors_by_environment_bound depth db env_id Hrange).
  unfold query_errors_by_environment.
  rewrite <- filter_order_by_desc, mapM_map.
  refine (mapM_filter _ _ jv_error _ _ _ rows _ Hall).
  intros e r He Hr.
  apply order_by_desc_In in He.
  unfold decode_joined in Hr. simpl in Hr.
  destruct (decode_view depth (select_error e)) as [w|] eqn:Hw; simpl in Hr; [|discriminate].
  injection Hr as <-. simpl. split; [reflexivity|].
  assert (Hid : v_id w = Errors.id e).
  { unfold decode_view in Hw.
    destruct (load_tags depth (v_tags (select_error e))); simpl in Hw; [|discriminate].
    now injection Hw as <-. }
  unfold stored_in_environment, environment_of. cbn [jv_error].
  rewrite Hid, (find_by_key Errors.id _ _ Herrs He). reflexivity.
Qed.

(** ** What the frame of [get_all_errors] shows of the environment *)

(** The rows the join yields for an error depend on its foreign key only
    through the version and platform of the environments it matches. *)
Lemma joined_rows_depend_on_columns (db : database) (e e' : Errors.row) :
  select_error e' = select_error e ->
  joined_columns db (Errors.environment_id e')
  = joined_columns db (Errors.environment_id e) ->
  map select_joined (left_join (environments db) e')
  = map select_joined (left_join (environments db) e).
Proof.
  unfold joined_columns, left_join. intros Hsel Hcols.
  set (g := fun env => (Environments.python_version env, Environments.platform env)) in *.
  set (h := fun c : string * option string =>
              mk_joined_view (select_error e) (Some (fst c)) (snd c)).
  assert (Hrows : forall (e0 : Errors.row) (ms : list Environments.row),
             select_error e0 = select_error e ->
             map select_joined (map (fun env => (e0, Some env)) ms) = map h (map g ms)).
  { intros e0 ms H0. rewrite !map_map. apply map_ext. intros env.
    unfold select_joined, h, g. simpl. now rewrite H0. }
  destruct (filter _ (environments db)) as [|a l] eqn:F';
    destruct (filter (fun env => sql_int_eq (Errors.environment_id e) _) (environments db))
      as [|b l'] eqn:F; try discriminate Hcols.
  - unfold select_joined. simpl. now rewrite Hsel.
  - rewrite (Hrows e' (a :: l) Hsel), (Hrows e (b :: l') eq_refl). now rewrite Hcols.
Qed.

Lemma map_flat_map {A B C : Type} (f : B -> C) (g : A -> list B) (l : list A) :
  map f (flat_map g l) = flat_map (fun a => map f (g a)) l.
Proof.
  induction l as [|a l IH]; simpl; [reflexivity|].
  now rewrite map_app, IH.
Qed.

Lemma query_all_errors_as_flat_map (db : database) :
  query_all_errors db
  = order_by_desc (fun r => v_created_at (jv_error r))
      (flat_map (fun e => map select_joined (left_join (environments db) e)) (errors db)).
Proof.
  unfold query_all_errors.
  now rewrite <- map_flat_map, order_by_desc_map.
Qed.

Lemma flat_map_replace {A B : Type} (f : A -> list B) (l1 l2 : list A) (a a' : A) :
  f a' = f a -> flat_map f (l1 ++ a' :: l2) = flat_map f (l1 ++ a :: l2).
Proof. intros H. rewrite !flat_map_app. simpl. now rewrite H. Qed.

(** C10. Every row of the frame [get_all_errors] returns has the thirteen
    columns of the select list: [python_version] and [platform] are among
    them, [environment_id] is not, and the "View Errors" page prints its
    default for it.  The frame depends on the stored environment id of an
    error only through the version and platform the join finds: storing
    another id that the join resolves to the same two values gives the
    same frame. *)
Theorem environment_id_is_not_in_the_frame :
  forall (depth : nat) (db : database),
    (forall (rows : list (joined_view json)) (r : joined_view json),
        get_all_errors depth db = Ok rows -> In r rows ->
        columns r = ["id"; "error_name"; "description"; "error_type"; "traceback";
                     "fix"; "complexity"; "status"; "tags"; "created_at";
                     "updated_at"; "python_version"; "platform"]%string
        /\ series_get (series r) "python_version" CNull = text_cell (jv_python_version r)
        /\ series_get (series r) "platform" CNull = text_cell (jv_platform r)
        /\ ~ In "environment_id"%string (columns r)
        /\ shown_environment_id r = CText "N/A")
    /\ (forall (l1 l2 : list Errors.row) (e : Errors.row) (x : option Z),
          errors db = l1 ++ e :: l2 ->
          joined_columns db x = joined_columns db (Errors.environment_id e) ->
          get_all_errors depth (with_errors db (l1 ++ set_environment_id e x :: l2))
          = get_all_errors depth db).
Proof.
  intros depth db. split.
  - intros rows r _ _. repeat split.
    unfold columns. simpl. intuition discriminate.
  - intros l1 l2 e x Herrs Hcols.
    unfold get_all_errors. f_equal.
    rewrite !query_all_errors_as_flat_map. f_equal.
    rewrite Herrs. simpl.
    apply flat_map_replace.
    now apply (joined_rows_depend_on_columns db e (set_environment_id e x)).
Qed.

Lemma environment_id_is_not_in_the_frame_witness :
  get_all_errors sample_depth
    (with_errors two_environments ([] ++ set_environment_id sample_error_row (Some 2) :: []))
  = get_all_errors sample_depth two_environments.
Proof.
  apply (proj2 (environment_id_is_not_in_the_frame sample_depth two_environments)
           [] [] sample_error_row (Some 2)); reflexivity.
Defined.

(** ** A saved record read back *)

(** C2, as stated, fails: a record saved in the very second in which the
    newest stored record was created has no record after it in time and
    still is listed second, after the older one. *)
Lemma record_saved_in_the_same_second_is_not_first :
  (forall e, In e (errors sample_database) -> Errors.created_at e <= 100)
  /\ save_error sample_database other_error_data 100 = Ok saved_in_the_same_second
  /\ get_all_errors sample_depth saved_in_the_same_second
     = Ok (frame_of saved_in_the_same_second)
  /\ map (fun r => v_error_name (jv_error r)) (frame_of saved_in_the_same_second)
     = ["KeyError: 'x'"; "TypeError: bad operand"]%string.
Proof.
  split.
  - intros e [<- | []]. vm_compute. discriminate.
  - repeat split; vm_compute; reflexivity.
Qed.

Lemma saved_error_first (depth : nat) (db : database) (ed : error_data) (name : string)
  (now : Z) (old : list (joined_view json)) :
  NoDup (map Environments.id (environments db)) ->
  get (ed_error_name ed) = Some name ->
  bindable (get (ed_environment_id ed)) = true ->
  (forall e, In e (errors db) -> Errors.created_at e < now) ->
  get_all_errors (S depth) db = Ok old ->
  exists db' : database,
    save_error db ed now = Ok db'
    /\ get_all_errors (S depth) db' = Ok (saved_view db ed name now :: old).
Proof.
  intros Hpk Hname Hbind Hnewest Hold.
  rewrite (save_error_returns db ed name now Hname Hbind).
  eexists. split; [reflexivity|].
  unfold get_all_errors in *.
  rewrite query_all_errors_primary_key in * by exact Hpk.
  cbn [errors environments].
  rewrite order_by_desc_newest by exact Hnewest.
  cbn [map]. apply mapM_cons_ok; [|exact Hold].
  unfold decode_joined, decode_view, select_joined, select_error.
  cbn [bind jv_error v_tags Errors.tags fst snd].
  rewrite load_tags_tags_str. cbn [bind].
  unfold saved_view, with_tags, get_default. cbn.
  now destruct (ed_status ed).
Qed.

(** C2, amended. On a database whose [environments] have their primary
    key and whose stored records were all created strictly before [now],
    [save_error], given a name and an environment id that is absent or an
    integer SQLite can hold, followed by [get_all_errors] returns the
    saved record as the first row, in front of the rows listed before:
    the name, the description, the error type, the traceback, the fix,
    the complexity and the status are the supplied ones (the status
    "Open" when the key is absent), the tags are the supplied list of
    strings in order (empty when none were supplied), and the environment
    is read back as the version and platform of the environment row the
    supplied id names, not as the id.  The listing is run where the
    interpreter lets the decoder enter one array, which a list of tags
    needs.  In every state the application reaches the primary key holds
    and the listing returns, so only the conditions on the record and on
    the timestamps are left. *)
Theorem saved_error_is_listed_first :
  forall (depth : nat) (db : database) (ed : error_data) (name : string) (now : Z),
    get (ed_error_name ed) = Some name ->
    (forall n, get (ed_environment_id ed) = Some n -> - 2 ^ 63 <= n < 2 ^ 63) ->
    (forall e, In e (errors db) -> Errors.created_at e < now) ->
    (forall old : list (joined_view json),
        NoDup (map Environments.id (environments db)) ->
        get_all_errors (S depth) db = Ok old ->
        exists db' : database,
          save_error db ed now = Ok db'
          /\ get_all_errors (S depth) db' = Ok (saved_view db ed name now :: old))
    /\ (reachable db ->
        exists (db' : database) (old : list (joined_view json)),
          get_all_errors (S depth) db = Ok old
          /\ save_error db ed now = Ok db'
          /\ get_all_errors (S depth) db' = Ok (saved_view db ed name now :: old)).
Proof.
  intros depth db ed name now Hname Hrange Hnewest.
  apply bindable_iff in Hrange. split.
  - intros old Hpk Hold. now apply saved_error_first.
  - intros Hreach.
    destruct (proj2 (get_all_errors_ok_iff (S depth) db)
                (reachable_tags_decode depth db Hreach)) as [old Hold].
    destruct (saved_error_first depth db ed name now old) as (db' & Hsave & Hlist);
      try assumption.
    { apply (reachable_primary_keys db Hreach). }
    exists db', old. auto.
Qed.

Lemma saved_error_is_listed_first_witness :
  exists (db' : database) (old : list (joined_view json)),
    get_all_errors (S sample_depth) sample_database = Ok old
    /\ save_error sample_database other_error_data 101 = Ok db'
    /\ get_all_errors (S sample_depth) db'
       = Ok (saved_view sample_database other_error_data "TypeError: bad operand" 101
             :: old).
Proof.
  apply (proj2 (saved_error_is_listed_first sample_depth sample_database other_error_data
                  "TypeError: bad operand" 101 eq_refl
                  ltac:(intros n [= <-]; lia)
                  ltac:(intros e [<- | []]; vm_compute; reflexivity))).
  unfold sample_database. repeat apply reachable_run. apply reachable_init.
Defined.

(** ** The search box *)

Lemma atoms_of_plain (term : string) :
  is_plain term = true ->
  atoms_of term = Some (map Literal (list_ascii_of_string term)).
Proof.
  induction term as [|c term IH]; simpl; [reflexivity|].
  intros H. apply andb_true_iff in H as [Hc Hterm].
  apply negb_true_iff in Hc.
  destruct (Ascii.eqb_spec c ".") as [->|_]; [discriminate Hc|].
  now rewrite Hc, (IH Hterm).
Qed.

Lemma match_here_literals (term text : string) :
  match_here (map Literal (list_ascii_of_string term)) text = prefix_icase term text.
Proof.
  revert text. induction term as [|c term IH]; intros [|t text]; simpl;
    try reflexivity.
  now rewrite IH.
Qed.

Lemma re_search_literals (term text : string) :
  re_search (map Literal (list_ascii_of_string term)) text = substring_icase term text.
Proof.
  induction text as [|t text IH]; simpl; rewrite match_here_literals;
    [reflexivity | now rewrite IH].
Qed.

Lemma substring_icase_empty (text : string) : substring_icase "" text = true.
Proof. now destruct text. Qed.

Lemma filter_filter {A : Type} (p q : A -> bool) (l : list A) :
  filter q (filter p l) = filter (fun a => p a && q a) l.
Proof.
  induction l as [|a l IH]; simpl; [reflexivity|].
  destruct (p a); simpl; [destruct (q a)|]; now rewrite IH.
Qed.

Lemma filter_true {A : Type} (l : list A) : filter (fun _ => true) l = l.
Proof. induction l as [|a l IH]; simpl; [reflexivity | now rewrite IH]. Qed.

(** For a term without special characters the page computes the mask the
    specification describes. *)
Lemma apply_filters_plain_term (rows : list (joined_view json)) (w : filters) :
  is_plain (search_term w) = true ->
  apply_filters rows w = Some (Ok (filter (keeps w) rows)).
Proof.
  intros Hplain. unfold apply_filters, re_compile.
  rewrite (atoms_of_plain _ Hplain).
  assert (Hsearch :
    (if truthy (search_term w)
     then Some (Ok (filter (fun r =>
                      contains (map Literal (list_ascii_of_string (search_term w)))
                        (Some (v_error_name (jv_error r)))
                      || contains (map Literal (list_ascii_of_string (search_term w)))
                           (v_description (jv_error r))) rows))
     else Some (Ok rows))
    = Some (Ok (filter (term_in_name_or_description (search_term w)) rows))).
  { destruct (search_term w) as [|c term] eqn:Hterm.
    - simpl. rewrite <- (filter_true rows) at 1. do 2 f_equal.
      apply filter_ext. intros r. unfold term_in_name_or_description.
      now rewrite substring_icase_empty.
    - cbn [truthy]. do 2 f_equal. apply filter_ext. intros r.
      unfold term_in_name_or_description, contains.
      rewrite re_search_literals.
      destruct (v_description (jv_error r)); [now rewrite re_search_literals | reflexivity]. }
  rewrite Hsearch. do 2 f_equal. unfold keeps.
  destruct (filter_status w) as [|s ss], (filter_complexity w) as [|c cs];
    cbn [is_empty orb]; rewrite ?filter_filter; apply filter_ext; intros r;
    rewrite ?andb_true_r, ?andb_assoc; reflexivity.
Qed.

(** C8 on the code. The search term is handed to [str.contains] as a
    regular expression: the term "a.c" keeps a record named "abc" whose
    name and description do not contain it, and the term "(" makes the
    page raise [re.error].  (For a term without special characters, and
    for the two multiselects, the mask is the one claimed:
    [apply_filters_plain_term].) *)
Theorem search_term_is_compiled_as_a_regular_expression :
  apply_filters [abc_view] (mk_filters "a.c" [] []) = Some (Ok [abc_view])
  /\ term_in_name_or_description "a.c" abc_view = false
  /\ keeps (mk_filters "a.c" [] []) abc_view = false
  /\ apply_filters [abc_view] (mk_filters "(" [] []) = Some (Raise ReError).
Proof. repeat split. Qed.

(** * Further properties of the code *)

(** ** What one operation and a sequence of operations write *)

(** One operation changes nothing, or appends one environment with the
    next id, or appends one error with the next id. *)
Lemma run_cases (db : database) (op : operation) :
  run db op = db
  \/ (exists r : Environments.row,
        run db op = {| environments := environments db ++ [r];
                       environments_seq := Environments.id r;
                       errors := errors db;
                       errors_seq := errors_seq db |}
        /\ Environments.id r
           = next_rowid (environments_seq db) (map Environments.id (environments db))
        /\ Environments.platform r <> None
        /\ Environments.modules r <> None)
  \/ (exists r : Errors.row,
        run db op = {| environments := environments db;
                       environments_seq := environments_seq db;
                       errors := errors db ++ [r];
                       errors_seq := Errors.id r |}
        /\ Errors.id r = next_rowid (errors_seq db) (map Errors.id (errors db))
        /\ Errors.updated_at r = Errors.created_at r
        /\ exists ed : error_data, Errors.tags r = tags_str ed).
Proof.
  destruct op as [|e now|ed now|env_id f now| | |env_id]; simpl;
    try (now left).
  - unfold get_or_create_environment, select_environment_id.
    destruct (find _ (environments db)) as [r|] eqn:Hf; simpl; [now left|].
    unfold insert_environment. rewrite (find_none_existsb _ _ Hf).
    right. left.
    exists (Environments.mk
              (next_rowid (environments_seq db) (map Environments.id (environments db)))
              (ei_python_version e) (Some (ei_platform e)) (Some (ei_modules e)) now).
    repeat split; discriminate.
  - destruct (save_error db ed now) as [db'|] eqn:Hs; [|now left].
    destruct (save_error_inv _ _ _ _ Hs) as (name & Hname & Hbind).
    rewrite (save_error_returns db ed name now Hname Hbind) in Hs.
    injection Hs as <-. right. right.
    match goal with |- context [errors db ++ [?r]] => exists r end.
    repeat split. now exists ed.
  - unfold submit_error_form.
    destruct (negb (truthy (f_error_name f)) || negb (truthy (f_description f)));
      simpl; [now left|].
    set (ed := form_error_data env_id f).
    destruct (save_error db ed now) as [db'|] eqn:Hs; simpl; [|now left].
    destruct (save_error_inv _ _ _ _ Hs) as (name & Hname & Hbind).
    rewrite (save_error_returns db ed name now Hname Hbind) in Hs.
    injection Hs as <-. right. right.
    match goal with |- context [errors db ++ [?r]] => exists r end.
    repeat split. now exists ed.
Qed.

Lemma next_rowid_bounded (seq : Z) (ids : list Z) :
  (forall x, In x ids -> x <= seq) -> next_rowid seq ids = seq + 1.
Proof.
  unfold next_rowid. intros H. f_equal.
  induction ids as [|y ids IH]; simpl; [reflexivity|].
  rewrite IH by (intros; apply H; now right).
  specialize (H y (or_introl eq_refl)). lia.
Qed.

Lemma ids_from_one_bounded (n : nat) (x : Z) :
  In x (ids_from_one n) -> 1 <= x <= Z.of_nat n.
Proof.
  unfold ids_from_one. rewrite in_map_iff. intros (k & <- & Hk).
  apply in_seq in Hk. lia.
Qed.

Lemma ids_from_one_succ (n : nat) :
  ids_from_one (S n) = ids_from_one n ++ [Z.of_nat n + 1].
Proof.
  unfold ids_from_one. rewrite seq_S, map_app. simpl. do 2 f_equal. lia.
Qed.

Lemma next_rowid_consecutive (n : nat) :
  next_rowid (Z.of_nat n) (ids_from_one n) = Z.of_nat n + 1.
Proof.
  apply next_rowid_bounded. intros x Hx. apply ids_from_one_bounded in Hx. lia.
Qed.

(** The counters of [sqlite_sequence] and the ids in the reachable
    states. *)
Lemma reachable_consecutive (db : database) :
  reachable db ->
  (map Environments.id (environments db) = ids_from_one (List.length (environments db))
   /\ environments_seq db = Z.of_nat (List.length (environments db)))
  /\ (map Errors.id (errors db) = ids_from_one (List.length (errors db))
      /\ errors_seq db = Z.of_nat (List.length (errors db))).
Proof.
  induction 1 as [|db op _ [[IHe IHes] [IHr IHrs]]]; [repeat split|].
  destruct (run_cases db op) as [-> | [(r & -> & Hid & _) | (r & -> & Hid & _)]];
    [repeat split; assumption | |]; cbn [environments environments_seq errors errors_seq].
  - rewrite IHe, IHes, next_rowid_consecutive in Hid.
    split; [|now split].
    rewrite map_app, length_app, IHe, Nat.add_1_r, ids_from_one_succ. simpl.
    rewrite Hid. split; [reflexivity | lia].
  - rewrite IHr, IHrs, next_rowid_consecutive in Hid.
    split; [now split|].
    rewrite map_app, length_app, IHr, Nat.add_1_r, ids_from_one_succ. simpl.
    rewrite Hid. split; [reflexivity | lia].
Qed.

(** X1. In every state the application reaches the ids of both tables
    are 1, 2, ..., n in the order of insertion: no id is skipped or
    handed out twice, and a failed operation uses none up. *)
Theorem ids_are_consecutive :
  forall db : database,
    reachable db ->
    map Environments.id (environments db) = ids_from_one (List.length (environments db))
    /\ map Errors.id (errors db) = ids_from_one (List.length (errors db)).
Proof.
  intros db H. destruct (reachable_consecutive db H) as [[He _] [Hr _]]. now split.
Qed.

Lemma ids_are_consecutive_witness :
  map Environments.id (environments two_environments)
  = ids_from_one (List.length (environments two_environments))
  /\ map Errors.id (errors two_environments)
     = ids_from_one (List.length (errors two_environments)).
Proof.
  apply (ids_are_consecutive two_environments).
  unfold two_environments. repeat apply reachable_run. apply reachable_init.
Defined.

(** X2. Whatever the database and the operations, nothing stored is ever
    modified or deleted: after a sequence of operations both tables are
    the tables before with rows appended, at most one row per
    operation. *)
Theorem tables_are_append_only :
  forall (ops : list operation) (db : database),
    exists (new_environments : list Environments.row) (new_errors : list Errors.row),
      environments (fold_left run ops db) = environments db ++ new_environments
      /\ errors (fold_left run ops db) = errors db ++ new_errors
      /\ (List.length new_environments + List.length new_errors <= List.length ops)%nat.
Proof.
  induction ops as [|op ops IH]; intros db; simpl.
  - exists [], []. rewrite !app_nil_r. auto.
  - destruct (IH (run db op)) as (l1 & l2 & H1 & H2 & Hlen). rewrite H1, H2.
    destruct (run_cases db op) as [-> | [(r & -> & _) | (r & -> & _)]];
      cbn [environments errors].
    + exists l1, l2. repeat split; lia.
    + exists (r :: l1), l2. rewrite <- app_assoc. repeat split. simpl. lia.
    + exists l1, (r :: l2). rewrite <- app_assoc. repeat split. simpl. lia.
Qed.

(** X3. In every state the application reaches each error has
    [updated_at] equal to [created_at]: both are set by the INSERT and no
    operation writes either again. *)
Theorem updated_at_is_created_at :
  forall db : database,
    reachable db ->
    forall e, In e (errors db) -> Errors.updated_at e = Errors.created_at e.
Proof.
  induction 1 as [|db op _ IH]; [intros e []|].
  destruct (run_cases db op) as [-> | [(r & -> & _) | (r & -> & _ & Hr & _)]];
    cbn [errors]; try exact IH.
  intros e He. apply in_app_or in He as [He | [<- | []]]; [now apply IH | exact Hr].
Qed.

Lemma updated_at_is_created_at_witness :
  Errors.updated_at sample_error_row = Errors.created_at sample_error_row.
Proof.
  apply (updated_at_is_created_at sample_database).
  - unfold sample_database. repeat apply reachable_run. apply reachable_init.
  - left. reflexivity.
Defined.

(** X4. In every state the application reaches the tags of each error
    are NULL or the JSON text of a non-empty list of strings, so that the
    listings, run where the interpreter lets the decoder enter one array,
    decode them to a list of strings: the pages can join and search them
    without a check. *)
Theorem stored_tags_are_lists_of_strings :
  forall (depth : nat) (db : database),
    reachable db ->
    forall e, In e (errors db) ->
      (Errors.tags e = None /\ load_tags depth (Errors.tags e) = Ok (JArray []))
      \/ (exists (t : string) (l : list string),
            Errors.tags e = Some (json_dumps_list (t :: l))
            /\ load_tags (S depth) (Errors.tags e) = Ok (json_of_strings (t :: l))).
Proof.
  intros depth db. induction 1 as [|db op _ IH]; [intros e []|].
  destruct (run_cases db op) as [-> | [(r & -> & _) | (r & -> & _ & _ & ed & Hr)]];
    cbn [errors]; try exact IH.
  intros e He. apply in_app_or in He as [He | [<- | []]]; [now apply IH|].
  rewrite Hr. pose proof (load_tags_tags_str depth ed) as Hl.
  unfold tags_str, supplied_tags in *.
  destruct (get (ed_tags ed)) as [[|t l]|]; [left; now split | | left; now split].
  right. exists t, l. now split.
Qed.

Lemma stored_tags_are_lists_of_strings_witness :
  (Errors.tags sample_error_row = None
   /\ load_tags sample_depth (Errors.tags sample_error_row) = Ok (JArray []))
  \/ (exists (t : string) (l : list string),
        Errors.tags sample_error_row = Some (json_dumps_list (t :: l))
        /\ load_tags (S sample_depth) (Errors.tags sample_error_row)
           = Ok (json_of_strings (t :: l))).
Proof.
  apply (stored_tags_are_lists_of_strings sample_depth sample_database).
  - unfold sample_database. repeat apply reachable_run. apply reachable_init.
  - left. reflexivity.
Defined.

(** ** The listings against the tables *)

Section Rows.
Context {A B : Type}.
Variable f : A -> result B.

Lemma mapM_Forall2 (l : list A) (bs : list B) :
  mapM f l = Ok bs -> Forall2 (fun a b => f a = Ok b) l bs.
Proof.
  revert bs. induction l as [|a l IH]; simpl; intros bs H.
  - injection H as <-. constructor.
  - destruct (f a) as [b|] eqn:Hb; simpl in H; [|discriminate].
    destruct (mapM f l) as [bs'|]; simpl in H; [|discriminate].
    injection H as <-. constructor; auto.
Qed.

End Rows.

Lemma Forall2_map_eq {A B C : Type} (R : A -> B -> Prop) (g : A -> C) (h : B -> C)
  (l : list A) (bs : list B) :
  (forall a b, R a b -> g a = h b) -> Forall2 R l bs -> map g l = map h bs.
Proof.
  intros H. induction 1 as [|a b l bs Hab _ IH]; simpl; [reflexivity|].
  now rewrite (H a b Hab), IH.
Qed.

Lemma Forall2_filter_length {A B : Type} (R : A -> B -> Prop) (p : A -> bool)
  (q : B -> bool) (l : list A) (bs : list B) :
  (forall a b, R a b -> p a = q b) -> Forall2 R l bs ->
  List.length (filter p l) = List.length (filter q bs).
Proof.
  intros H. induction 1 as [|a b l bs Hab _ IH]; simpl; [reflexivity|].
  rewrite (H a b Hab). destruct (q b); simpl; now rewrite IH.
Qed.

Lemma newest_first_map {A : Type} (key : A -> Z) (l : list A) :
  newest_first key l <-> StronglySorted (fun a b => b <= a) (map key l).
Proof.
  unfold newest_first. induction l as [|x l IH]; simpl.
  - split; constructor.
  - split; intros H; inversion H as [|? ? Hs Hf]; subst; constructor;
      try (now apply IH); rewrite Forall_map in *; exact Hf.
Qed.

Lemma newest_first_same_keys {A B : Type} (k : A -> Z) (k' : B -> Z)
  (l : list A) (bs : list B) :
  map k l = map k' bs -> newest_first k l -> newest_first k' bs.
Proof.
  intros H Hl. apply (proj2 (newest_first_map k' bs)). rewrite <- H.
  exact (proj1 (newest_first_map k l) Hl).
Qed.

Lemma decode_view_columns (depth : nat) (v : error_view (option string)) (w : error_view json) :
  decode_view depth v = Ok w ->
  load_tags depth (v_tags v) = Ok (v_tags w) /\ w = with_tags v (v_tags w).
Proof.
  unfold decode_view. destruct (load_tags depth (v_tags v)) as [t|]; simpl; [|discriminate].
  intros H. injection H as <-. now split.
Qed.

Lemma decode_joined_columns (depth : nat) (r : joined_view (option string)) (w : joined_view json) :
  decode_joined depth r = Ok w ->
  decode_view depth (jv_error r) = Ok (jv_error w)
  /\ jv_python_version w = jv_python_version r
  /\ jv_platform w = jv_platform r.
Proof.
  unfold decode_joined. destruct (decode_view depth (jv_error r)) as [v|]; simpl;
    [|discriminate].
  intros H. injection H as <-. now repeat split.
Qed.

(** The rows of [get_all_errors] against the rows of the query. *)
Lemma get_all_errors_rows (depth : nat) (db : database) (rows : list (joined_view json)) :
  get_all_errors depth db = Ok rows ->
  Forall2 (fun r w => decode_joined depth r = Ok w) (query_all_errors db) rows.
Proof. apply mapM_Forall2. Qed.

(** Under the primary key of [environments]: the rows of
    [get_all_errors] against the stored errors, newest first. *)
Lemma get_all_errors_stored (depth : nat) (db : database) (rows : list (joined_view json)) :
  NoDup (map Environments.id (environments db)) ->
  get_all_errors depth db = Ok rows ->
  Forall2 (fun e w =>
             decode_joined depth
               (select_joined (e, joined_environment db (Errors.environment_id e)))
             = Ok w)
    (order_by_desc Errors.created_at (errors db)) rows.
Proof.
  intros Hpk H. unfold get_all_errors in H.
  rewrite (query_all_errors_primary_key db Hpk), mapM_map in H.
  now apply mapM_Forall2 in H.
Qed.

Lemma decoded_row_of_error (depth : nat) (db : database) (e : Errors.row) (w : joined_view json) :
  decode_joined depth (select_joined (e, joined_environment db (Errors.environment_id e)))
  = Ok w ->
  jv_error w = with_tags (select_error e) (v_tags (jv_error w))
  /\ load_tags depth (Errors.tags e) = Ok (v_tags (jv_error w))
  /\ jv_python_version w
     = option_map Environments.python_version
         (joined_environment db (Errors.environment_id e)).
Proof.
  intros H. apply decode_joined_columns in H as (Hv & Hp & _).
  apply decode_view_columns in Hv as (Ht & Hw). simpl in *. auto.
Qed.

(** The rows of [get_all_errors] are in the order of the query. *)
Lemma get_all_errors_newest_first (depth : nat) (db : database)
  (rows : list (joined_view json)) :
  get_all_errors depth db = Ok rows ->
  newest_first (fun r => v_created_at (jv_error r)) rows.
Proof.
  intros H. pose proof (get_all_errors_rows depth db rows H) as HF.
  apply (newest_first_same_keys (fun r => v_created_at (jv_error r)) _
           (query_all_errors db)).
  - apply (Forall2_map_eq _ _ _ _ _ (fun r w Hd =>
             match decode_joined_columns depth r w Hd with
             | conj Hv _ =>
                 match decode_view_columns depth _ _ Hv with
                 | conj _ Hw => eq_sym (f_equal v_created_at Hw)
                 end
             end) HF).
  - rewrite query_all_errors_as_flat_map. apply order_by_desc_newest_first.
Qed.

(** X5. Whenever [get_all_errors] returns, its rows are ordered from the
    newest [created_at] to the oldest; when no two environments share an
    id, they are the stored errors one for one: no error is left out and
    none is listed twice. *)
Theorem get_all_errors_lists_every_error_newest_first :
  forall (depth : nat) (db : database) (rows : list (joined_view json)),
    get_all_errors depth db = Ok rows ->
    newest_first (fun r => v_created_at (jv_error r)) rows
    /\ (NoDup (map Environments.id (environments db)) ->
        Permutation (map (fun r => v_id (jv_error r)) rows)
                    (map Errors.id (errors db))).
Proof.
  intros depth db rows H. split; [now apply get_all_errors_newest_first with depth db|].
  intros Hpk. pose proof (get_all_errors_stored depth db rows Hpk H) as HF.
  rewrite <- (Forall2_map_eq _ Errors.id (fun r => v_id (jv_error r)) _ _
                (fun e w Hd =>
                   match decoded_row_of_error depth db e w Hd with
                   | conj Hw _ => eq_sym (f_equal v_id Hw)
                   end) HF).
  apply Permutation_map. symmetry. apply order_by_desc_perm.
Qed.

Lemma get_all_errors_lists_every_error_newest_first_witness :
  newest_first (fun r => v_created_at (jv_error r)) (frame_of saved_in_the_same_second)
  /\ Permutation (map (fun r => v_id (jv_error r)) (frame_of saved_in_the_same_second))
                 (map Errors.id (errors saved_in_the_same_second)).
Proof.
  destruct (get_all_errors_lists_every_error_newest_first sample_depth
              saved_in_the_same_second (frame_of saved_in_the_same_second))
    as [Hsorted Hall].
  - vm_compute. reflexivity.
  - split; [exact Hsorted|]. apply Hall.
    vm_compute. repeat constructor; simpl; intuition discriminate.
Defined.

(** The ids and the times of the rows [get_errors_by_environment]
    returns, against the table. *)
Lemma errors_by_environment_stored (depth : nat) (db : database) (env_id : Z)
  (rows : list (error_view json)) :
  get_errors_by_environment depth db env_id = Ok rows ->
  map v_id rows
  = map Errors.id
      (order_by_desc Errors.created_at
         (filter (fun e => sql_int_eq (Errors.environment_id e) env_id) (errors db)))
  /\ map v_created_at rows
     = map Errors.created_at
         (order_by_desc Errors.created_at
            (filter (fun e => sql_int_eq (Errors.environment_id e) env_id) (errors db))).
Proof.
  intros H. unfold get_errors_by_environment, query_errors_by_environment in H.
  destruct (sqlite_integer env_id); [|discriminate H]. cbn [negb] in H.
  rewrite mapM_map in H. apply mapM_Forall2 in H.
  assert (Hcol : forall e w, decode_view depth (select_error e) = Ok w ->
                             Errors.id e = v_id w /\ Errors.created_at e = v_created_at w).
  { intros e w Hd. apply decode_view_columns in Hd as [_ ->]. now split. }
  split; symmetry.
  - apply (Forall2_map_eq _ _ _ _ _ (fun e w Hd => proj1 (Hcol e w Hd)) H).
  - apply (Forall2_map_eq _ _ _ _ _ (fun e w Hd => proj2 (Hcol e w Hd)) H).
Qed.

Lemma errors_by_environment_newest_first (depth : nat) (db : database) (env_id : Z)
  (rows : list (error_view json)) :
  get_errors_by_environment depth db env_id = Ok rows ->
  newest_first v_created_at rows.
Proof.
  intros H. destruct (errors_by_environment_stored depth db env_id rows H) as [_ Htimes].
  apply (newest_first_same_keys Errors.created_at v_created_at
           (order_by_desc Errors.created_at
              (filter (fun e => sql_int_eq (Errors.environment_id e) env_id) (errors db))));
    [now symmetry | apply order_by_desc_newest_first].
Qed.

(** X6. Whenever [get_errors_by_environment] returns, its rows are the
    stored errors whose [environment_id] is the id asked for, one for one,
    ordered from the newest to the oldest; an error with a NULL
    [environment_id] is in no such list. *)
Theorem get_errors_by_environment_lists_its_errors_newest_first :
  forall (depth : nat) (db : database) (env_id : Z) (rows : list (error_view json)),
    get_errors_by_environment depth db env_id = Ok rows ->
    newest_first v_created_at rows
    /\ Permutation (map v_id rows)
         (map Errors.id
            (filter (fun e => sql_int_eq (Errors.environment_id e) env_id) (errors db))).
Proof.
  intros depth db env_id rows H.
  split; [now apply errors_by_environment_newest_first with depth db env_id|].
  destruct (errors_by_environment_stored depth db env_id rows H) as [Hids _].
  rewrite Hids. apply Permutation_map. symmetry. apply order_by_desc_perm.
Qed.

Lemma get_errors_by_environment_lists_its_errors_newest_first_witness :
  newest_first v_created_at (map jv_error (frame_of saved_in_the_same_second))
  /\ Permutation (map v_id (map jv_error (frame_of saved_in_the_same_second)))
       (map Errors.id
          (filter (fun e => sql_int_eq (Errors.environment_id e) 1)
             (errors saved_in_the_same_second))).
Proof.
  apply (get_errors_by_environment_lists_its_errors_newest_first sample_depth
           saved_in_the_same_second 1).
  vm_compute. reflexivity.
Defined.

(** ** The two listings compared *)

(** C7, as stated, fails: asked for an integer SQLite cannot hold,
    [get_errors_by_environment] raises, although [get_all_errors] returns
    and none of its rows is stored with that integer. *)
Lemma environment_id_outside_sqlite_integers_is_refused :
  get_all_errors sample_depth two_environments = Ok (frame_of two_environments)
  /\ filter (stored_in_environment two_environments (2 ^ 63)) (frame_of two_environments)
     = []
  /\ get_errors_by_environment sample_depth two_environments (2 ^ 63)
     = Raise DatabaseError.
Proof. vm_compute. repeat split. Qed.

(** C7, amended. For an environment id [e] that SQLite can hold, on a
    database whose tables have their primary keys, whenever
    [get_all_errors] returns a frame, [get_errors_by_environment e]
    returns the rows of that frame whose error is stored with environment
    id [e], and no other: in the order of the frame, each with the same
    eleven cells (the decoded tags among them) and without the two joined
    columns.  Both listings are ordered from the newest [created_at] to
    the oldest.  In every state the application reaches the primary keys
    hold and, where the interpreter lets the decoder enter one array,
    both listings return.  For an integer outside SQLite's integers
    [get_errors_by_environment] raises. *)
Theorem errors_by_environment_is_the_subset_of_all_errors :
  forall (depth : nat) (db : database) (env_id : Z),
    (- 2 ^ 63 <= env_id < 2 ^ 63 ->
     (forall rows : list (joined_view json),
         primary_keys db ->
         get_all_errors depth db = Ok rows ->
         get_errors_by_environment depth db env_id
         = Ok (map jv_error (filter (stored_in_environment db env_id) rows))
         /\ newest_first (fun r => v_created_at (jv_error r)) rows
         /\ newest_first v_created_at
              (map jv_error (filter (stored_in_environment db env_id) rows)))
     /\ (reachable db ->
         exists rows : list (joined_view json),
           get_all_errors (S depth) db = Ok rows
           /\ get_errors_by_environment (S depth) db env_id
              = Ok (map jv_error (filter (stored_in_environment db env_id) rows))
           /\ newest_first (fun r => v_created_at (jv_error r)) rows
           /\ newest_first v_created_at
                (map jv_error (filter (stored_in_environment db env_id) rows))))
    /\ (~ (- 2 ^ 63 <= env_id < 2 ^ 63) ->
        get_errors_by_environment depth db env_id = Raise DatabaseError).
Proof.
  intros depth db env_id.
  split; [|apply get_errors_by_environment_unbound].
  intros Hrange.
  assert (Hsub : forall (d : nat) (rows : list (joined_view json)),
             primary_keys db ->
             get_all_errors d db = Ok rows ->
             get_errors_by_environment d db env_id
             = Ok (map jv_error (filter (stored_in_environment db env_id) rows))
             /\ newest_first (fun r => v_created_at (jv_error r)) rows
             /\ newest_first v_created_at
                  (map jv_error (filter (stored_in_environment db env_id) rows))).
  { intros d rows Hpk Hall.
    pose proof (errors_by_environment_filter d db env_id rows Hrange Hpk Hall) as Hby.
    split; [exact Hby|]. split.
    - now apply get_all_errors_newest_first with d db.
    - now apply errors_by_environment_newest_first with d db env_id. }
  split; [apply Hsub|].
  intros Hreach.
  destruct (proj2 (get_all_errors_ok_iff (S depth) db)
              (reachable_tags_decode depth db Hreach)) as [rows Hrows].
  exists rows. split; [exact Hrows|].
  apply Hsub; [now apply reachable_primary_keys | exact Hrows].
Qed.

Lemma errors_by_environment_is_the_subset_of_all_errors_witness :
  exists rows : list (joined_view json),
    get_all_errors (S sample_depth) two_environments = Ok rows
    /\ get_errors_by_environment (S sample_depth) two_environments 1
       = Ok (map jv_error (filter (stored_in_environment two_environments 1) rows))
    /\ newest_first (fun r => v_created_at (jv_error r)) rows
    /\ newest_first v_created_at
         (map jv_error (filter (stored_in_environment two_environments 1) rows)).
Proof.
  apply (proj2 (proj1 (errors_by_environment_is_the_subset_of_all_errors sample_depth
                         two_environments 1) ltac:(lia))).
  unfold two_environments. repeat apply reachable_run. apply reachable_init.
Defined.

(** X7. [get_all_environments] returns every row of [environments] once,
    ordered from the newest [created_at] to the oldest, whatever the
    table holds. *)
Theorem get_all_environments_lists_every_environment_newest_first :
  forall db : database,
    Permutation (get_all_environments db) (environments db)
    /\ newest_first Environments.created_at (get_all_environments db).
Proof.
  intros db. unfold get_all_environments. split.
  - symmetry. apply order_by_desc_perm.
  - apply order_by_desc_newest_first.
Qed.

(** ** The counters of the "View Errors" page *)

Lemma filter_disjoint_length {A : Type} (p q : A -> bool) (l : list A) :
  (forall a, p a = true -> q a = false) ->
  (List.length (filter p l) + List.length (filter q l) <= List.length l)%nat.
Proof.
  intros H. induction l as [|a l IH]; simpl; [lia|].
  destruct (p a) eqn:Hp; [rewrite (H a Hp)|destruct (q a)]; simpl; lia.
Qed.

Lemma stored_count (depth : nat) (db : database) (rows : list (joined_view json))
  (p : Errors.row -> bool) (q : joined_view json -> bool) :
  NoDup (map Environments.id (environments db)) ->
  get_all_errors depth db = Ok rows ->
  (forall e w, jv_error w = with_tags (select_error e) (v_tags (jv_error w)) -> p e = q w) ->
  List.length (filter q rows) = List.length (filter p (errors db)).
Proof.
  intros Hpk H Hpq. pose proof (get_all_errors_stored depth db rows Hpk H) as HF.
  rewrite <- (Forall2_filter_length _ p q _ _
                (fun e w Hd => Hpq e w (proj1 (decoded_row_of_error depth db e w Hd))) HF).
  rewrite filter_order_by_desc. symmetry.
  apply Permutation_length, order_by_desc_perm.
Qed.

(** X8. When no two environments share an id and [get_all_errors]
    returns, the "View Errors" page shows no counters on an empty table
    and otherwise counts the table itself: "Total Errors" is the number
    of stored errors, "Open" and "Resolved" the numbers of stored errors
    with that status, "Critical" the number with that complexity; "Open"
    and "Resolved" together never exceed the total. *)
Theorem view_errors_counters_count_the_table :
  forall (depth : nat) (db : database) (rows : list (joined_view json)),
    NoDup (map Environments.id (environments db)) ->
    get_all_errors depth db = Ok rows ->
    view_errors_summary rows
    = (if is_empty (errors db) then None
       else Some {| total_errors := List.length (errors db);
                    open_errors := List.length (stored_with_status db "Open");
                    resolved_errors := List.length (stored_with_status db "Resolved");
                    critical_errors := List.length (stored_with_complexity db "Critical") |})
    /\ (List.length (stored_with_status db "Open")
        + List.length (stored_with_status db "Resolved") <= List.length (errors db))%nat.
Proof.
  intros depth db rows Hpk H. split.
  - assert (Hlen : List.length rows = List.length (errors db)).
    { rewrite <- (filter_true rows), <- (filter_true (errors db)).
      now apply stored_count with depth. }
    unfold view_errors_summary.
    replace (is_empty rows) with (is_empty (errors db))
      by (destruct rows, (errors db); simpl in Hlen; try discriminate; reflexivity).
    destruct (is_empty (errors db)); [reflexivity|].
    unfold stored_with_status, stored_with_complexity.
    rewrite Hlen.
    rewrite !(stored_count depth db rows
                (fun e => option_string_eqb (Errors.status e) (Some _)) (status_is _) Hpk H)
      by (intros e w Hw; unfold status_is; now rewrite Hw).
    rewrite (stored_count depth db rows
               (fun e => option_string_eqb (Errors.complexity e) (Some _)) (complexity_is _) Hpk H)
      by (intros e w Hw; unfold complexity_is; now rewrite Hw).
    reflexivity.
  - apply filter_disjoint_length. intros e.
    destruct (Errors.status e) as [s|]; simpl; [|discriminate].
    intros Hs. apply String.eqb_eq in Hs. now subst.
Qed.

Lemma view_errors_counters_count_the_table_witness :
  view_errors_summary (frame_of saved_in_the_same_second)
  = Some {| total_errors := 2; open_errors := 2; resolved_errors := 0;
            critical_errors := 0 |}
  /\ (2 + 0 <= 2)%nat.
Proof.
  apply (view_errors_counters_count_the_table sample_depth saved_in_the_same_second).
  - vm_compute. repeat constructor; simpl; intuition discriminate.
  - vm_compute. reflexivity.
Defined.

(** ** Strings: [split], [strip] and the tags of the form *)

Lemma split_on_length (sep : ascii) (s : string) :
  List.length (split_on sep s) = S (count_char sep s).
Proof.
  induction s as [|c s IH]; simpl; [reflexivity|].
  destruct (Ascii.eqb c sep); simpl; [now rewrite IH|].
  destruct (split_on sep s) as [|w ws]; simpl in *; [discriminate | exact IH].
Qed.

Lemma split_on_pieces (sep : ascii) (s w : string) :
  In w (split_on sep s) -> occurs sep w = false.
Proof.
  revert w. induction s as [|c s IH]; simpl; intros w Hw.
  - destruct Hw as [<- | []]. reflexivity.
  - destruct (Ascii.eqb c sep) eqn:Hc.
    + destruct Hw as [<- | Hw]; [reflexivity | now apply IH].
    + destruct (split_on sep s) as [|w' ws].
      * destruct Hw as [<- | []]. simpl. now rewrite Hc.
      * destruct Hw as [<- | Hw]; [|apply IH; now right].
        simpl. rewrite Hc. apply IH. now left.
Qed.

Lemma lstrip_occurs (c : ascii) (s : string) :
  occurs c (lstrip s) = true -> occurs c s = true.
Proof.
  induction s as [|a s IH]; simpl; [easy|].
  destruct (isspace a); [|easy]. intros H. rewrite (IH H). apply orb_true_r.
Qed.

Lemma rstrip_occurs (c : ascii) (s : string) :
  occurs c (rstrip s) = true -> occurs c s = true.
Proof.
  induction s as [|a s IH]; simpl; [easy|].
  destruct (rstrip s) as [|b t].
  - destruct (isspace a); simpl; [easy|]. rewrite orb_false_r. intros ->. reflexivity.
  - cbn [occurs]. intros H. apply orb_true_iff in H as [-> | H]; [reflexivity|].
    rewrite (IH H). apply orb_true_r.
Qed.

Lemma rstrip_ends_clean (s : string) : ends_clean (rstrip s) = true.
Proof.
  induction s as [|a s IH]; simpl; [reflexivity|].
  destruct (rstrip s) as [|b t].
  - destruct (isspace a) eqn:Ha; simpl; [reflexivity | now rewrite Ha].
  - exact IH.
Qed.

Lemma lstrip_head (s : string) :
  match lstrip s with
  | EmptyString => True
  | String c _ => isspace c = false
  end.
Proof.
  induction s as [|a s IH]; simpl; [exact I|].
  destruct (isspace a) eqn:Ha; [exact IH | exact Ha].
Qed.

Lemma strip_trimmed (s : string) : trimmed (strip s) = true.
Proof.
  unfold trimmed, strip. rewrite rstrip_ends_clean, andb_true_r.
  pose proof (lstrip_head s) as H. destruct (lstrip s) as [|c r]; [reflexivity|].
  simpl. destruct (rstrip r); [rewrite H|]; simpl; now rewrite H.
Qed.

Lemma strip_occurs (c : ascii) (s : string) :
  occurs c s = false -> occurs c (strip s) = false.
Proof.
  intros H. destruct (occurs c (strip s)) eqn:Hs; [|reflexivity].
  apply rstrip_occurs, lstrip_occurs in Hs. congruence.
Qed.

(** X9. The tags the form stores for a non-empty "Tags" input are one
    per comma-separated piece, empty pieces included, each with the
    whitespace at its ends removed and with no comma in it. *)
Theorem form_tags_are_the_stripped_pieces :
  forall tags_input : string,
    tags_input <> EmptyString ->
    List.length (form_tags tags_input) = S (count_char "," tags_input)
    /\ forall t, In t (form_tags tags_input) ->
         trimmed t = true /\ occurs "," t = false.
Proof.
  intros tags_input Hne.
  unfold form_tags. destruct tags_input as [|c s]; [congruence|]. cbn [truthy].
  split.
  - now rewrite length_map, split_on_length.
  - intros t Ht. apply in_map_iff in Ht as (w & <- & Hw). split.
    + apply strip_trimmed.
    + apply strip_occurs, (split_on_pieces _ _ _ Hw).
Qed.

Lemma form_tags_are_the_stripped_pieces_witness :
  List.length (form_tags " db , api,,x ") = S (count_char "," " db , api,,x ")
  /\ forall t, In t (form_tags " db , api,,x ") ->
       trimmed t = true /\ occurs "," t = false.
Proof.
  apply (form_tags_are_the_stripped_pieces " db , api,,x "). discriminate.
Defined.

(** ** A submission of the form, and a run of the "Log Error" page *)

Lemma truthy_true (s : string) : s <> EmptyString -> truthy s = true.
Proof. destruct s; [congruence | reflexivity]. Qed.

(** The environment id a form stores is one SQLite can hold when the id
    of the current environment and the id picked in the select box are. *)
Lemma form_environment_id_bindable (env_id : Z) (f : error_form) :
  - 2 ^ 63 <= env_id < 2 ^ 63 ->
  (forall n, f_custom_env_id f = Some n -> - 2 ^ 63 <= n < 2 ^ 63) ->
  bindable (get (ed_environment_id (form_error_data env_id f))) = true.
Proof.
  intros Henv Hcustom. apply bindable_iff. unfold form_error_data. cbn [ed_environment_id].
  destruct (f_use_current_env f); cbn [get]; [now intros n [= <-]|].
  destruct (f_custom_env_id f) as [m|]; cbn [entry_of_option get]; [|discriminate].
  intros n [= <-]. now apply Hcustom.
Qed.

(** A valid submission on a database where the join finds at most one
    environment per error. *)
Lemma submission_listed_first (depth : nat) (db : database) (env_id : Z) (f : error_form)
  (now : Z) (old : list (joined_view json)) :
  NoDup (map Environments.id (environments db)) ->
  f_error_name f <> EmptyString ->
  f_description f <> EmptyString ->
  bindable (get (ed_environment_id (form_error_data env_id f))) = true ->
  (forall e, In e (errors db) -> Errors.created_at e < now) ->
  get_all_errors (S depth) db = Ok old ->
  exists db' : database,
    submit_error_form db env_id f now = Ok (Logged db')
    /\ get_all_errors (S depth) db'
       = Ok (saved_view db (form_error_data env_id f) (f_error_name f) now :: old).
Proof.
  intros Hpk Hn Hd Hbind Hnew Hold.
  destruct (saved_error_first depth db (form_error_data env_id f) (f_error_name f) now old
              Hpk eq_refl Hbind Hnew Hold) as (db' & Hsave & Hlist).
  exists db'. unfold submit_error_form.
  rewrite (truthy_true _ Hn), (truthy_true _ Hd), Hsave. simpl. now split.
Qed.

Lemma reachable_listing (depth : nat) (db : database) :
  reachable db -> exists rows, get_all_errors (S depth) db = Ok rows.
Proof. intros H. now apply get_all_errors_ok_iff, reachable_tags_decode. Qed.

(** X10. In a state the application reaches, a submission of the form
    with a name and a description, at a time later than every stored
    error and with environment ids that SQLite can hold, never raises;
    the listing, run where the interpreter lets the decoder enter one
    array, then starts with the new error and goes on as before.  The new
    row has the next id, the name, description, complexity and status of
    the form, NULL for each of type, traceback and fix left empty, and as
    tags the stripped pieces of the "Tags" input. *)
Theorem valid_submission_is_stored_and_listed_first :
  forall (depth : nat) (db : database) (env_id : Z) (f : error_form) (now : Z),
    reachable db ->
    f_error_name f <> EmptyString ->
    f_description f <> EmptyString ->
    - 2 ^ 63 <= env_id < 2 ^ 63 ->
    (forall n, f_custom_env_id f = Some n -> - 2 ^ 63 <= n < 2 ^ 63) ->
    (forall e, In e (errors db) -> Errors.created_at e < now) ->
    exists (db' : database) (w : joined_view json) (old : list (joined_view json)),
      submit_error_form db env_id f now = Ok (Logged db')
      /\ get_all_errors (S depth) db = Ok old
      /\ get_all_errors (S depth) db' = Ok (w :: old)
      /\ jv_error w
         = mk_error_view (Z.of_nat (List.length (errors db)) + 1)
             (f_error_name f) (Some (f_description f))
             (get (or_none (f_error_type f))) (get (or_none (f_traceback f)))
             (get (or_none (f_fix f)))
             (Some (f_complexity f)) (Some (f_status f))
             (json_of_strings (form_tags (f_tags_input f))) now now.
Proof.
  intros depth db env_id f now Hr Hn Hd Henv Hcustom Hnew.
  destruct (reachable_listing depth db Hr) as [old Hold].
  destruct (reachable_primary_keys db Hr) as [Hpk _].
  destruct (submission_listed_first depth db env_id f now old Hpk Hn Hd
              (form_environment_id_bindable env_id f Henv Hcustom) Hnew Hold)
    as (db' & Hsub & Hlist).
  exists db', (saved_view db (form_error_data env_id f) (f_error_name f) now), old.
  repeat split; try assumption.
  destruct (reachable_consecutive db Hr) as [_ [Hids Hseq]].
  unfold saved_view. cbn [jv_error]. rewrite Hids, Hseq, next_rowid_consecutive.
  reflexivity.
Qed.

Lemma valid_submission_is_stored_and_listed_first_witness :
  exists (db' : database) (w : joined_view json) (old : list (joined_view json)),
    submit_error_form sample_database 1 sample_form 300 = Ok (Logged db')
    /\ get_all_errors (S sample_depth) sample_database = Ok old
    /\ get_all_errors (S sample_depth) db' = Ok (w :: old)
    /\ jv_error w
       = mk_error_view (Z.of_nat (List.length (errors sample_database)) + 1)
           (f_error_name sample_form) (Some (f_description sample_form))
           (get (or_none (f_error_type sample_form)))
           (get (or_none (f_traceback sample_form)))
           (get (or_none (f_fix sample_form)))
           (Some (f_complexity sample_form)) (Some (f_status sample_form))
           (json_of_strings (form_tags (f_tags_input sample_form))) 300 300.
Proof.
  apply (valid_submission_is_stored_and_listed_first sample_depth sample_database 1
           sample_form 300).
  - unfold sample_database. repeat apply reachable_run. apply reachable_init.
  - discriminate.
  - discriminate.
  - lia.
  - discriminate.
  - intros e [<- | []]. simpl. lia.
Defined.

(** ** The snapshot of the interpreter *)

Lemma split_whitespace_empty (s : string) :
  split_whitespace s = [] <-> all_space s = true.
Proof.
  induction s as [|c s IH]; simpl; [easy|].
  destruct (isspace c); simpl; [exact IH|].
  split; [|discriminate].
  destruct s as [|c' s']; [discriminate|].
  destruct (isspace c'); [discriminate|].
  destruct (split_whitespace (String c' s')); discriminate.
Qed.

(** The first element of [s.split()] is the first maximal run of
    characters that are not whitespace. *)
Lemma split_whitespace_first (s w : string) (ws : list string) :
  split_whitespace s = w :: ws ->
  w <> EmptyString
  /\ no_space w = true
  /\ exists pre post : string,
       s = (pre ++ w ++ post)%string
       /\ all_space pre = true
       /\ match post with
          | EmptyString => True
          | String c _ => isspace c = true
          end.
Proof.
  revert w ws. induction s as [|c s IH]; intros w ws; [discriminate|].
  cbn [split_whitespace]. destruct (isspace c) eqn:Hc.
  - intros H. destruct (IH w ws H) as (Hne & Hw & pre & post & -> & Hpre & Hpost).
    repeat split; try assumption.
    exists (String c pre), post. cbn [append all_space]. rewrite Hc. now repeat split.
  - destruct s as [|c' s'].
    + intros H. injection H as <- <-. repeat split; [discriminate | simpl; now rewrite Hc|].
      exists EmptyString, EmptyString. now repeat split.
    + destruct (isspace c') eqn:Hc'.
      * intros H. injection H as <- _. repeat split; [discriminate | simpl; now rewrite Hc|].
        exists EmptyString, (String c' s'). now repeat split.
      * destruct (split_whitespace (String c' s')) as [|w' ws'] eqn:Hs.
        { apply split_whitespace_empty in Hs. simpl in Hs. rewrite Hc' in Hs. discriminate. }
        intros H. injection H as <- <-.
        destruct (IH w' ws' eq_refl) as (_ & Hw & pre & post & Heq & Hpre & Hpost).
        destruct pre as [|a pre].
        -- repeat split; [discriminate | simpl; now rewrite Hc, Hw|].
           exists EmptyString, post. simpl in *. rewrite Heq. now repeat split.
        -- simpl in Heq, Hpre. injection Heq as <- _. rewrite Hc' in Hpre. discriminate.
Qed.

(** X11. [get_current_environment] raises exactly when [sys.version] is
    empty or whitespace only, and then it raises IndexError.  Otherwise
    it returns the platform string as it is and, as the Python version,
    the first word of [sys.version]: a non-empty run of characters with
    no whitespace in it, with only whitespace before it and with
    whitespace or the end of the string after it. *)
Theorem python_version_is_the_first_word :
  forall p : process,
    (all_space (sys_version p) = true /\ get_current_environment p = Raise IndexError)
    \/ (all_space (sys_version p) = false
        /\ exists e : env_info,
             get_current_environment p = Ok e
             /\ ei_platform e = platform_platform p
             /\ ei_python_version e <> EmptyString
             /\ no_space (ei_python_version e) = true
             /\ exists pre post : string,
                  sys_version p = (pre ++ ei_python_version e ++ post)%string
                  /\ all_space pre = true
                  /\ match post with
                     | EmptyString => True
                     | String c _ => isspace c = true
                     end).
Proof.
  intros p. unfold get_current_environment.
  destruct (split_whitespace (sys_version p)) as [|v vs] eqn:Hs.
  - left. split; [now apply split_whitespace_empty | reflexivity].
  - right. split.
    + destruct (all_space (sys_version p)) eqn:Ha; [|reflexivity].
      apply split_whitespace_empty in Ha. congruence.
    + destruct (split_whitespace_first _ _ _ Hs) as (Hne & Hv & Hrest).
      eexists. split; [reflexivity|]. cbn [ei_platform ei_python_version]. auto.
Qed.

Lemma find_pointwise {A : Type} (f g : A -> bool) (l : list A) :
  (forall a, f a = g a) -> find f l = find g l.
Proof.
  intros H. induction l as [|a l IH]; simpl; [reflexivity|].
  now rewrite H, IH.
Qed.

Lemma joined_environment_by_id (db : database) (r : Environments.row) :
  NoDup (map Environments.id (environments db)) ->
  In r (environments db) ->
  joined_environment db (Some (Environments.id r)) = Some r.
Proof.
  intros Hpk Hin. unfold joined_environment.
  rewrite <- (find_by_key Environments.id _ r Hpk Hin).
  apply find_pointwise. intros x. simpl. apply Z.eqb_sym.
Qed.

Lemma get_all_errors_length (depth : nat) (db : database) (rows : list (joined_view json)) :
  NoDup (map Environments.id (environments db)) ->
  get_all_errors depth db = Ok rows ->
  List.length rows = List.length (errors db).
Proof.
  intros Hpk H. apply get_all_errors_stored in H; [|exact Hpk].
  apply Forall2_length in H. rewrite <- H. symmetry.
  apply Permutation_length, order_by_desc_perm.
Qed.

(** In a state the application reaches, the id of an environment is at
    most the number of environments. *)
Lemma reachable_environment_id (db : database) (r : Environments.row) :
  reachable db -> In r (environments db) ->
  1 <= Environments.id r <= Z.of_nat (List.length (environments db)).
Proof.
  intros Hr Hin. destruct (reachable_consecutive db Hr) as [[Hids _] _].
  apply ids_from_one_bounded. rewrite <- Hids. now apply in_map.
Qed.

(** X12. One run of the "Log Error" page in a state the application
    reaches, whose environments have not used up the ids of SQLite, with a
    valid form linked to the current environment and submitted later than
    every stored error: the run does not raise, and the listing
    afterwards, run where the interpreter lets the decoder enter one
    array, starts with the new error, shown with the Python version of
    the running interpreter, followed by one row for each error stored
    before. *)
Theorem logged_error_shows_the_interpreter_version :
  forall (depth : nat) (db : database) (p : process) (e : env_info) (f : error_form)
         (t_env t_save : Z),
    reachable db ->
    Z.of_nat (List.length (environments db)) < 2 ^ 63 - 1 ->
    get_current_environment p = Ok e ->
    f_error_name f <> EmptyString ->
    f_description f <> EmptyString ->
    f_use_current_env f = true ->
    (forall x, In x (errors db) -> Errors.created_at x < t_save) ->
    exists (db2 : database) (w : joined_view json) (rest : list (joined_view json)),
      log_error_page db p (Some f) t_env t_save = Ok db2
      /\ get_all_errors (S depth) db2 = Ok (w :: rest)
      /\ v_error_name (jv_error w) = f_error_name f
      /\ jv_python_version w = Some (ei_python_version e)
      /\ List.length rest = List.length (errors db).
Proof.
  intros depth db p e f t_env t_save Hr Hroom He Hn Hd Hcur Hnew.
  unfold log_error_page. rewrite He. cbn [bind].
  pose proof (reachable_run db (OpGetOrCreateEnvironment e t_env) Hr) as Hr1.
  cbn [run] in Hr1. rewrite (env_info_eta e) in *.
  destruct (get_or_create_spec db (ei_python_version e) (ei_platform e) (ei_modules e) t_env)
    as (r & db1 & Hgc & Hfind & Hcase).
  rewrite Hgc in *. cbn [bind].
  assert (Herr : errors db1 = errors db).
  { now destruct Hcase as [[_ ->] | (_ & _ & _ & -> & _)]. }
  assert (Hlen : (List.length (environments db1) <= S (List.length (environments db)))%nat).
  { destruct Hcase as [[_ ->] | (_ & _ & -> & _)]; [lia|].
    rewrite length_app. simpl. lia. }
  destruct (find_some _ _ Hfind) as [Hin Hm].
  pose proof (reachable_environment_id db1 r Hr1 Hin) as Hid.
  assert (Hbind : bindable (get (ed_environment_id (form_error_data (Environments.id r) f)))
                  = true).
  { apply bindable_iff. unfold form_error_data. cbn [ed_environment_id].
    rewrite Hcur. cbn [get]. intros n [= <-]. lia. }
  destruct (reachable_listing depth db1 Hr1) as [rest Hrest].
  destruct (reachable_primary_keys db1 Hr1) as [Hpk _].
  rewrite <- Herr in Hnew.
  destruct (submission_listed_first depth db1 (Environments.id r) f t_save rest Hpk Hn Hd
              Hbind Hnew Hrest) as (db2 & Hsub & Hlist).
  rewrite Hsub. cbn [bind].
  exists db2, (saved_view db1 (form_error_data (Environments.id r) f) (f_error_name f) t_save),
    rest.
  repeat split; try assumption.
  - unfold saved_view, form_error_data. cbn [jv_python_version ed_environment_id].
    rewrite Hcur. cbn [get].
    rewrite (joined_environment_by_id db1 r Hpk Hin). simpl.
    apply env_matches_key in Hm. unfold environment_key in Hm. congruence.
  - rewrite <- Herr. now apply get_all_errors_length with (S depth).
Qed.

Lemma logged_error_shows_the_interpreter_version_witness :
  exists (db2 : database) (w : joined_view json) (rest : list (joined_view json)),
    log_error_page sample_database sample_process (Some sample_form) 200 300 = Ok db2
    /\ get_all_errors (S sample_depth) db2 = Ok (w :: rest)
    /\ v_error_name (jv_error w) = f_error_name sample_form
    /\ jv_python_version w
       = Some (ei_python_version
                 (mk_env_info "3.11.4" "Linux-6.1-x86_64"
                    (json_dumps_sort_keys
                       [("pandas", "2.0.1"); ("streamlit", "1.28.0")])))
    /\ List.length rest = List.length (errors sample_database).
Proof.
  apply (logged_error_shows_the_interpreter_version sample_depth sample_database
           sample_process).
  - unfold sample_database. repeat apply reachable_run. apply reachable_init.
  - simpl. lia.
  - reflexivity.
  - discriminate.
  - discriminate.
  - reflexivity.
  - intros x [<- | []]. simpl. lia.
Defined.

(** X13. [save_error] does not check the foreign key: in a state the
    application reaches, a record that names an environment id SQLite can
    hold but no row of [environments] has is stored with that id, and the
    listing, run where the interpreter lets the decoder enter one array,
    shows it (first, when it is newer than the stored errors) with NULL
    for the Python version and the platform. *)
Theorem dangling_environment_id_is_accepted :
  forall (depth : nat) (db : database) (ed : error_data) (name : string) (env_id now : Z),
    reachable db ->
    get (ed_error_name ed) = Some name ->
    get (ed_environment_id ed) = Some env_id ->
    - 2 ^ 63 <= env_id < 2 ^ 63 ->
    (forall env, In env (environments db) -> Environments.id env <> env_id) ->
    (forall e, In e (errors db) -> Errors.created_at e < now) ->
    exists (db' : database) (r : Errors.row) (w : joined_view json)
           (old : list (joined_view json)),
      save_error db ed now = Ok db'
      /\ errors db' = errors db ++ [r]
      /\ Errors.environment_id r = Some env_id
      /\ get_all_errors (S depth) db' = Ok (w :: old)
      /\ v_id (jv_error w) = Errors.id r
      /\ jv_python_version w = None
      /\ jv_platform w = None.
Proof.
  intros depth db ed name env_id now Hr Hname Henv Hrange Hnone Hnew.
  assert (Hbind : bindable (get (ed_environment_id ed)) = true).
  { rewrite Henv. simpl. now apply sqlite_integer_iff. }
  destruct (reachable_listing depth db Hr) as [old Hold].
  destruct (reachable_primary_keys db Hr) as [Hpk _].
  destruct (saved_error_first depth db ed name now old Hpk Hname Hbind Hnew Hold)
    as (db' & Hsave & Hlist).
  assert (Hjoin : joined_environment db (Some env_id) = None).
  { unfold joined_environment. destruct (find _ (environments db)) as [env|] eqn:Hf;
      [|reflexivity].
    apply find_some in Hf as [Hin Heq]. simpl in Heq. apply Z.eqb_eq in Heq.
    now destruct (Hnone env Hin). }
  pose proof Hsave as Hrow.
  rewrite (save_error_returns db ed name now Hname Hbind) in Hrow.
  injection Hrow as <-.
  eexists _, _, (saved_view db ed name now), old.
  split; [exact Hsave|]. split; [reflexivity|]. split; [exact Henv|].
  split; [exact Hlist|]. unfold saved_view. rewrite Henv, Hjoin. now repeat split.
Qed.

Lemma dangling_environment_id_is_accepted_witness :
  exists (db' : database) (r : Errors.row) (w : joined_view json)
         (old : list (joined_view json)),
    save_error (init_db None) sample_error_data 100 = Ok db'
    /\ errors db' = errors (init_db None) ++ [r]
    /\ Errors.environment_id r = Some 1
    /\ get_all_errors (S sample_depth) db' = Ok (w :: old)
    /\ v_id (jv_error w) = Errors.id r
    /\ jv_python_version w = None
    /\ jv_platform w = None.
Proof.
  apply (dangling_environment_id_is_accepted sample_depth (init_db None) sample_error_data
           "KeyError: 'x'" 1 100).
  - apply reachable_init.
  - reflexivity.
  - reflexivity.
  - lia.
  - intros env [].
  - intros e [].
Defined.

(** ** The filters of the "Search & Filter" page *)

Lemma isin_In (x : option string) (values : list (option string)) :
  isin x values = true -> In x values.
Proof.
  unfold isin. rewrite existsb_exists. intros (y & Hy & Heq).
  destruct x as [a|], y as [b|]; simpl in Heq; try discriminate; [|exact Hy].
  apply String.eqb_eq in Heq. now subst.
Qed.

Lemma filter_idempotent {A : Type} (p : A -> bool) (l : list A) :
  filter p (filter p l) = filter p l.
Proof.
  rewrite filter_filter. apply filter_ext. intros a. now destruct (p a).
Qed.

Lemma mask_steps (fs fc : list (option string)) (s : joined_view json -> bool)
  (rows : list (joined_view json)) :
  (let df1 := filter s rows in
   let df2 := if is_empty fs then df1
              else filter (fun r => isin (v_status (jv_error r)) fs) df1 in
   if is_empty fc then df2
   else filter (fun r => isin (v_complexity (jv_error r)) fc) df2)
  = filter (fun r => s r
                     && (is_empty fs || isin (v_status (jv_error r)) fs)
                     && (is_empty fc || isin (v_complexity (jv_error r)) fc)) rows.
Proof.
  cbv zeta. destruct (is_empty fs), (is_empty fc); cbv iota;
    rewrite ?filter_filter; apply filter_ext; intros r;
    rewrite ?orb_true_l, ?orb_false_l, ?andb_true_r, ?andb_assoc; reflexivity.
Qed.

Lemma mask_selects (fs fc : list (option string)) (s : joined_view json -> bool)
  (r : joined_view json) :
  s r && (is_empty fs || isin (v_status (jv_error r)) fs)
  && (is_empty fc || isin (v_complexity (jv_error r)) fc) = true ->
  (fs <> [] -> In (v_status (jv_error r)) fs)
  /\ (fc <> [] -> In (v_complexity (jv_error r)) fc).
Proof.
  intros H. apply andb_true_iff in H as [H Hc]. apply andb_true_iff in H as [_ Hs].
  split; intros Hne.
  - destruct fs; [congruence|]. now apply isin_In.
  - destruct fc; [congruence|]. now apply isin_In.
Qed.

(** What the three widgets do depends on the widgets alone: nothing the
    model covers, an error of [re], or one mask applied to the frame. *)
Lemma apply_filters_mask (w : filters) :
  (forall rows, apply_filters rows w = None)
  \/ (forall rows, apply_filters rows w = Some (Raise ReError))
  \/ exists k : joined_view json -> bool,
       (forall rows, apply_filters rows w = Some (Ok (filter k rows)))
       /\ forall r, k r = true ->
            (filter_status w <> [] -> In (v_status (jv_error r)) (filter_status w))
            /\ (filter_complexity w <> [] ->
                In (v_complexity (jv_error r)) (filter_complexity w)).
Proof.
  unfold apply_filters. destruct (truthy (search_term w)).
  - destruct (re_compile (search_term w)) as [atoms| |].
    + right. right. eexists. split.
      * intros rows. rewrite <- (mask_steps (filter_status w) (filter_complexity w)).
        reflexivity.
      * apply mask_selects.
    + right. left. reflexivity.
    + left. reflexivity.
  - right. right. eexists. split.
    + intros rows.
      rewrite <- (mask_steps (filter_status w) (filter_complexity w) (fun _ => true)).
      rewrite filter_true. reflexivity.
    + apply mask_selects.
Qed.

(** X14. Whenever the "Search & Filter" page computes a result for a
    search term of the modelled fragment of [re] (the empty term, or
    ordinary characters and dots; other patterns are not covered), it is
    the listing with rows left out: the rows kept stay in their order,
    each has a status among the selected ones when any is selected, and a
    complexity among the selected ones when any is selected; filtering
    the result again with the same widgets changes nothing. *)
Theorem filters_only_narrow_the_listing :
  forall (rows out : list (joined_view json)) (w : filters),
    apply_filters rows w = Some (Ok out) ->
    (exists k : joined_view json -> bool, out = filter k rows)
    /\ (forall r, In r out ->
          (filter_status w <> [] -> In (v_status (jv_error r)) (filter_status w))
          /\ (filter_complexity w <> [] ->
              In (v_complexity (jv_error r)) (filter_complexity w)))
    /\ apply_filters out w = Some (Ok out).
Proof.
  intros rows out w H.
  destruct (apply_filters_mask w) as [Hn | [He | (k & Hk & Hsel)]];
    [rewrite Hn in H; discriminate | rewrite He in H; discriminate|].
  rewrite Hk in H. injection H as <-. split; [now exists k|]. split.
  - intros r Hr. apply filter_In in Hr as [_ Hr]. now apply Hsel.
  - now rewrite Hk, filter_idempotent.
Qed.

Lemma filters_only_narrow_the_listing_witness :
  (exists k : joined_view json -> bool,
      frame_of saved_in_the_same_second = filter k (frame_of saved_in_the_same_second))
  /\ (forall r,
        In r (frame_of saved_in_the_same_second) ->
        (filter_status (mk_filters "error" [Some "Open"] []) <> [] ->
         In (v_status (jv_error r)) (filter_status (mk_filters "error" [Some "Open"] [])))
        /\ (filter_complexity (mk_filters "error" [Some "Open"] []) <> [] ->
            In (v_complexity (jv_error r))
               (filter_complexity (mk_filters "error" [Some "Open"] []))))
  /\ apply_filters (frame_of saved_in_the_same_second) (mk_filters "error" [Some "Open"] [])
     = Some (Ok (frame_of saved_in_the_same_second)).
Proof.
  apply (filters_only_narrow_the_listing (frame_of saved_in_the_same_second)).
  vm_compute. reflexivity.
Defined.

(** *** Upper and lower case in the search term *)

Lemma lower_special (c : ascii) : is_special c = true -> lower c = c.
Proof. destruct c as [[] [] [] [] [] [] [] []]; vm_compute; intros H; (reflexivity || discriminate H). Qed.

Lemma lower_to_special (c : ascii) : is_special (lower c) = true -> lower c = c.
Proof. destruct c as [[] [] [] [] [] [] [] []]; vm_compute; intros H; (reflexivity || discriminate H). Qed.

(** A character [re] gives a meaning to is the lower case of itself
    only. *)
Lemma special_same_case (a b : ascii) :
  lower a = lower b -> is_special a = true -> a = b.
Proof.
  intros Hab Ha. pose proof (lower_special a Ha) as Hl.
  rewrite Hab in Hl. rewrite <- Hl in Ha. rewrite <- (lower_to_special b Ha). now symmetry.
Qed.

Lemma special_same_case_eqb (a b c : ascii) :
  lower a = lower b -> is_special c = true -> Ascii.eqb a c = Ascii.eqb b c.
Proof.
  intros Hab Hc.
  destruct (Ascii.eqb_spec a c) as [->|Ha], (Ascii.eqb_spec b c) as [->|Hb];
    try reflexivity.
  - destruct Hb. symmetry. now apply special_same_case.
  - destruct Ha. symmetry. apply special_same_case; [now symmetry | assumption].
Qed.

Lemma same_up_to_case_cons (a b : ascii) (s t : string) :
  same_up_to_case (String a s) (String b t) <-> lower a = lower b /\ same_up_to_case s t.
Proof.
  unfold same_up_to_case. simpl. split.
  - intros H. injection H as Hc Hs. now split.
  - intros [-> ->]. reflexivity.
Qed.

Lemma same_up_to_case_inv (s t : string) :
  same_up_to_case s t ->
  match s, t with
  | EmptyString, EmptyString => True
  | String a s', String b t' => lower a = lower b /\ same_up_to_case s' t'
  | _, _ => False
  end.
Proof.
  destruct s as [|a s], t as [|b t]; try exact (fun _ => I);
    try (unfold same_up_to_case; simpl; discriminate).
  apply same_up_to_case_cons.
Qed.

Lemma occurs_same_case (c : ascii) (s t : string) :
  is_special c = true -> same_up_to_case s t -> occurs c s = occurs c t.
Proof.
  intros Hc. revert t. induction s as [|a s IH]; intros t H;
    apply same_up_to_case_inv in H; destruct t as [|b t]; try contradiction;
    [reflexivity|].
  destruct H as [Hab Hst]. simpl.
  now rewrite (special_same_case_eqb a b c Hab Hc), (IH t Hst).
Qed.

Lemma re_search_pointwise (a1 a2 : list atom) :
  (forall text, match_here a1 text = match_here a2 text) ->
  forall text, re_search a1 text = re_search a2 text.
Proof.
  intros H. induction text as [|t text IH]; simpl; rewrite H; [reflexivity|].
  now rewrite IH.
Qed.

(** Terms that differ in case only compile alike: both are refused, or
    both give atoms that match the same texts. *)
Lemma atoms_of_same_case (s t : string) :
  same_up_to_case s t ->
  match atoms_of s, atoms_of t with
  | Some a1, Some a2 => forall text, match_here a1 text = match_here a2 text
  | None, None => True
  | _, _ => False
  end.
Proof.
  revert t. induction s as [|a s IH]; intros t H;
    apply same_up_to_case_inv in H; destruct t as [|b t]; try contradiction.
  - simpl. reflexivity.
  - destruct H as [Hab Hst]. specialize (IH t Hst). cbn [atoms_of].
    rewrite <- (special_same_case_eqb a b "." Hab eq_refl).
    assert (Hsp : is_special a = is_special b).
    { destruct (is_special a) eqn:Ha.
      - now rewrite <- (special_same_case a b Hab Ha).
      - destruct (is_special b) eqn:Hb; [|reflexivity].
        rewrite (special_same_case b a (eq_sym Hab) Hb) in Hb. congruence. }
    rewrite <- Hsp.
    destruct (Ascii.eqb a "."), (is_special a), (atoms_of s) as [a1|],
      (atoms_of t) as [a2|]; simpl; try exact I; try contradiction;
      intros [|x text]; simpl; try reflexivity; rewrite ?Hab, IH; reflexivity.
Qed.

(** A term in the modelled fragment of [re] has an outcome: rows or an
    error of [re]. *)
Lemma apply_filters_modelled (rows : list (joined_view json)) (w : filters) :
  re_compile (search_term w) <> Unmodelled ->
  exists outcome, apply_filters rows w = Some outcome.
Proof.
  intros H. unfold apply_filters.
  destruct (truthy (search_term w)); [|eexists; reflexivity].
  destruct (re_compile (search_term w)); [| |contradiction]; eexists; reflexivity.
Qed.

(** X15. Within the modelled fragment of [re] (terms made of ordinary
    characters and dots, and terms with an opening parenthesis, no
    closing one, no bracket and no backslash, which [re] refuses), the
    search box does not tell upper from lower case in the term: when a
    term is in the fragment, every term that differs from it in the case
    of its letters only is in the fragment too, and the two give the same
    outcome on every listing, the same rows or the same error of [re].
    Terms outside the fragment, such as a backslash followed by a letter,
    are not covered. *)
Theorem search_term_case_is_ignored :
  forall (rows : list (joined_view json)) (t1 t2 : string)
         (statuses complexities : list (option string)),
    re_compile t1 <> Unmodelled ->
    same_up_to_case t1 t2 ->
    re_compile t2 <> Unmodelled
    /\ exists outcome,
         apply_filters rows (mk_filters t1 statuses complexities) = Some outcome
         /\ apply_filters rows (mk_filters t2 statuses complexities) = Some outcome.
Proof.
  intros rows t1 t2 st cx Hmodelled H.
  pose proof (atoms_of_same_case t1 t2 H) as Ha.
  assert (Hc : match re_compile t1, re_compile t2 with
               | Compiled a1, Compiled a2 =>
                   forall text, match_here a1 text = match_here a2 text
               | Malformed, Malformed => True
               | Unmodelled, Unmodelled => True
               | _, _ => False
               end).
  { unfold re_compile.
    rewrite <- !(occurs_same_case _ t1 t2) by (reflexivity || exact H).
    destruct (atoms_of t1) as [a1|], (atoms_of t2) as [a2|]; try contradiction;
      [exact Ha|].
    now destruct (occurs "(" t1 && negb (occurs ")" t1) && negb (occurs "[" t1)
                  && negb (occurs "\" t1)). }
  assert (Htruthy : truthy t1 = truthy t2).
  { apply same_up_to_case_inv in H. destruct t1, t2; simpl; tauto. }
  split.
  { intros H2. rewrite H2 in Hc. now destruct (re_compile t1). }
  destruct (apply_filters_modelled rows (mk_filters t1 st cx) Hmodelled) as [o Ho].
  exists o. split; [exact Ho|]. rewrite <- Ho.
  unfold apply_filters. cbn [search_term]. rewrite <- Htruthy.
  destruct (truthy t1); [|reflexivity].
  destruct (re_compile t1) as [a1| |], (re_compile t2) as [a2| |];
    try contradiction; try reflexivity.
  pose proof (re_search_pointwise a1 a2 Hc) as Hs.
  replace (filter (fun r => contains a2 (Some (v_error_name (jv_error r)))
                            || contains a2 (v_description (jv_error r))) rows)
    with (filter (fun r => contains a1 (Some (v_error_name (jv_error r)))
                           || contains a1 (v_description (jv_error r))) rows);
    [reflexivity|].
  apply filter_ext. intros r. unfold contains. rewrite Hs.
  destruct (v_description (jv_error r)); [now rewrite Hs | reflexivity].
Qed.

Lemma search_term_case_is_ignored_witness :
  re_compile "keyError" <> Unmodelled
  /\ exists outcome,
       apply_filters (frame_of saved_in_the_same_second) (mk_filters "KEYerror" [] [])
       = Some outcome
       /\ apply_filters (frame_of saved_in_the_same_second) (mk_filters "keyError" [] [])
          = Some outcome.
Proof.
  apply (search_term_case_is_ignored (frame_of saved_in_the_same_second)
           "KEYerror" "keyError").
  - discriminate.
  - reflexivity.
Defined.

(** ** The option of the select box and the id read back from it *)


Lemma digit_char_spec (d : N) :
  (d < 10)%N -> is_digit (digit_char d) = true /\ Z.of_N (ord (digit_char d) - 48) = Z.of_N d.
Proof.
  intros H.
  assert (Hd : In d [0; 1; 2; 3; 4; 5; 6; 7; 8; 9]%N).
  { simpl. lia. }
  simpl in Hd. repeat (destruct Hd as [<- | Hd]; [now split|]). contradiction.
Qed.

Lemma list_ascii_of_string_app (a b : string) :
  list_ascii_of_string (a ++ b) = list_ascii_of_string a ++ list_ascii_of_string b.
Proof. induction a as [|c a IH]; simpl; [reflexivity | now rewrite IH]. Qed.

Lemma digits_of_spec (fuel : nat) :
  forall (n : N) (acc : string),
    exists ds : string,
      digits_of fuel n acc = (ds ++ acc)%string
      /\ Forall (fun c => is_digit c = true) (list_ascii_of_string ds)
      /\ (String.length ds <= fuel)%nat
      /\ (fuel <> O -> Z.of_N n < 10 ^ Z.of_nat fuel ->
          ds <> EmptyString
          /\ forall z0,
               fold_left (fun acc c => acc * 10 + Z.of_N (ord c - 48))
                 (list_ascii_of_string ds) z0
               = z0 * 10 ^ Z.of_nat (String.length ds) + Z.of_N n).
Proof.
  induction fuel as [|fuel IH]; intros n acc.
  - exists EmptyString. simpl. repeat split; try constructor; congruence.
  - cbn [digits_of]. cbv zeta.
    assert (Hmod : (n mod 10 < 10)%N) by (apply N.mod_lt; discriminate).
    destruct (digit_char_spec _ Hmod) as [Hdig Hval].
    destruct (N.ltb_spec n 10) as [Hlt | Hge].
    + exists (String (digit_char (n mod 10)) EmptyString). simpl.
      repeat split; try (repeat constructor; assumption); try lia; try discriminate.
      intros z0. rewrite Hval, N.mod_small by exact Hlt. lia.
    + destruct (IH (n / 10)%N (String (digit_char (n mod 10)) acc))
        as (ds & Heq & Hall & Hlen & Hv).
      exists (ds ++ String (digit_char (n mod 10)) EmptyString)%string.
      rewrite Heq, append_assoc. split; [reflexivity|].
      rewrite list_ascii_of_string_app, append_length.
      cbn [list_ascii_of_string String.length].
      split; [apply Forall_app; split; [exact Hall | repeat constructor; exact Hdig]|].
      split; [lia|]. intros _ Hn.
      assert (Hdiv : Z.of_N (n / 10) < 10 ^ Z.of_nat fuel).
      { rewrite N2Z.inj_div. apply Z.div_lt_upper_bound; [lia|].
        replace (Z.of_nat (S fuel)) with (Z.succ (Z.of_nat fuel)) in Hn by lia.
        rewrite Z.pow_succ_r in Hn by lia. exact Hn. }
      assert (Hfuel : fuel <> O).
      { intros ->. simpl in Hdiv. assert (1 <= Z.of_N (n / 10)); [|lia].
        rewrite N2Z.inj_div. apply Z.div_le_lower_bound; lia. }
      destruct (Hv Hfuel Hdiv) as [_ Hfold]. split.
      { destruct ds; discriminate. }
      intros z0. rewrite fold_left_app, Hfold. cbn [fold_left]. rewrite Hval.
      replace (Z.of_nat (String.length ds + 1)) with (Z.succ (Z.of_nat (String.length ds))) by lia.
      rewrite Z.pow_succ_r by lia.
      rewrite N2Z.inj_mod. rewrite N2Z.inj_div.
      change (Z.of_N 10) with 10.
      pose proof (Z.div_mod (Z.of_N n) 10 ltac:(lia)). lia.
Qed.

Lemma pos_size_nat_gt (p : positive) : Z.pos p < 2 ^ Z.of_nat (Pos.size_nat p).
Proof.
  induction p as [p IH|p IH|]; cbn [Pos.size_nat];
    rewrite ?Nat2Z.inj_succ, ?Z.pow_succ_r by lia; lia.
Qed.

Lemma pow2_le_pow10 (k : nat) : 2 ^ Z.of_nat k <= 10 ^ Z.of_nat k.
Proof. apply Z.pow_le_mono_l. lia. Qed.

(** [str(n)] for a positive [n]: digits only, at least one, which read
    back as [n]. *)
Lemma str_of_N_spec (p : positive) :
  Forall (fun c => is_digit c = true) (list_ascii_of_string (str_of_N (Npos p)))
  /\ str_of_N (Npos p) <> EmptyString
  /\ (String.length (str_of_N (Npos p)) <= S (Pos.size_nat p))%nat
  /\ int_of_digits (str_of_N (Npos p)) = Z.pos p.
Proof.
  unfold str_of_N, int_of_digits. cbn [N.size_nat].
  destruct (digits_of_spec (S (Pos.size_nat p)) (Npos p) EmptyString)
    as (ds & Heq & Hall & Hlen & Hv).
  assert (Hds : (ds ++ "")%string = ds).
  { clear. induction ds as [|c ds IH]; simpl; [reflexivity | now rewrite IH]. }
  rewrite Heq, Hds. destruct Hv as [Hne Hfold]; [discriminate | |].
  - pose proof (pos_size_nat_gt p). pose proof (pow2_le_pow10 (Pos.size_nat p)).
    replace (Z.of_nat (S (Pos.size_nat p))) with (Z.succ (Z.of_nat (Pos.size_nat p))) by lia.
    rewrite Z.pow_succ_r by lia. simpl Z.of_N. lia.
  - repeat split; try assumption. rewrite Hfold. simpl. reflexivity.
Qed.

Lemma size_of_sqlite_integer (p : positive) :
  Z.pos p < 2 ^ 63 -> (Pos.size_nat p <= 64)%nat.
Proof.
  intros H. change (64%nat) with (Pos.size_nat (2 ^ 63)%positive).
  apply Pos.size_nat_monotone. change (2 ^ 63) with (Z.pos (2 ^ 63)%positive) in H. lia.
Qed.

(** [s.split(sep)[0]] is the text before the first separator. *)
Lemma split_on_first (sep : ascii) (a b : string) :
  occurs sep a = false ->
  hd EmptyString (split_on sep (a ++ String sep b)) = a.
Proof.
  induction a as [|c a IH]; simpl.
  - intros _. now rewrite Ascii.eqb_refl.
  - intros H. apply orb_false_iff in H as [Hc Ha]. rewrite Hc.
    specialize (IH Ha). destruct (split_on sep (a ++ String sep b)); simpl in *;
      now rewrite IH.
Qed.

(** Where the first character of [old] is not in [s], [replace] leaves
    [s] as it is. *)
Lemma replace_from_absent (fuel : nat) (o : ascii) (old new s : string) :
  occurs o s = false -> replace_from fuel (String o old) new s = s.
Proof.
  revert s. induction fuel as [|fuel IH]; intros s H; [reflexivity|].
  destruct s as [|c s]; [reflexivity|]. simpl in H.
  apply orb_false_iff in H as [Hc Hs]. cbn [replace_from strip_prefix].
  rewrite Ascii.eqb_sym, Hc. now rewrite IH.
Qed.

Lemma digits_only_occurs (c : ascii) (s : string) :
  is_digit c = false ->
  Forall (fun x => is_digit x = true) (list_ascii_of_string s) ->
  occurs c s = false.
Proof.
  intros Hc. induction s as [|x s IH]; simpl; intros H; [reflexivity|].
  inversion H as [|? ? Hx Hs]; subst. rewrite (IH Hs), orb_false_r.
  destruct (Ascii.eqb_spec x c) as [->|]; [congruence | reflexivity].
Qed.

Lemma digit_not_space (c : ascii) : is_digit c = true -> int_space c = false.
Proof. destruct c as [[] [] [] [] [] [] [] []]; vm_compute; intros H; (reflexivity || discriminate H). Qed.

Lemma int_rstrip_digits (s : string) :
  Forall (fun x => is_digit x = true) (list_ascii_of_string s) -> int_rstrip s = s.
Proof.
  induction s as [|c s IH]; simpl; intros H; [reflexivity|].
  inversion H as [|? ? Hc Hs]; subst. rewrite (IH Hs).
  destruct s; [now rewrite (digit_not_space c Hc) | reflexivity].
Qed.

Lemma digit_groups_digits (s : string) (after_digit : bool) :
  Forall (fun x => is_digit x = true) (list_ascii_of_string s) ->
  s <> EmptyString \/ after_digit = true ->
  digit_groups s after_digit = Some s.
Proof.
  revert after_digit. induction s as [|c s IH]; simpl; intros after_digit H Hne.
  - destruct Hne as [Hne | ->]; [congruence | reflexivity].
  - inversion H as [|? ? Hc Hs]; subst. rewrite Hc, (IH true Hs); auto.
Qed.

(** A text that starts with a digit has no sign. *)
Lemma sign_of_digit (c : ascii) (ds : string) :
  is_digit c = true ->
  match String c ds with
  | String "-" r => (true, r)
  | String "+" r => (false, r)
  | _ => (false, String c ds)
  end = (false, String c ds).
Proof.
  destruct c as [[] [] [] [] [] [] [] []]; intros H; try discriminate H; reflexivity.
Qed.

(** [int] on a run of at most 4300 digits, with or without a minus sign
    in front. *)
Lemma py_int_digits (ds : string) (negative : bool) :
  Forall (fun x => is_digit x = true) (list_ascii_of_string ds) ->
  ds <> EmptyString ->
  (String.length ds <= 4300)%nat ->
  py_int (if negative then String "-" ds else ds)
  = Some (if negative then - int_of_digits ds else int_of_digits ds).
Proof.
  intros Hall Hne Hlen. unfold py_int.
  assert (Hstrip : int_rstrip (int_lstrip (if negative then String "-" ds else ds))
                   = if negative then String "-" ds else ds).
  { destruct negative.
    - cbn [int_lstrip]. change (int_space "-") with false. cbv iota.
      cbn [int_rstrip]. rewrite (int_rstrip_digits ds Hall).
      destruct ds; [congruence | reflexivity].
    - destruct ds as [|c ds]; [congruence|]. cbn [int_lstrip].
      inversion Hall as [|? ? Hc Hs]; subst. rewrite (digit_not_space c Hc).
      now apply int_rstrip_digits. }
  rewrite Hstrip. destruct negative.
  - rewrite (digit_groups_digits ds false Hall (or_introl Hne)).
    destruct (Nat.ltb_spec 4300 (String.length ds)); [lia | reflexivity].
  - destruct ds as [|c ds]; [congruence|].
    inversion Hall as [|? ? Hc Hs]; subst.
    rewrite (sign_of_digit c ds Hc).
    rewrite (digit_groups_digits (String c ds) false Hall (or_introl Hne)).
    destruct (Nat.ltb_spec 4300 (String.length (String c ds))); [lia | reflexivity].
Qed.

(** The text of an id: an optional minus sign and digits. *)
Lemma str_of_int_spec (z : Z) :
  - 2 ^ 63 <= z < 2 ^ 63 ->
  exists (ds : string) (negative : bool),
    str_of_int z = (if negative then String "-" ds else ds)
    /\ Forall (fun x => is_digit x = true) (list_ascii_of_string ds)
    /\ ds <> EmptyString
    /\ (String.length ds <= 4300)%nat
    /\ (if negative then - int_of_digits ds else int_of_digits ds) = z.
Proof.
  intros Hz. destruct z as [|p|p]; cbn [str_of_int].
  - exists "0"%string, false.
    split; [reflexivity|]. split; [repeat constructor|]. split; [discriminate|].
    split; [simpl; lia | reflexivity].
  - destruct (str_of_N_spec p) as (Hall & Hne & Hlen & Hval).
    exists (str_of_N (Npos p)), false. repeat split; try assumption.
    pose proof (size_of_sqlite_integer p ltac:(lia)). lia.
  - destruct (str_of_N_spec p) as (Hall & Hne & Hlen & Hval).
    exists (str_of_N (Npos p)), true. repeat split; try assumption.
    + assert (Hp : Z.pos p < 2 ^ 63 \/ Z.pos p = 2 ^ 63) by lia.
      destruct Hp as [Hp | Hp].
      * pose proof (size_of_sqlite_integer p Hp). lia.
      * change (2 ^ 63) with (Z.pos (2 ^ 63)%positive) in Hp. injection Hp as ->.
        change (Pos.size_nat (2 ^ 63)) with 64%nat in Hlen. lia.
    + rewrite Hval. reflexivity.
Qed.

Lemma occurs_app (c : ascii) (a b : string) :
  occurs c (a ++ b) = occurs c a || occurs c b.
Proof. induction a as [|x a IH]; simpl; [reflexivity | now rewrite IH, orb_assoc]. Qed.

Lemma strip_prefix_app (p s : string) : strip_prefix p (p ++ s) = Some s.
Proof.
  induction p as [|c p IH]; simpl; [now destruct s | now rewrite Ascii.eqb_refl].
Qed.

(** An occurrence of [old] at the head is replaced. *)
Lemma replace_from_prefix (fuel : nat) (old new s : string) :
  replace_from (S fuel) old new (old ++ s) = (new ++ replace_from fuel old new s)%string.
Proof. cbn [replace_from]. now rewrite strip_prefix_app. Qed.

(** The id is read back from the option built for a row, whatever the
    text of the Python version. *)
Lemma parse_env_option_env_option (r : Environments.row) :
  - 2 ^ 63 <= Environments.id r < 2 ^ 63 ->
  parse_env_option (env_option r) = Some (Environments.id r).
Proof.
  intros Hid. unfold parse_env_option, env_option.
  destruct (str_of_int_spec _ Hid) as (ds & negative & Hstr & Hall & Hne & Hlen & Hval).
  set (text := if negative then String "-" ds else ds) in *.
  assert (Hocc : forall c, is_digit c = false -> c <> "-"%char -> occurs c text = false).
  { intros c Hc Hminus. unfold text. destruct negative; cbn [occurs];
      rewrite (digits_only_occurs c ds Hc Hall); [|reflexivity].
    destruct (Ascii.eqb_spec "-" c); [congruence | reflexivity]. }
  rewrite Hstr.
  change ("ID " ++ text ++ ": Python " ++ Environments.python_version r)%string
    with ("ID " ++ (text ++ String ":" (" Python " ++ Environments.python_version r)))%string.
  rewrite <- append_assoc.
  rewrite split_on_first
    by (rewrite occurs_app, (Hocc ":"%char eq_refl ltac:(discriminate)); reflexivity).
  unfold str_replace.
  change (String.length ("ID " ++ text)) with (S (S (S (String.length text)))).
  rewrite replace_from_prefix. cbn [append].
  rewrite (replace_from_absent _ "I" "D " "" text (Hocc "I"%char eq_refl ltac:(discriminate))).
  unfold text. rewrite (py_int_digits ds negative Hall Hne Hlen). now rewrite Hval.
Qed.

(** X16. With "Link to current environment" unticked, the id the form
    stores is the id of the environment the user picked in the select
    box: the text of the option is built from the row and the id is read
    back from it unchanged, for every id SQLite can hold and whatever the
    Python version of the row says. *)
Theorem picked_environment_id_is_read_back :
  forall (db : database) (choice : nat) (r : Environments.row),
    nth_error (get_all_environments db) choice = Some r ->
    - 2 ^ 63 <= Environments.id r < 2 ^ 63 ->
    custom_env_id db false choice = Some (Environments.id r).
Proof.
  intros db choice r Hnth Hid. unfold custom_env_id.
  rewrite (map_nth_error env_option _ _ Hnth). now apply parse_env_option_env_option.
Qed.

Lemma picked_environment_id_is_read_back_witness :
  custom_env_id two_environments false 1
  = Some (Environments.id (Environments.mk 1 "3.11.4" (Some "Linux") (Some "{}") 10)).
Proof.
  apply (picked_environment_id_is_read_back two_environments 1).
  - reflexivity.
  - simpl. lia.
Defined.

(** ** The module set read back *)

Lemma json_encode_item_append (kv : string * string) (more : string) :
  (json_encode_item kv ++ more)%string
  = String dquote (escape_chars (fst kv)
                   ++ String dquote (String ":" (String " " (json_encode_str (snd kv) ++ more)))).
Proof.
  unfold json_encode_item. rewrite !append_assoc, json_encode_str_append. reflexivity.
Qed.

Lemma skip_ws_encoded_str (t more : string) :
  skip_ws (json_encode_str t ++ more) = (json_encode_str t ++ more)%string.
Proof. rewrite json_encode_str_append. reflexivity. Qed.

Lemma object_loop_encoded (l : list (string * string)) :
  forall (kv : string * string) (fuel depth : nat) (tail : string),
    (List.length l + 2 <= fuel)%nat ->
    object_loop fuel depth (join ", " (map json_encode_item (kv :: l)) ++ String "}" tail)
    = Ok (map (fun kv => (codepoints (fst kv), JString (codepoints (snd kv)))) (kv :: l),
          tail).
Proof.
  induction l as [|kv' l IH]; intros kv fuel depth tail Hfuel.
  - destruct fuel as [|[|fuel]]; simpl in Hfuel; try lia.
    cbn [map join]. rewrite json_encode_item_append, object_loop_eq.
    change (negb (ord dquote =? 34)%N) with false. cbv iota.
    rewrite scanstring_escape_chars. cbn [bind].
    change (skip_ws (String ":" ?x)) with (String ":" x). cbv iota.
    change (skip_ws (String " " ?x)) with (skip_ws x).
    rewrite skip_ws_encoded_str, scan_once_encoded_str. reflexivity.
  - destruct fuel as [|[|fuel]]; simpl in Hfuel; try lia.
    change (join ", " (map json_encode_item (kv :: kv' :: l)))
      with (json_encode_item kv ++ ", " ++ join ", " (map json_encode_item (kv' :: l)))%string.
    rewrite !append_assoc, json_encode_item_append, object_loop_eq.
    change (negb (ord dquote =? 34)%N) with false. cbv iota.
    rewrite scanstring_escape_chars. cbn [bind].
    change (skip_ws (String ":" ?x)) with (String ":" x). cbv iota.
    change (skip_ws (String " " ?x)) with (skip_ws x).
    rewrite skip_ws_encoded_str, scan_once_encoded_str. cbn [bind].
    change (", " ++ ?x)%string with (String "," (String " " x)).
    change (skip_ws (String "," ?x)) with (String "," x). cbv iota.
    change (skip_ws (String " " ?x)) with (skip_ws x).
    set (rest := (join ", " (map json_encode_item (kv' :: l)) ++ String "}" tail)%string).
    assert (Hrest : skip_ws rest = rest).
    { subst rest. clear. destruct l; cbn [map join];
        [| rewrite !append_assoc]; rewrite json_encode_item_append; reflexivity. }
    rewrite Hrest. subst rest. rewrite IH by lia. reflexivity.
Qed.

Lemma codepoints_injective (a b : string) : codepoints a = codepoints b -> a = b.
Proof.
  revert b. induction a as [|x a IH]; intros [|y b]; simpl; try discriminate;
    [reflexivity|].
  intros H. injection H as Hxy Hab. unfold ord in Hxy.
  rewrite <- (ascii_N_embedding x), <- (ascii_N_embedding y), Hxy. f_equal. now apply IH.
Qed.

Lemma NoDup_map_injective {A B : Type} (f : A -> B) (l : list A) :
  (forall a b, f a = f b -> a = b) -> NoDup l -> NoDup (map f l).
Proof.
  intros Hf. induction 1 as [|a l Ha _ IH]; simpl; constructor; [|exact IH].
  intros Hin. apply in_map_iff in Hin as (b & Hb & Hin). apply Hf in Hb. now subst.
Qed.

Lemma object_set_fresh (d : list (list N * json)) (k : list N) (v : json) :
  ~ In k (map fst d) -> object_set d k v = d ++ [(k, v)].
Proof.
  induction d as [|[k' v'] d IH]; simpl; intros H; [reflexivity|].
  destruct (list_eq_dec N.eq_dec k' k) as [->|_]; [tauto|].
  rewrite IH; tauto.
Qed.

(** Members with distinct keys are set one after the other. *)
Lemma object_set_distinct (ms acc : list (list N * json)) :
  NoDup (map fst (acc ++ ms)) ->
  fold_left (fun d kv => object_set d (fst kv) (snd kv)) ms acc = acc ++ ms.
Proof.
  revert acc. induction ms as [|[k v] ms IH]; intros acc H; simpl.
  - now rewrite app_nil_r.
  - rewrite object_set_fresh.
    + rewrite IH; rewrite <- app_assoc; [reflexivity | exact H].
    + rewrite map_app in H. simpl in H. apply NoDup_remove_2 in H.
      intros Hin. apply H. apply in_or_app. now left.
Qed.

Lemma join_items_length (kv : string * string) (l : list (string * string)) :
  (2 * S (List.length l) <= String.length (join ", " (map json_encode_item (kv :: l))))%nat.
Proof.
  revert kv. induction l as [|u l IH]; intros kv.
  - cbn [map join List.length]. unfold json_encode_item. rewrite append_length.
    pose proof (json_encode_str_length (fst kv)). lia.
  - change (join ", " (map json_encode_item (kv :: u :: l)))
      with (json_encode_item kv ++ ", " ++ join ", " (map json_encode_item (u :: l)))%string.
    rewrite !append_length. specialize (IH u).
    change (String.length ", ") with 2%nat. cbn [List.length] in *. lia.
Qed.

Lemma scan_once_object (fuel depth : nat) (rest : string) :
  scan_once (S fuel) (S depth) (String "{" rest)
  = match skip_ws rest with
    | String "}" r => Ok (JObject [], r)
    | s1 => do (ms, r) <- object_loop fuel depth s1;
            Ok (JObject (fold_left (fun d kv => object_set d (fst kv) (snd kv)) ms []), r)
    end.
Proof. reflexivity. Qed.

(** The items of a dictionary, in any order but with distinct keys,
    survive [json.loads] after [json.dumps], wherever the interpreter
    lets the decoder enter one object. *)
Lemma json_loads_encoded_items (depth : nat) (items : list (string * string)) :
  NoDup (map fst items) ->
  json_loads (S depth) ("{" ++ join ", " (map json_encode_item items) ++ "}")
  = Ok (json_of_items items).
Proof.
  intros Hnd. destruct items as [|kv l]; [reflexivity|].
  unfold json_loads.
  set (body := join ", " (map json_encode_item (kv :: l))).
  change ("{" ++ body ++ "}")%string with (String "{" (body ++ String "}" "")).
  assert (Hlen : (2 * S (List.length l) <= String.length body)%nat)
    by apply join_items_length.
  assert (Hbody : exists r, (body ++ String "}" "")%string = String dquote r).
  { subst body. clear. destruct l; cbn [map join];
      [| rewrite !append_assoc]; rewrite json_encode_item_append; eauto. }
  destruct Hbody as [r Hr].
  change (skip_ws (String "{" ?x)) with (String "{" x).
  remember (2 * String.length (String "{" (body ++ String "}" "")) + 2)%nat as fuel eqn:Hfuel.
  cbn [String.length] in Hfuel. rewrite append_length in Hfuel.
  destruct fuel as [|fuel]; [lia|].
  rewrite scan_once_object, Hr.
  change (skip_ws (String dquote r)) with (String dquote r).
  change (match String dquote r with
          | String "}" r0 => Ok (JObject [], r0)
          | s1 => do (ms, r0) <- object_loop fuel depth s1;
                  Ok (JObject (fold_left (fun d kv => object_set d (fst kv) (snd kv)) ms []), r0)
          end)
    with (do (ms, r0) <- object_loop fuel depth (String dquote r);
          Ok (JObject (fold_left (fun d kv => object_set d (fst kv) (snd kv)) ms []), r0)).
  rewrite <- Hr. subst body.
  rewrite object_loop_encoded by lia. cbn [bind].
  rewrite object_set_distinct; [reflexivity|].
  cbn [app]. rewrite map_map. cbn [fst].
  rewrite <- (map_map fst codepoints).
  apply NoDup_map_injective; [exact codepoints_injective | exact Hnd].
Qed.

Lemma json_loads_dumps_sort_keys (depth : nat) (d : dict) :
  NoDup (map fst d) ->
  json_loads (S depth) (json_dumps_sort_keys d) = Ok (json_of_items (sorted_items d)).
Proof.
  intros Hnd. unfold json_dumps_sort_keys. apply json_loads_encoded_items.
  eapply Permutation_NoDup; [|exact Hnd].
  apply Permutation_map. unfold sorted_items. apply sorted_perm.
Qed.

(** X17. The module set [get_current_environment] stores is JSON the
    "Environments" page can read: for a row that holds the snapshot's
    [modules] text, [json.loads], called where the interpreter lets the
    decoder enter one object, returns, with no exception, the dictionary
    of the installed distributions, one member per project name, in
    ascending order of the names ([{}] when the working set could not be
    read). *)
Theorem stored_module_set_is_read_back :
  forall (page_depth : nat) (p : process) (e : env_info) (r : Environments.row),
    get_current_environment p = Ok e ->
    Environments.modules r = Some (ei_modules e) ->
    shown_modules (S page_depth) r
    = Ok (Some (json_of_items
                  (sorted_items (match working_set p with
                                 | Some ws => modules_of ws
                                 | None => []
                                 end)))).
Proof.
  intros page_depth p e r He Hr. unfold get_current_environment in He.
  destruct (split_whitespace (sys_version p)) as [|v vs]; [discriminate|].
  injection He as <-. cbn [ei_modules] in Hr. unfold shown_modules. rewrite Hr.
  set (d := match working_set p with Some ws => modules_of ws | None => [] end).
  assert (Hnd : NoDup (map fst d)).
  { subst d. destruct (working_set p); [apply modules_of_NoDup | constructor]. }
  pose proof (json_loads_dumps_sort_keys page_depth d Hnd) as Hl. revert Hl.
  unfold json_dumps_sort_keys.
  set (x := (join ", " (map json_encode_item (sorted_items d)) ++ "}")%string).
  change ("{" ++ x)%string with (String "{" x). intros Hl. cbv iota.
  now rewrite Hl.
Qed.

Lemma stored_module_set_is_read_back_witness :
  shown_modules (S sample_depth)
    (Environments.mk 1 "3.11.4" (Some "Linux-6.1-x86_64")
       (Some (json_dumps_sort_keys [("pandas", "2.0.1"); ("streamlit", "1.28.0")])) 50)
  = Ok (Some (json_of_items
                (sorted_items (match working_set sample_process with
                               | Some ws => modules_of ws
                               | None => []
                               end)))).
Proof.
  apply (stored_module_set_is_read_back sample_depth sample_process
           (mk_env_info "3.11.4" "Linux-6.1-x86_64"
              (json_dumps_sort_keys [("pandas", "2.0.1"); ("streamlit", "1.28.0")]))).
  - reflexivity.
  - reflexivity.
Defined.

(** ** The "Environments" page *)

Lemma filter_disjoint_app {A : Type} (p q : A -> bool) (l : list A) :
  (forall a, In a l -> p a = true -> q a = false) ->
  Permutation (filter p l ++ filter q l) (filter (fun a => p a || q a) l).
Proof.
  induction l as [|a l IH]; intros H; simpl; [reflexivity|].
  assert (IH' := IH (fun x Hx => H x (or_intror Hx))).
  pose proof (H a (or_introl eq_refl)) as Ha.
  destruct (p a) eqn:Hp; simpl.
  - rewrite (Ha eq_refl). now constructor.
  - destruct (q a); simpl; [|exact IH'].
    rewrite <- Permutation_middle. now constructor.
Qed.

(** With distinct ids, the errors of the environments taken one by one
    are the errors linked to any of them. *)
Lemma errors_per_environment (envs : list Environments.row) (errs : list Errors.row) :
  NoDup (map Environments.id envs) ->
  Permutation
    (flat_map (fun r => filter (fun e => sql_int_eq (Errors.environment_id e)
                                           (Environments.id r)) errs) envs)
    (filter (fun e => existsb (fun env => sql_int_eq (Errors.environment_id e)
                                            (Environments.id env)) envs) errs).
Proof.
  induction envs as [|r envs IH]; simpl; intros Hnd.
  - clear. induction errs as [|e errs IH]; simpl; [constructor | exact IH].
  - inversion Hnd as [|? ? Hr Hrest]; subst. rewrite (IH Hrest).
    apply filter_disjoint_app. intros e _ He.
    apply not_true_is_false. intros Hex. apply existsb_exists in Hex as (env & Hin & Henv).
    destruct (Errors.environment_id e) as [n|]; simpl in *; [|discriminate].
    apply Z.eqb_eq in He, Henv. apply Hr. rewrite <- He, Henv. now apply in_map.
Qed.

Lemma environment_panel_columns (page_depth depth : nat) (db : database)
  (r : Environments.row)
  (panel : Environments.row * option json * list (error_view json)) :
  environment_panel page_depth depth db r = Ok panel ->
  fst (fst panel) = r
  /\ shown_modules page_depth r = Ok (snd (fst panel))
  /\ get_errors_by_environment depth db (Environments.id r) = Ok (snd panel).
Proof.
  unfold environment_panel.
  destruct (shown_modules page_depth r) as [m|]; simpl; [|discriminate].
  destruct (get_errors_by_environment depth db (Environments.id r)) as [rows|]; simpl;
    [|discriminate].
  intros H. injection H as <-. now repeat split.
Qed.

Lemma Forall2_flat_map_perm {A B C : Type} (R : A -> B -> Prop) (f : A -> list C)
  (g : B -> list C) (l : list A) (bs : list B) :
  (forall a b, R a b -> Permutation (g b) (f a)) ->
  Forall2 R l bs -> Permutation (flat_map g bs) (flat_map f l).
Proof.
  intros H. induction 1 as [|a b l bs Hab _ IH]; simpl; [constructor|].
  apply Permutation_app; [now apply H | exact IH].
Qed.

(** X18. Whenever the "Environments" page is drawn without an exception
    on a database where no two environments share an id, it shows one
    panel per environment, the newest environment first, and the lists of
    errors in the panels hold between them every error linked to an
    environment that exists, each as often as it is stored: an error is
    never listed under two environments, and an error with no
    environment, or with the id of none, is listed under no panel. *)
Theorem environments_page_shows_each_linked_error_once :
  forall (page_depth depth : nat) (db : database)
         (panels : list (Environments.row * option json * list (error_view json))),
    NoDup (map Environments.id (environments db)) ->
    environments_page page_depth depth db = Ok panels ->
    map (fun panel => fst (fst panel)) panels = get_all_environments db
    /\ Permutation (flat_map (fun panel => map v_id (snd panel)) panels)
                   (map Errors.id (linked_errors db)).
Proof.
  intros page_depth depth db panels Hpk H.
  unfold environments_page in H. apply mapM_Forall2 in H.
  split.
  - symmetry.
    rewrite <- (map_id (get_all_environments db)) at 1.
    apply (Forall2_map_eq _ _ _ _ _
             (fun r panel Hp =>
                eq_sym (proj1 (environment_panel_columns page_depth depth db r panel Hp)))
             H).
  - rewrite (Forall2_flat_map_perm _
               (fun r => map Errors.id
                           (filter (fun e => sql_int_eq (Errors.environment_id e)
                                                  (Environments.id r)) (errors db)))
               (fun panel => map v_id (snd panel)) _ _
               (fun r panel Hp =>
                  match environment_panel_columns page_depth depth db r panel Hp with
                  | conj _ (conj _ Hrows) =>
                      match errors_by_environment_stored depth db _ _ Hrows with
                      | conj Hids _ =>
                          eq_ind_r (fun l => Permutation l _)
                            (Permutation_map Errors.id
                               (Permutation_sym (order_by_desc_perm Errors.created_at _)))
                            Hids
                      end
                  end) H).
    unfold get_all_environments, linked_errors.
    rewrite <- (errors_per_environment (environments db) (errors db) Hpk).
    rewrite map_flat_map.
    apply Permutation_flat_map. symmetry. apply order_by_desc_perm.
Qed.

Lemma environments_page_shows_each_linked_error_once_witness :
  map (fun panel => fst (fst panel))
      (match environments_page sample_depth sample_depth two_environments with
       | Ok panels => panels
       | Raise _ => []
       end)
  = get_all_environments two_environments
  /\ Permutation
       (flat_map (fun panel => map v_id (snd panel))
          (match environments_page sample_depth sample_depth two_environments with
           | Ok panels => panels
           | Raise _ => []
           end))
       (map Errors.id (linked_errors two_environments)).
Proof.
  apply (environments_page_shows_each_linked_error_once sample_depth sample_depth
           two_environments).
  - vm_compute. repeat constructor; simpl; intuition discriminate.
  - vm_compute. reflexivity.
Defined.

(** X19. In every state the application reaches, no row of
    [environments] has a NULL platform or a NULL module set: the only
    INSERT gives both a value.  The UNIQUE constraint, which SQLite does
    not apply to rows with a NULL, therefore applies to every row. *)
Theorem environments_have_no_null_column :
  forall db : database,
    reachable db ->
    forall r, In r (environments db) ->
      Environments.platform r <> None /\ Environments.modules r <> None.
Proof.
  induction 1 as [|db op _ IH]; [intros r []|].
  destruct (run_cases db op) as [-> | [(r & -> & _ & Hp & Hm) | (r & -> & _)]];
    cbn [environments]; try exact IH.
  intros x Hx. apply in_app_or in Hx as [Hx | [<- | []]]; [now apply IH | now split].
Qed.

Lemma environments_have_no_null_column_witness :
  Environments.platform (Environments.mk 1 "3.11.4" (Some "Linux-6.1-x86_64") (Some "{}") 50)
  <> None
  /\ Environments.modules (Environments.mk 1 "3.11.4" (Some "Linux-6.1-x86_64") (Some "{}") 50)
     <> None.
Proof.
  apply (environments_have_no_null_column sample_database).
  - unfold sample_database. repeat apply reachable_run. apply reachable_init.
  - left. reflexivity.
Defined.
